(** * alife.py: a rabbit / fox / grass ecosystem on a toroidal field

    Shallow embedding of [src/alife.py].  Python objects live in an explicit
    store ([objects]); a population list holds references into it, so the
    aliasing between [Field.rabbits], the [rabbit_locations] dictionary of
    [feed_foxes] and the objects themselves is the one the program has.
    The two global random generators ([random] and [numpy.random]) are
    tapes of raw draws that the library calls consume in order. *)

From Stdlib Require Import ZArith QArith Lia.
From stdpp Require Import base option list strings pretty gmap.

Local Open Scope Z_scope.

(** ** Module constants *)

Definition ARRSIZE : Z := 65.
Definition INIT_RABBITS : nat := 50.
Definition INIT_FOXES : nat := 35.
(** 0.035.  The samples it is compared with are exact binary fractions;
    both sides are taken as rationals. *)
Definition GRASS_RATE : Q := Qmake 35 1000.

Definition COLOR_EMPTY : Z := 0.
Definition COLOR_GRASS : Z := 1.
Definition COLOR_RABBIT : Z := 2.
Definition COLOR_FOX : Z := 3.

(** ** Instances of class Animal *)

Module Animal.

Record t : Type := mk {
  species : string;
  max_offspring : Z;
  starvation_level : Z;
  reproduction_level : Z;
  hunger : Z;
  eaten : Z;
  alive : bool;
  x : Z;
  y : Z
}.

Definition set_hunger (v : Z) (a : t) : t :=
  mk (species a) (max_offspring a) (starvation_level a) (reproduction_level a)
     v (eaten a) (alive a) (x a) (y a).

Definition set_eaten (v : Z) (a : t) : t :=
  mk (species a) (max_offspring a) (starvation_level a) (reproduction_level a)
     (hunger a) v (alive a) (x a) (y a).

Definition set_alive (v : bool) (a : t) : t :=
  mk (species a) (max_offspring a) (starvation_level a) (reproduction_level a)
     (hunger a) (eaten a) v (x a) (y a).

Definition set_x (v : Z) (a : t) : t :=
  mk (species a) (max_offspring a) (starvation_level a) (reproduction_level a)
     (hunger a) (eaten a) (alive a) v (y a).

Definition set_y (v : Z) (a : t) : t :=
  mk (species a) (max_offspring a) (starvation_level a) (reproduction_level a)
     (hunger a) (eaten a) (alive a) (x a) v.

End Animal.

(** A reference to an Animal instance: its index in the store. *)
Abbreviation ref := nat (only parsing).

(** ** The Field instance and the program state *)

Record Field : Type := mkField {
  field : list (list Z);
  rabbits : list ref;
  foxes : list ref
}.

(** A random generator: an infinite tape of raw draws and a read position. *)
Record Rng : Type := mkRng {
  tape : nat → Z;
  cursor : nat
}.

Record State : Type := mkState {
  objects : list Animal.t;
  self : Field;
  rnd : Rng;
  np_random : Rng
}.

Definition with_objects (h : list Animal.t) (s : State) : State :=
  mkState h (self s) (rnd s) (np_random s).
Definition with_self (f : Field) (s : State) : State :=
  mkState (objects s) f (rnd s) (np_random s).
Definition with_rnd (g : Rng) (s : State) : State :=
  mkState (objects s) (self s) g (np_random s).
Definition with_np_random (g : Rng) (s : State) : State :=
  mkState (objects s) (self s) (rnd s) g.

Definition with_field (g : list (list Z)) (f : Field) : Field :=
  mkField g (rabbits f) (foxes f).
Definition with_rabbits (l : list ref) (f : Field) : Field :=
  mkField (field f) l (foxes f).
Definition with_foxes (l : list ref) (f : Field) : Field :=
  mkField (field f) (rabbits f) l.

(** ** Exceptions and the state-and-exception monad *)

(** IndexError and ValueError are the two Python exceptions the program can
    raise.  DanglingReference stands for a reference that points outside
    the store; no Python value is such a reference, and the states reached
    from main() hold none (lemma [simulation_runs]). *)
Inductive Exception : Type :=
| IndexError
| ValueError
| DanglingReference.

Inductive Result (A : Type) : Type :=
| Ok (a : A)
| Raise (e : Exception).
Arguments Ok {A} a.
Arguments Raise {A} e.

Definition M (A : Type) : Type := State → Result (A * State).

#[export] Instance M_ret : MRet M := λ A a s, Ok (a, s).
#[export] Instance M_bind : MBind M := λ A B k m s,
  match m s with
  | Ok (a, s') => k a s'
  | Raise e => Raise e
  end.

Definition raise {A : Type} (e : Exception) : M A := λ _, Raise e.
Definition gets {A : Type} (f : State → A) : M A := λ s, Ok (f s, s).
Definition modify (f : State → State) : M unit := λ s, Ok (tt, f s).

(** [for v in l: body] *)
Fixpoint for_each {A : Type} (l : list A) (body : A → M unit) : M unit :=
  match l with
  | [] => mret tt
  | v :: l' => body v;; for_each l' body
  end.

(** [for v in l: acc = body(acc, v)], for a loop that builds a local value. *)
Fixpoint for_fold {A B : Type} (l : list A) (acc : B) (body : B → A → M B) : M B :=
  match l with
  | [] => mret acc
  | v :: l' => acc' ← body acc v; for_fold l' acc' body
  end.

(** ** The store *)

Definition deref (r : ref) : M Animal.t := λ s,
  match objects s !! r with
  | Some a => Ok (a, s)
  | None => Raise DanglingReference
  end.

(** In-place attribute update of the object behind [r]. *)
Definition update (r : ref) (f : Animal.t → Animal.t) : M unit :=
  _ ← deref r; modify (λ s, with_objects (alter f r (objects s)) s).

(** Allocation of a new object; its reference is the next free index. *)
Definition new (a : Animal.t) : M ref := λ s,
  Ok (length (objects s), with_objects (objects s ++ [a]) s).

(** ** The random library *)

Definition draw (g : Rng) : Z * Rng := (tape g (cursor g), mkRng (tape g) (S (cursor g))).

(** The next raw draw of the [random] generator; the calls below reduce it
    into their range, as randbelow does. *)
Definition getrandbits : M Z := λ s,
  let '(v, g) := draw (rnd s) in Ok (v, with_rnd g s).

(** [random.randrange(start, stop)] *)
Definition randrange (start stop : Z) : M Z :=
  if stop - start <=? 0 then raise ValueError
  else v ← getrandbits; mret (start + v mod (stop - start)).

(** [random.randint(a, b)] *)
Definition randint (a b : Z) : M Z := randrange a (b + 1).

(** [random.choice(seq)] *)
Definition choice {A : Type} (seq : list A) : M A :=
  match seq with
  | [] => raise IndexError
  | _ =>
      v ← getrandbits;
      match seq !! Z.to_nat (v mod Z.of_nat (length seq)) with
      | Some c => mret c
      | None => raise IndexError
      end
  end.

(** ** Methods of Animal *)

Definition Animal_init (species : string)
    (max_offspring starvation_level reproduction_level : Z) : M ref :=
  px ← randrange 0 ARRSIZE;
  py ← randrange 0 ARRSIZE;
  new (Animal.mk species max_offspring starvation_level reproduction_level
                 0 0 true px py).

Definition move (r : ref) : M unit :=
  a ← deref r;
  dx ← choice [-1; 0; 1];
  update r (Animal.set_x ((Animal.x a + dx) mod ARRSIZE));;
  a ← deref r;
  dy ← choice [-1; 0; 1];
  update r (Animal.set_y ((Animal.y a + dy) mod ARRSIZE)).

Definition eat (r : ref) (amount : Z) : M unit :=
  update r (λ a, Animal.set_eaten (Animal.eaten a + amount) a);;
  update r (Animal.set_hunger 0).

Definition starve (r : ref) : M unit :=
  update r (λ a, Animal.set_hunger (Animal.hunger a + 1) a);;
  a ← deref r;
  if Animal.starvation_level a <=? Animal.hunger a
  then update r (Animal.set_alive false)
  else mret tt.

Definition can_reproduce (r : ref) : M bool :=
  a ← deref r;
  mret (Animal.reproduction_level a <=? Animal.eaten a).

(** [copy.deepcopy(self)]: every attribute of an Animal is an immutable
    value, so the deep copy is a fresh object with equal attributes. *)
Definition deepcopy (r : ref) : M ref :=
  a ← deref r; new a.

(** [self.eaten = 0], then
    [[copy.deepcopy(self) for _ in range(rnd.randint(0, self.max_offspring))]]. *)
Definition reproduce (r : ref) : M (list ref) :=
  update r (Animal.set_eaten 0);;
  a ← deref r;
  n ← randint 0 (Animal.max_offspring a);
  for_fold (seq 0 (Z.to_nat n)) [] (λ born _, c ← deepcopy r; mret (born ++ [c])).

(** ** numpy arrays of shape (rows, cols) as lists of rows *)

(** An integer index into an axis of length [n]: negative indices count
    from the end, anything outside [-n, n) is an IndexError. *)
Definition np_index (n : nat) (i : Z) : option nat :=
  if (0 <=? i) && (i <? Z.of_nat n) then Some (Z.to_nat i)
  else if (- Z.of_nat n <=? i) && (i <? 0) then Some (Z.to_nat (i + Z.of_nat n))
  else None.

(** [arr[i, j]] *)
Definition getitem (arr : list (list Z)) (i j : Z) : option Z :=
  ri ← np_index (length arr) i;
  row ← arr !! ri;
  ci ← np_index (length row) j;
  row !! ci.

(** [arr[i, j] = v] *)
Definition setitem (arr : list (list Z)) (i j : Z) (v : Z) : option (list (list Z)) :=
  ri ← np_index (length arr) i;
  row ← arr !! ri;
  ci ← np_index (length row) j;
  Some (<[ri := <[ci := v]> row]> arr).

(** [np.ones((rows, cols), dtype=int)] *)
Definition ones (rows cols : nat) : list (list Z) := replicate rows (replicate cols 1).

(** One sample of [np.random.rand]: 53 random bits scaled into [0, 1). *)
Definition random_sample (v : Z) : Q := Qmake (v mod 2 ^ 53) (2 ^ 53).

(** The rows * cols samples [np.random.rand(rows, cols)] reads off the
    generator, row by row. *)
Definition samples (g : Rng) (rows cols : nat) : list (list Q) :=
  (λ i, (λ j, random_sample (tape g (cursor g + i * cols + j)%nat)) <$> seq 0 cols)
    <$> seq 0 rows.

(** [np.random.rand(rows, cols)] *)
Definition rand (rows cols : nat) : M (list (list Q)) := λ s,
  let g := np_random s in
  Ok (samples g rows cols,
      with_np_random (mkRng (tape g) (cursor g + rows * cols)%nat) s).

(** [a < b] on rationals, as a boolean. *)
Definition Qltb (a b : Q) : bool := Qnum a * Zpos (Qden b) <? Qnum b * Zpos (Qden a).

(** [(u < rate).astype(int)] *)
Definition below (rate : Q) (u : list (list Q)) : list (list Z) :=
  (λ row : list Q, (λ v : Q, if Qltb v rate then 1 else 0) <$> row) <$> u.

(** [np.maximum(a, b)] on arrays of equal shape; the field and the regrowth
    mask both have shape (ARRSIZE, ARRSIZE), broadcasting of other shapes
    is not modelled and raises. *)
Definition maximum (a b : list (list Z)) : M (list (list Z)) :=
  if bool_decide (length <$> a = length <$> b)
  then mret (zip_with (zip_with Z.max) a b)
  else raise ValueError.

(** ** Methods of Field *)

Definition Field_init : M unit :=
  modify (with_self (mkField (ones (Z.to_nat ARRSIZE) (Z.to_nat ARRSIZE)) [] [])).

Definition add_animal (animal : ref) : M unit :=
  a ← deref animal;
  if decide (Animal.species a = "rabbit"%string)
  then modify (λ s, with_self (with_rabbits (rabbits (self s) ++ [animal]) (self s)) s)
  else if decide (Animal.species a = "fox"%string)
  then modify (λ s, with_self (with_foxes (foxes (self s) ++ [animal]) (self s)) s)
  else mret tt.

Definition move_animals : M unit :=
  rs ← gets (λ s, rabbits (self s));
  fs ← gets (λ s, foxes (self s));
  for_each (rs ++ fs) move.

Definition grow_grass : M unit :=
  u ← rand (Z.to_nat ARRSIZE) (Z.to_nat ARRSIZE);
  let grow := below GRASS_RATE u in
  f ← gets (λ s, field (self s));
  f' ← maximum f grow;
  modify (λ s, with_self (with_field f' (self s)) s).

Definition field_get (i j : Z) : M Z := λ s,
  match getitem (field (self s)) i j with
  | Some v => Ok (v, s)
  | None => Raise IndexError
  end.

Definition field_set (i j : Z) (v : Z) : M unit := λ s,
  match setitem (field (self s)) i j v with
  | Some g => Ok (tt, with_self (with_field g (self s)) s)
  | None => Raise IndexError
  end.

(** The body of the loop of [feed_rabbits], for the rabbit [r]. *)
Definition feed_rabbits_body (r : ref) : M unit :=
  a ← deref r;
  c ← field_get (Animal.x a) (Animal.y a);
  if decide (c = 1)
  then eat r 1;;
       a ← deref r;
       field_set (Animal.x a) (Animal.y a) 0
  else starve r.

Definition feed_rabbits : M unit :=
  rs ← gets (λ s, rabbits (self s));
  for_each rs feed_rabbits_body.

(** [rabbit_locations.setdefault(loc, []).append(r)] *)
Definition setdefault_append (loc : Z * Z) (r : ref)
    (d : gmap (Z * Z) (list ref)) : gmap (Z * Z) (list ref) :=
  <[loc := default [] (d !! loc) ++ [r]]> d.

(** The body of the first loop of [feed_foxes]: file rabbit [r] under its cell. *)
Definition group_rabbit (d : gmap (Z * Z) (list ref)) (r : ref) :
    M (gmap (Z * Z) (list ref)) :=
  a ← deref r;
  mret (setdefault_append (Animal.x a, Animal.y a) r d).

(** The body of the second loop of [feed_foxes], for the fox [f]. *)
Definition feed_foxes_body (rabbit_locations : gmap (Z * Z) (list ref)) (f : ref) : M unit :=
  a ← deref f;
  let loc := (Animal.x a, Animal.y a) in
  match rabbit_locations !! loc with
  | Some group =>
      for_each group (λ r, update r (Animal.set_alive false));;
      eat f (Z.of_nat (length group))
  | None => starve f
  end.

Definition feed_foxes : M unit :=
  rs ← gets (λ s, rabbits (self s));
  rabbit_locations ← for_fold rs (∅ : gmap (Z * Z) (list ref)) group_rabbit;
  fs ← gets (λ s, foxes (self s));
  for_each fs (feed_foxes_body rabbit_locations).

(** [[r for r in l if r.alive]] *)
Definition alive_only (l : list ref) : M (list ref) :=
  for_fold l [] (λ kept r,
    a ← deref r;
    mret (if Animal.alive a then kept ++ [r] else kept)).

Definition remove_dead : M unit :=
  rs ← gets (λ s, rabbits (self s));
  rs' ← alive_only rs;
  modify (λ s, with_self (with_rabbits rs' (self s)) s);;
  fs ← gets (λ s, foxes (self s));
  fs' ← alive_only fs;
  modify (λ s, with_self (with_foxes fs' (self s)) s).

(** The two loops of [reproduce_animals] share this body. *)
Definition collect_born (l : list ref) : M (list ref) :=
  for_fold l [] (λ born r,
    b ← can_reproduce r;
    if (b : bool) then cs ← reproduce r; mret (born ++ cs) else mret born).

Definition reproduce_animals : M unit :=
  rs ← gets (λ s, rabbits (self s));
  born_rabbits ← collect_born rs;
  fs ← gets (λ s, foxes (self s));
  born_foxes ← collect_born fs;
  modify (λ s, with_self (with_rabbits (rabbits (self s) ++ born_rabbits) (self s)) s);;
  modify (λ s, with_self (with_foxes (foxes (self s) ++ born_foxes) (self s)) s).

Definition generation : M unit :=
  move_animals;;
  feed_rabbits;;
  feed_foxes;;
  remove_dead;;
  reproduce_animals;;
  grow_grass.

(** The set-up of [main]: a new field, INIT_RABBITS rabbits, INIT_FOXES foxes. *)
Definition main_setup : M unit :=
  Field_init;;
  for_each (seq 0 INIT_RABBITS) (λ _, r ← Animal_init "rabbit" 1 3 2; add_animal r);;
  for_each (seq 0 INIT_FOXES) (λ _, r ← Animal_init "fox" 3 12 1; add_animal r).

(** The state a run starts from: no object yet, and the two generators. *)
Definition boot (g gnp : Rng) : State := mkState [] (mkField [] [] []) g gnp.

(** [display[a.x, a.y] = color] for every animal of [l], on the local array. *)
Definition overlay (color : Z) (l : list ref) (display : list (list Z)) :
    M (list (list Z)) :=
  for_fold l display (λ d r,
    a ← deref r;
    match setitem d (Animal.x a) (Animal.y a) color with
    | Some d' => mret d'
    | None => raise IndexError
    end).

(** [display = self.field.copy()] is a value of its own: writing to it
    leaves the field as it is. *)
Definition get_display_array : M (list (list Z)) :=
  display ← gets (λ s, field (self s));
  rs ← gets (λ s, rabbits (self s));
  display ← overlay COLOR_RABBIT rs display;
  fs ← gets (λ s, foxes (self s));
  display ← overlay COLOR_FOX fs display;
  mret display.

(** What one frame hands to matplotlib: the array given to [im.set_array]
    and the string given to [plt.title]. *)
Record Frame : Type := mkFrame {
  shown : list (list Z);
  title : string
}.

(** [animate(i, field, im, rabbit_counts, fox_counts)].  The two lists are
    the caller's lists, appended to in place: they are passed in and handed
    back.  The drawing itself is matplotlib's and is not modelled. *)
Definition animate (i : Z) (rabbit_counts fox_counts : list Z) :
    M (Frame * list Z * list Z) :=
  generation;;
  display ← get_display_array;
  nr ← gets (λ s, Z.of_nat (length (rabbits (self s))));
  nf ← gets (λ s, Z.of_nat (length (foxes (self s))));
  let t := ("Gen: " +:+ pretty i +:+ "  Rabbits: " +:+ pretty nr
            +:+ "  Foxes: " +:+ pretty nf)%string in
  mret (mkFrame display t, rabbit_counts ++ [nr], fox_counts ++ [nf]).

(** The calls of [animate] FuncAnimation makes, one per frame number; how
    many it makes is decided by the event loop, so the frame numbers are a
    parameter. *)
Fixpoint play (frames : list Z) (played : list Frame) (rabbit_counts fox_counts : list Z) :
    M (list Frame * list Z * list Z) :=
  match frames with
  | [] => mret (played, rabbit_counts, fox_counts)
  | i :: frames' =>
      '(f, rc, fc) ← animate i rabbit_counts fox_counts;
      play frames' (played ++ [f]) rc fc
  end.

(** [main()] up to the data it produces: the array first shown by
    [plt.imshow], the frames played, and the two series plotted at the end. *)
Definition main (frames : list Z) : M (list (list Z) * list Frame * list Z * list Z) :=
  main_setup;;
  first ← get_display_array;
  '(played, rabbit_counts, fox_counts) ← play frames [] [] [];
  mret (first, played, rabbit_counts, fox_counts).


(** ** Vocabulary of the statements *)

(** What [eat(amount)] does to the attributes of the object it is called on. *)
Definition eaten_by (amount : Z) (a : Animal.t) : Animal.t :=
  Animal.set_hunger 0 (Animal.set_eaten (Animal.eaten a + amount) a).

(** What [starve()] does to the attributes of the object it is called on. *)
Definition starved (a : Animal.t) : Animal.t :=
  let a' := Animal.set_hunger (Animal.hunger a + 1) a in
  if Animal.starvation_level a' <=? Animal.hunger a'
  then Animal.set_alive false a' else a'.

(** [n] consecutive calls of a method. *)
Fixpoint times (n : nat) (m : M unit) : M unit :=
  match n with
  | O => mret tt
  | S n' => m;; times n' m
  end.

(** The position attribute pair of an object. *)
Definition position (a : Animal.t) : Z * Z := (Animal.x a, Animal.y a).

(** The (ARRSIZE, ARRSIZE) shape every field array has. *)
Definition grid_shape (g : list (list Z)) : Prop :=
  length g = Z.to_nat ARRSIZE ∧ Forall (λ row, length row = Z.to_nat ARRSIZE) g.

(** The cell in row [i], column [j], by natural-number position. *)
Definition cell (g : list (list Z)) (i j : nat) : option Z :=
  row ← g !! i; row !! j.

(** The entry of the regrowth mask of [grow_grass] for cell (i, j): decided
    by that cell's own sample of [np.random.rand]. *)
Definition regrowth (g : Rng) (i j : nat) : Z :=
  if Qltb (random_sample (tape g (cursor g + i * Z.to_nat ARRSIZE + j)%nat)) GRASS_RATE
  then 1 else 0.

(** A position inside the field: both coordinates in [0, ARRSIZE). *)
Definition in_field (p : Z * Z) : Prop :=
  (0 ≤ p.1 < ARRSIZE) ∧ (0 ≤ p.2 < ARRSIZE).

(** Where the object behind a reference stands, if the reference is live. *)
Definition where_is (h : list Animal.t) (r : ref) : option (Z * Z) :=
  position <$> h !! r.

(** The members of [l], in order, that stand on [p]. *)
Definition group_at (h : list Animal.t) (l : list ref) (p : Z * Z) : list ref :=
  filter (λ r, where_is h r = Some p) l.

(** Every animal the field lists, rabbits first. *)
Definition population (s : State) : list ref :=
  rabbits (self s) ++ foxes (self s).

(** The hunger invariant on one object: hunger is a count, and a live
    animal has not reached its starvation level. *)
Definition hunger_ok (a : Animal.t) : Prop :=
  0 ≤ Animal.hunger a ∧
  (Animal.alive a = true → Animal.hunger a < Animal.starvation_level a).

(** The invariant on the objects behind a set of references. *)
Definition hunger_ok_on (S : ref → Prop) (h : list Animal.t) : Prop :=
  ∀ r a, S r → h !! r = Some a → hunger_ok a.

(** A computation that, when it returns, has kept the invariant on
    whatever set of references it held on, and has not changed the
    population lists. *)
Definition keeps {A : Type} (m : M A) : Prop :=
  ∀ (S : ref → Prop) (s : State) (v : A) (s' : State),
    m s = Ok (v, s') →
    hunger_ok_on S (objects s) →
    hunger_ok_on S (objects s') ∧
    rabbits (self s') = rabbits (self s) ∧
    foxes (self s') = foxes (self s).

(** The object behind [r] exists and stands inside the field. *)
Definition placed (h : list Animal.t) (r : ref) : Prop :=
  ∃ p, where_is h r = Some p ∧ in_field p.

(** The object behind [r] exists and its max_offspring is not negative. *)
Definition fertile (h : list Animal.t) (r : ref) : Prop :=
  ∃ a, h !! r = Some a ∧ 0 ≤ Animal.max_offspring a.

(** A state in which generation() cannot fail on the animals of [L]: the
    field has its shape and every reference of [L] is fertile. *)
Definition sound (L : list ref) (s : State) : Prop :=
  grid_shape (field (self s)) ∧ ∀ r, r ∈ L → fertile (objects s) r.

(** A computation under which every object of the store stays where it is
    and ends related by [R] to what it was. *)
Definition evolves {A : Type} (R : Animal.t → Animal.t → Prop) (m : M A) : Prop :=
  ∀ (s : State) (v : A) (s' : State),
    m s = Ok (v, s') →
    ∀ r a, objects s !! r = Some a → ∃ a', objects s' !! r = Some a' ∧ R a a'.

(** The attributes set by the constructor's arguments are the same. *)
Definition same_constants (a a' : Animal.t) : Prop :=
  Animal.species a' = Animal.species a ∧
  Animal.max_offspring a' = Animal.max_offspring a ∧
  Animal.starvation_level a' = Animal.starvation_level a ∧
  Animal.reproduction_level a' = Animal.reproduction_level a.

(** The animal can reproduce: what [can_reproduce] tests. *)
Definition eligible (a : Animal.t) : Prop :=
  Animal.reproduction_level a ≤ Animal.eaten a.

(** Every attribute but the position is the same. *)
Definition same_but_position (a a' : Animal.t) : Prop :=
  same_constants a a' ∧
  Animal.hunger a' = Animal.hunger a ∧
  Animal.eaten a' = Animal.eaten a ∧
  Animal.alive a' = Animal.alive a.

(** What the feeding phases leave of an animal that was fed or starved
    once: it stands where it stood, has eaten no less, and where it has
    eaten more its hunger is 0. *)
Definition fed (a a' : Animal.t) : Prop :=
  same_constants a a' ∧
  position a' = position a ∧
  Animal.eaten a ≤ Animal.eaten a' ∧
  (Animal.eaten a' = Animal.eaten a ∨ Animal.hunger a' = 0).

(** An animal as the simulation keeps it between two generations: alive,
    inside the field, with a litter size that can be drawn, hungry for
    less than its starvation level and with less eaten than it takes to
    reproduce. *)
Definition tidy_animal (a : Animal.t) : Prop :=
  Animal.alive a = true ∧
  in_field (position a) ∧
  0 ≤ Animal.max_offspring a ∧
  0 ≤ Animal.hunger a < Animal.starvation_level a ∧
  0 ≤ Animal.eaten a < Animal.reproduction_level a.

(** A field of 0s (bare) and 1s (grass). *)
Definition binary (g : list (list Z)) : Prop :=
  ∀ p v, in_field p → getitem g p.1 p.2 = Some v → v = 0 ∨ v = 1.

(** The state of the simulation between two generations: a field of the
    right shape holding 0s and 1s, no animal listed twice or in both
    lists, and every listed animal tidy. *)
Definition tidy (s : State) : Prop :=
  grid_shape (field (self s)) ∧
  binary (field (self s)) ∧
  NoDup (population s) ∧
  ∀ r, r ∈ population s → ∃ a, objects s !! r = Some a ∧ tidy_animal a.

(** The state while main() sets the simulation up: tidy, the field all
    grass, and every listed animal as its constructor call made it. *)
Definition set_up (s : State) : Prop :=
  tidy s ∧
  field (self s) = ones (Z.to_nat ARRSIZE) (Z.to_nat ARRSIZE) ∧
  (∀ r, r ∈ rabbits (self s) →
     ∃ px py, objects s !! r = Some (Animal.mk "rabbit" 1 3 2 0 0 true px py)) ∧
  (∀ f, f ∈ foxes (self s) →
     ∃ px py, objects s !! f = Some (Animal.mk "fox" 3 12 1 0 0 true px py)).

(** The title [animate] gives the plot. *)
Definition frame_title (i nr nf : Z) : string :=
  ("Gen: " +:+ pretty i +:+ "  Rabbits: " +:+ pretty nr
   +:+ "  Foxes: " +:+ pretty nf)%string.

(** A dead animal is still dead. *)
Definition no_revival (a a' : Animal.t) : Prop :=
  Animal.alive a = false → Animal.alive a' = false.

(** The lists hold the animals main() makes: every listed rabbit is an
    Animal("rabbit", 1, 3, 2) and every listed fox an Animal("fox", 3, 12, 1). *)
Definition main_kinds (s : State) : Prop :=
  (∀ r, r ∈ rabbits (self s) → ∃ a, objects s !! r = Some a ∧
     Animal.species a = "rabbit"%string ∧ Animal.max_offspring a = 1 ∧
     Animal.starvation_level a = 3 ∧ Animal.reproduction_level a = 2) ∧
  (∀ f, f ∈ foxes (self s) → ∃ a, objects s !! f = Some a ∧
     Animal.species a = "fox"%string ∧ Animal.max_offspring a = 3 ∧
     Animal.starvation_level a = 12 ∧ Animal.reproduction_level a = 1).

(** * Running the monad *)

Lemma bind_run {A B : Type} (m : M A) (k : A → M B) (s : State) :
  (m ≫= k) s = match m s with Ok (a, s') => k a s' | Raise e => Raise e end.
Proof. reflexivity. Qed.

Lemma ret_run {A : Type} (a : A) (s : State) : (mret a : M A) s = Ok (a, s).
Proof. reflexivity. Qed.

Lemma bind_Ok {A B : Type} (m : M A) (k : A → M B) (s : State) (r : B * State) :
  (m ≫= k) s = Ok r ↔ ∃ a s1, m s = Ok (a, s1) ∧ k a s1 = Ok r.
Proof.
  rewrite bind_run. split.
  - destruct (m s) as [[a s1]|e]; [eauto | discriminate].
  - intros (a & s1 & -> & Hk). exact Hk.
Qed.

Lemma deref_run (r : ref) (s : State) (a : Animal.t) :
  objects s !! r = Some a → deref r s = Ok (a, s).
Proof. intros H. unfold deref. by rewrite H. Qed.

Lemma deref_Ok (r : ref) (s s' : State) (a : Animal.t) :
  deref r s = Ok (a, s') ↔ objects s !! r = Some a ∧ s' = s.
Proof.
  unfold deref. destruct (objects s !! r) as [b|]; split.
  - intros [= -> ->]. done.
  - intros [[= ->] ->]. done.
  - discriminate.
  - intros [? _]. discriminate.
Qed.

Lemma update_run (r : ref) (f : Animal.t → Animal.t) (s : State) (a : Animal.t) :
  objects s !! r = Some a →
  update r f s = Ok (tt, with_objects (alter f r (objects s)) s).
Proof. intros H. unfold update. by rewrite bind_run, (deref_run _ _ _ H). Qed.

Lemma update_dangling (r : ref) (f : Animal.t → Animal.t) (s : State) :
  objects s !! r = None → update r f s = Raise DanglingReference.
Proof. intros H. unfold update, deref. by rewrite bind_run, H. Qed.

Lemma eat_run (r : ref) (amount : Z) (s : State) (a : Animal.t) :
  objects s !! r = Some a →
  eat r amount s = Ok (tt, with_objects (alter (eaten_by amount) r (objects s)) s).
Proof.
  intros H. unfold eat.
  rewrite bind_run, (update_run _ _ _ _ H).
  erewrite update_run by (simpl; rewrite list_lookup_alter_eq, H; reflexivity).
  simpl. by rewrite list_alter_alter_eq.
Qed.

Lemma eat_dangling (r : ref) (amount : Z) (s : State) :
  objects s !! r = None → eat r amount s = Raise DanglingReference.
Proof. intros H. unfold eat. by rewrite bind_run, (update_dangling _ _ _ H). Qed.

Lemma starve_run (r : ref) (s : State) (a : Animal.t) :
  objects s !! r = Some a →
  starve r s = Ok (tt, with_objects (alter starved r (objects s)) s).
Proof.
  intros H. unfold starve.
  rewrite bind_run, (update_run _ _ _ _ H).
  set (a1 := Animal.set_hunger (Animal.hunger a + 1) a).
  assert (H1 : objects (with_objects
              (alter (λ a, Animal.set_hunger (Animal.hunger a + 1) a) r (objects s)) s)
            !! r = Some a1).
  { simpl. by rewrite list_lookup_alter_eq, H. }
  rewrite bind_run, (deref_run _ _ _ H1).
  assert (Hst : starved a = if Animal.starvation_level a1 <=? Animal.hunger a1
                            then Animal.set_alive false a1 else a1) by reflexivity.
  assert (Hl : alter starved r (objects s) =
               alter (λ _, starved a) r (objects s)).
  { apply list_alter_ext; [|done]. intros b Hb. congruence. }
  rewrite Hl, Hst.
  destruct (Animal.starvation_level a1 <=? Animal.hunger a1) eqn:Hc.
  - rewrite (update_run _ _ _ _ H1). unfold with_objects. simpl.
    rewrite list_alter_alter_eq. do 3 f_equal.
    apply list_alter_ext; [|done]. intros b Hb.
    rewrite H in Hb. injection Hb as <-. reflexivity.
  - rewrite ret_run. unfold with_objects. simpl. do 3 f_equal.
    apply list_alter_ext; [|done]. intros b Hb.
    rewrite H in Hb. injection Hb as <-. reflexivity.
Qed.

Lemma starve_dangling (r : ref) (s : State) :
  objects s !! r = None → starve r s = Raise DanglingReference.
Proof. intros H. unfold starve. by rewrite bind_run, (update_dangling _ _ _ H). Qed.

(** * Animal.starve *)

Lemma starved_hunger (a : Animal.t) : Animal.hunger (starved a) = Animal.hunger a + 1.
Proof. unfold starved. simpl. by destruct (_ <=? _). Qed.

Lemma starved_alive (a : Animal.t) :
  Animal.alive (starved a) =
  Animal.alive a && (Animal.hunger a + 1 <? Animal.starvation_level a).
Proof.
  unfold starved. simpl.
  destruct (Z.leb_spec (Animal.starvation_level a) (Animal.hunger a + 1));
    destruct (Z.ltb_spec (Animal.hunger a + 1) (Animal.starvation_level a));
    simpl; try lia; by rewrite ?andb_true_r, ?andb_false_r.
Qed.

Lemma starved_rest (a : Animal.t) :
  Animal.species (starved a) = Animal.species a ∧
  Animal.max_offspring (starved a) = Animal.max_offspring a ∧
  Animal.starvation_level (starved a) = Animal.starvation_level a ∧
  Animal.reproduction_level (starved a) = Animal.reproduction_level a ∧
  Animal.eaten (starved a) = Animal.eaten a ∧
  Animal.x (starved a) = Animal.x a ∧
  Animal.y (starved a) = Animal.y a.
Proof. unfold starved. simpl. by destruct (_ <=? _). Qed.

Lemma times_starve (k : nat) (s : State) (r : ref) (a : Animal.t) :
  objects s !! r = Some a →
  Animal.alive a = true →
  Animal.hunger a < Animal.starvation_level a →
  Animal.hunger a + Z.of_nat k ≤ Animal.starvation_level a →
  times k (starve r) s =
  Ok (tt, with_objects
            (alter (λ _, Animal.set_alive
                           (Animal.hunger a + Z.of_nat k <? Animal.starvation_level a)
                           (Animal.set_hunger (Animal.hunger a + Z.of_nat k) a))
                   r (objects s)) s).
Proof.
  revert s a. induction k as [|k IH]; intros s a Hr Hal Hlt Hle.
  - simpl. rewrite ret_run. do 2 f_equal.
    replace (Animal.hunger a + Z.of_nat 0) with (Animal.hunger a) by lia.
    destruct (Z.ltb_spec (Animal.hunger a) (Animal.starvation_level a)); [|lia].
    destruct s as [h f g1 g2]. unfold with_objects. simpl in *. f_equal.
    symmetry. transitivity (alter (λ b : Animal.t, b) r h).
    + apply list_alter_ext; [|done]. intros b Hb.
      rewrite Hr in Hb. injection Hb as <-. destruct a. simpl in *. by subst.
    + apply list_alter_id. done.
  - cbn [times]. rewrite bind_run, (starve_run _ _ _ Hr).
    assert (Hr' : objects (with_objects (alter starved r (objects s)) s) !! r
                  = Some (starved a)).
    { simpl. by rewrite list_lookup_alter_eq, Hr. }
    destruct (Z.ltb_spec (Animal.hunger a + 1) (Animal.starvation_level a)) as [Hs|Hs].
    + rewrite (IH _ _ Hr').
      * unfold with_objects. simpl. rewrite list_alter_alter_eq. do 3 f_equal.
        apply list_alter_ext; [|done]. intros b _. unfold compose.
        rewrite starved_hunger.
        destruct (starved_rest a) as (? & ? & Hlv & ? & ? & ? & ?). rewrite Hlv.
        replace (Animal.hunger a + 1 + Z.of_nat k)
          with (Animal.hunger a + Z.of_nat (S k)) by lia.
        unfold starved. simpl.
        destruct (Z.leb_spec (Animal.starvation_level a) (Animal.hunger a + 1)); [lia|].
        reflexivity.
      * rewrite starved_alive, Hal. simpl. by apply Z.ltb_lt.
      * rewrite starved_hunger. destruct (starved_rest a) as (? & ? & -> & _). lia.
      * rewrite starved_hunger. destruct (starved_rest a) as (? & ? & -> & _). lia.
    + assert (k = 0%nat) as -> by lia. simpl. rewrite ret_run.
      unfold with_objects. simpl. do 3 f_equal.
      apply list_alter_ext; [|done]. intros b Hb.
      rewrite Hr in Hb. injection Hb as <-.
      change (Z.of_nat 1) with 1.
      unfold starved. simpl.
      destruct (Z.leb_spec (Animal.starvation_level a) (Animal.hunger a + 1)); [|lia].
      destruct (Z.ltb_spec (Animal.hunger a + 1) (Animal.starvation_level a)); [lia|].
      reflexivity.
Qed.

(** C4. Starting from hunger 0 and alive, [k] consecutive calls of starve()
    (no eat() in between) with [k] up to starvation_level leave hunger equal
    to [k] and alive true exactly while [k] is below starvation_level: the
    object dies on call number starvation_level and on no earlier call.
    A single call on any object adds exactly 1 to hunger, and the object is
    alive afterwards iff it was alive and the new hunger is below the level;
    no other attribute and no other object is touched. *)
Theorem starve_dies_exactly_at_threshold (s : State) (r : ref) (a : Animal.t) :
  objects s !! r = Some a →
  Animal.hunger a = 0 →
  Animal.alive a = true →
  1 ≤ Animal.starvation_level a →
  (∀ k : nat, Z.of_nat k ≤ Animal.starvation_level a →
     ∃ s', times k (starve r) s = Ok (tt, s') ∧
       (∀ r', r' ≠ r → objects s' !! r' = objects s !! r') ∧
       ∃ a', objects s' !! r = Some a' ∧
         Animal.hunger a' = Z.of_nat k ∧
         Animal.alive a' = (Z.of_nat k <? Animal.starvation_level a)) ∧
  (∀ (s0 : State) (b : Animal.t), objects s0 !! r = Some b →
     ∃ b', starve r s0 = Ok (tt, with_objects (<[r := b']> (objects s0)) s0) ∧
       Animal.hunger b' = Animal.hunger b + 1 ∧
       Animal.alive b' =
         Animal.alive b && (Animal.hunger b + 1 <? Animal.starvation_level b) ∧
       Animal.set_alive (Animal.alive b) (Animal.set_hunger (Animal.hunger b) b') = b).
Proof.
  intros Hr Hh Hal Hlv. split.
  - intros k Hk. eexists. split.
    + apply (times_starve k s r a Hr Hal); lia.
    + split.
      * intros r' Hne. simpl. by rewrite list_lookup_alter_ne.
      * eexists. split.
        { simpl. rewrite list_lookup_alter_eq, Hr. reflexivity. }
        simpl. rewrite Hh. split; [lia|]. f_equal. 
  - intros s0 b Hb. exists (starved b). split; [|split; [|split]].
    + rewrite (starve_run _ _ _ Hb). do 3 f_equal.
      apply list_eq. intros i. rewrite list_lookup_alter, list_lookup_insert.
      pose proof (lookup_lt_Some _ _ _ Hb) as Hlen.
      destruct (decide (r = i)) as [<-|Hne].
      * rewrite Hb. simpl. by rewrite decide_True.
      * rewrite decide_False; [done|]. intros [? _]. done.
    + apply starved_hunger.
    + apply starved_alive.
    + unfold starved. destruct b. simpl. by destruct (_ <=? _).
Qed.

(** A rabbit of main() (starvation_level 3): alive after two hungry
    generations, dead on the third. *)
Lemma starve_dies_exactly_at_threshold_witness :
  let a := Animal.mk "rabbit" 1 3 2 0 0 true 4 7 in
  let s := mkState [a] (mkField [] [0%nat] []) (mkRng (λ _, 0) 0) (mkRng (λ _, 0) 0) in
  (∃ s', times 2 (starve 0%nat) s = Ok (tt, s') ∧
     ∃ a', objects s' !! 0%nat = Some a' ∧ Animal.alive a' = true) ∧
  (∃ s', times 3 (starve 0%nat) s = Ok (tt, s') ∧
     ∃ a', objects s' !! 0%nat = Some a' ∧ Animal.alive a' = false).
Proof.
  intros a s.
  pose proof (starve_dies_exactly_at_threshold s 0%nat a
                eq_refl eq_refl eq_refl ltac:(simpl; lia)) as [H _].
  split.
  - destruct (H 2%nat ltac:(simpl; lia)) as (s' & Hs & _ & a' & Ha & _ & Hal).
    exists s'. split; [exact Hs|]. exists a'. split; [exact Ha|]. exact Hal.
  - destruct (H 3%nat ltac:(simpl; lia)) as (s' & Hs & _ & a' & Ha & _ & Hal).
    exists s'. split; [exact Hs|]. exists a'. split; [exact Ha|]. exact Hal.
Defined.

(** * numpy indexing *)

Lemma np_index_nonneg (n : nat) (i : Z) :
  0 ≤ i < Z.of_nat n → np_index n i = Some (Z.to_nat i).
Proof.
  intros H. unfold np_index.
  destruct (Z.leb_spec 0 i); [|lia]. destruct (Z.ltb_spec i (Z.of_nat n)); [|lia]. done.
Qed.

Lemma np_index_Some (n : nat) (i : Z) (k : nat) :
  np_index n i = Some k → (k < n)%nat.
Proof.
  unfold np_index.
  destruct (Z.leb_spec 0 i); destruct (Z.ltb_spec i (Z.of_nat n)); simpl;
    try (intros [= <-]; lia);
    destruct (Z.leb_spec (- Z.of_nat n) i); destruct (Z.ltb_spec i 0); simpl;
    try discriminate; intros [= <-]; lia.
Qed.

Lemma getitem_cell (g : list (list Z)) (i j : Z) :
  grid_shape g → 0 ≤ i < ARRSIZE → 0 ≤ j < ARRSIZE →
  getitem g i j = cell g (Z.to_nat i) (Z.to_nat j).
Proof.
  intros [Hlen Hrows] Hi Hj. unfold getitem, cell.
  rewrite np_index_nonneg by (rewrite Hlen; unfold ARRSIZE in *; lia). simpl.
  destruct (g !! Z.to_nat i) as [row|] eqn:Hrow; [|done]. simpl.
  rewrite Forall_forall in Hrows.
  rewrite np_index_nonneg; [done|].
  rewrite (Hrows row) by (eapply list_elem_of_lookup_2; eauto).
  unfold ARRSIZE in *; lia.
Qed.

(** * Field.__init__ *)

Lemma ones_shape : grid_shape (ones (Z.to_nat ARRSIZE) (Z.to_nat ARRSIZE)).
Proof.
  split.
  - unfold ones. by rewrite length_replicate.
  - unfold ones. apply Forall_replicate. by rewrite length_replicate.
Qed.

Lemma ones_cell (rows cols i j : nat) :
  (i < rows)%nat → (j < cols)%nat → cell (ones rows cols) i j = Some 1.
Proof.
  intros Hi Hj. unfold cell, ones.
  rewrite (lookup_replicate_2 _ _ _ Hi). simpl. by apply lookup_replicate_2.
Qed.

(** C9. Field() never fails; the new field array has shape
    (ARRSIZE, ARRSIZE) and holds 1 (grass) in every cell, and both
    population lists are empty.  Objects already in the store and the
    random generators are left as they were. *)
Theorem Field_init_all_grass (s : State) :
  ∃ s', Field_init s = Ok (tt, s') ∧
    rabbits (self s') = [] ∧
    foxes (self s') = [] ∧
    grid_shape (field (self s')) ∧
    Forall (Forall (λ c, c = COLOR_GRASS)) (field (self s')) ∧
    (∀ i j : Z, 0 ≤ i < ARRSIZE → 0 ≤ j < ARRSIZE →
       getitem (field (self s')) i j = Some 1) ∧
    objects s' = objects s ∧ rnd s' = rnd s ∧ np_random s' = np_random s.
Proof.
  eexists. split; [reflexivity|]. simpl.
  split; [done|]. split; [done|]. split; [apply ones_shape|].
  split; [|split; [|done]].
  - unfold ones. apply Forall_replicate, Forall_replicate. done.
  - intros i j Hi Hj. rewrite getitem_cell by (try apply ones_shape; done).
    apply ones_cell; unfold ARRSIZE in *; lia.
Qed.

(** * Field.add_animal *)

Lemma add_animal_rabbit (s : State) (r : ref) (a : Animal.t) :
  objects s !! r = Some a → Animal.species a = "rabbit"%string →
  add_animal r s =
  Ok (tt, with_self (with_rabbits (rabbits (self s) ++ [r]) (self s)) s).
Proof.
  intros Hr Hsp. unfold add_animal.
  rewrite bind_run, (deref_run _ _ _ Hr). by rewrite decide_True.
Qed.

Lemma add_animal_fox (s : State) (r : ref) (a : Animal.t) :
  objects s !! r = Some a → Animal.species a = "fox"%string →
  add_animal r s =
  Ok (tt, with_self (with_foxes (foxes (self s) ++ [r]) (self s)) s).
Proof.
  intros Hr Hsp. unfold add_animal.
  rewrite bind_run, (deref_run _ _ _ Hr).
  rewrite decide_False by (rewrite Hsp; discriminate). by rewrite decide_True.
Qed.

(** C10. add_animal() on an animal whose species is neither "rabbit" nor
    "fox" returns normally and leaves the whole state, both population
    lists included, exactly as it was. *)
Theorem add_animal_unknown_species (s : State) (r : ref) (a : Animal.t) :
  objects s !! r = Some a →
  Animal.species a ≠ "rabbit"%string →
  Animal.species a ≠ "fox"%string →
  add_animal r s = Ok (tt, s).
Proof.
  intros Hr Hnr Hnf. unfold add_animal.
  rewrite bind_run, (deref_run _ _ _ Hr).
  by rewrite !decide_False.
Qed.

(** A wolf handed to a field that holds one rabbit. *)
Lemma add_animal_unknown_species_witness :
  let s := mkState [Animal.mk "rabbit" 1 3 2 0 0 true 0 0;
                    Animal.mk "wolf" 2 5 1 0 0 true 3 4]
                   (mkField (ones 65 65) [0%nat] [])
                   (mkRng (λ _, 0) 0) (mkRng (λ _, 0) 0) in
  add_animal 1%nat s = Ok (tt, s).
Proof.
  intros s.
  apply (add_animal_unknown_species s 1%nat (Animal.mk "wolf" 2 5 1 0 0 true 3 4)).
  - reflexivity.
  - simpl. discriminate.
  - simpl. discriminate.
Defined.

(** * Field.grow_grass *)

Lemma shape_lengths (g : list (list Z)) (n : nat) :
  Forall (λ row, length row = n) g → length <$> g = replicate (length g) n.
Proof.
  induction 1 as [|row g Hrow _ IH]; [done|].
  rewrite fmap_cons, IH, Hrow. reflexivity.
Qed.

Lemma rand_run (rows cols : nat) (s : State) :
  rand rows cols s =
  Ok (samples (np_random s) rows cols,
      with_np_random (mkRng (tape (np_random s)) (cursor (np_random s) + rows * cols)%nat) s).
Proof. reflexivity. Qed.

Lemma below_rand_cell (g : Rng) (rows cols i j : nat) :
  (i < rows)%nat → (j < cols)%nat →
  cell (below GRASS_RATE (samples g rows cols)) i j
  = Some (if Qltb (random_sample (tape g (cursor g + i * cols + j)%nat)) GRASS_RATE
          then 1 else 0).
Proof.
  intros Hi Hj. unfold cell, below, samples.
  rewrite !list_lookup_fmap, (lookup_seq_lt _ _ _ Hi). cbn [fmap option_fmap option_map mbind option_bind].
  rewrite !list_lookup_fmap, (lookup_seq_lt _ _ _ Hj). reflexivity.
Qed.

Lemma below_rand_lengths (g : Rng) (rows cols : nat) :
  length <$> below GRASS_RATE (samples g rows cols) = replicate rows cols.
Proof.
  unfold below, samples. rewrite <- !list_fmap_compose.
  erewrite (list_fmap_ext _ (λ _, cols)).
  - generalize 0%nat. induction rows as [|n IH]; intros k; simpl; [done|].
    by rewrite IH.
  - intros _ i _. simpl. by rewrite !length_fmap, length_seq.
Qed.

Lemma zip_max_cell (a b : list (list Z)) (i j : nat) (va vb : Z) :
  cell a i j = Some va → cell b i j = Some vb →
  cell (zip_with (zip_with Z.max) a b) i j = Some (Z.max va vb).
Proof.
  unfold cell. intros Ha Hb.
  destruct (a !! i) as [ra|] eqn:Hra; [|done].
  destruct (b !! i) as [rb|] eqn:Hrb; [|done]. simpl in *.
  rewrite lookup_zip_with, Hra. simpl. rewrite Hrb. simpl.
  rewrite lookup_zip_with, Ha. simpl. by rewrite Hb.
Qed.

Lemma shape_cell (g : list (list Z)) (i j : nat) :
  grid_shape g → (i < Z.to_nat ARRSIZE)%nat → (j < Z.to_nat ARRSIZE)%nat →
  is_Some (cell g i j).
Proof.
  intros [Hlen Hrows] Hi Hj. unfold cell.
  destruct (lookup_lt_is_Some_2 g i) as [row Hrow]; [lia|].
  rewrite Hrow. simpl. apply lookup_lt_is_Some_2.
  rewrite Forall_forall in Hrows. rewrite (Hrows row); [done|].
  eapply list_elem_of_lookup_2; eauto.
Qed.

Lemma regrowth_01 (g : Rng) (i j : nat) : regrowth g i j = 0 ∨ regrowth g i j = 1.
Proof. unfold regrowth. destruct (Qltb _ _); auto. Qed.

(** The state grow_grass() returns on a field of the right shape. *)
Lemma grow_grass_run (s : State) :
  grid_shape (field (self s)) →
  grow_grass s =
  Ok (tt, mkState (objects s)
            (mkField
               (zip_with (zip_with Z.max) (field (self s))
                  (below GRASS_RATE
                     (samples (np_random s) (Z.to_nat ARRSIZE) (Z.to_nat ARRSIZE))))
               (rabbits (self s)) (foxes (self s)))
            (rnd s)
            (mkRng (tape (np_random s))
               (cursor (np_random s) + Z.to_nat ARRSIZE * Z.to_nat ARRSIZE)%nat)).
Proof.
  intros [Hlen Hrows]. unfold grow_grass.
  generalize dependent (Z.to_nat ARRSIZE). intros n Hlen Hrows.
  rewrite bind_run, rand_run.
  cbn zeta. unfold gets. rewrite bind_run. cbn beta iota. cbn [self with_np_random].
  unfold maximum.
  rewrite bool_decide_eq_true_2.
  2:{ rewrite below_rand_lengths, (shape_lengths _ _ Hrows), Hlen. done. }
  rewrite bind_run, ret_run. reflexivity.
Qed.

Lemma regrown_shape (g : Rng) (f : list (list Z)) :
  grid_shape f →
  grid_shape (zip_with (zip_with Z.max) f
                (below GRASS_RATE (samples g (Z.to_nat ARRSIZE) (Z.to_nat ARRSIZE)))).
Proof.
  unfold grid_shape. generalize (Z.to_nat ARRSIZE). intros n [Hlen Hrows]. split.
  - rewrite length_zip_with, Hlen. unfold below, samples.
    rewrite !length_fmap, length_seq. lia.
  - apply Forall_forall. intros row Hrow.
    apply list_elem_of_lookup_1 in Hrow as [i Hi].
    apply lookup_zip_with_Some in Hi as (ra & rb & -> & Hra & Hrb).
    rewrite length_zip_with.
    rewrite Forall_forall in Hrows.
    rewrite (Hrows ra) by (eapply list_elem_of_lookup_2; eauto).
    assert (length rb = n) as ->; [|lia].
    assert (Hl : (length <$> below GRASS_RATE (samples g n n)) !! i = Some (length rb))
      by (by rewrite list_lookup_fmap, Hrb).
    rewrite below_rand_lengths in Hl.
    apply lookup_replicate_1 in Hl as [Hl _]. done.
Qed.

(** The sample of a cell is below GRASS_RATE for exactly the first
    315251973915935 of the 2^53 values a sample of np.random.rand takes. *)
Lemma regrowth_threshold (g : Rng) (i j : nat) :
  regrowth g i j = 1 ↔
  tape g (cursor g + i * Z.to_nat ARRSIZE + j)%nat mod 2 ^ 53 < 315251973915935.
Proof.
  unfold regrowth, Qltb, random_sample, GRASS_RATE. cbn [Qnum Qden].
  generalize (tape g (cursor g + i * Z.to_nat ARRSIZE + j)%nat mod 2 ^ 53). intros k.
  change (Z.pos (2 ^ 53)) with 9007199254740992.
  destruct (Z.ltb_spec (k * 1000) (35 * 9007199254740992)); split; intros H0; try lia;
    try reflexivity; discriminate.
Qed.

(** Every pattern of mask entries is the regrowth of some samples: the
    cells do not constrain each other. *)
Lemma regrowth_pattern (c : nat) (want : nat → nat → bool) :
  ∃ tp : nat → Z, ∀ i j : nat, (j < Z.to_nat ARRSIZE)%nat →
    regrowth (mkRng tp c) i j = if want i j then 1 else 0.
Proof.
  exists (λ n, if want ((n - c) / Z.to_nat ARRSIZE)%nat ((n - c) mod Z.to_nat ARRSIZE)%nat
               then 0 else 2 ^ 53 - 1).
  intros i j Hj.
  pose proof (regrowth_threshold
    (mkRng (λ n, if want ((n - c) / Z.to_nat ARRSIZE)%nat
                         ((n - c) mod Z.to_nat ARRSIZE)%nat
                 then 0 else 2 ^ 53 - 1) c) i j) as Hth.
  pose proof (regrowth_01
    (mkRng (λ n, if want ((n - c) / Z.to_nat ARRSIZE)%nat
                         ((n - c) mod Z.to_nat ARRSIZE)%nat
                 then 0 else 2 ^ 53 - 1) c) i j) as H01.
  cbn [tape cursor] in Hth.
  revert Hth H01. generalize (Z.to_nat ARRSIZE) Hj. clear Hj. intros n Hj Hth H01.
  replace (c + i * n + j - c)%nat with (j + i * n)%nat in Hth by lia.
  rewrite Nat.div_add, Nat.div_small, Nat.Div0.mod_add, Nat.mod_small in Hth by lia.
  cbn [Nat.add] in Hth. destruct (want i j).
  - apply Hth. reflexivity.
  - destruct H01 as [H0|H1]; [exact H0|].
    apply Hth in H1. exfalso. revert H1. vm_compute. discriminate.
Qed.

(** C8. On a field of shape (ARRSIZE, ARRSIZE) grow_grass() returns, and
    every cell of the new field is the maximum of the old cell and that
    cell's entry of the regrowth mask (the pointwise union): a cell holding
    grass (1) still holds grass, an empty cell (0) gets exactly its mask
    entry.  The mask entry of a cell is 1 iff the cell's own sample of
    np.random.rand is below GRASS_RATE, which is the case for exactly the
    first 315251973915935 of the 2^53 values a sample takes - GRASS_RATE
    rounded up to the grid of the samples, so a cell gains grass with the
    probability GRASS_RATE of a uniform sample.  Different cells read
    different samples, and every pattern of mask entries over the cells is
    produced by some samples: the cells gain grass independently.
    Populations, objects and the [random] generator are untouched. *)
Theorem grow_grass_union (s : State) :
  grid_shape (field (self s)) →
  ∃ s', grow_grass s = Ok (tt, s') ∧
    objects s' = objects s ∧
    rabbits (self s') = rabbits (self s) ∧
    foxes (self s') = foxes (self s) ∧
    rnd s' = rnd s ∧
    grid_shape (field (self s')) ∧
    (∀ i j : nat, (i < Z.to_nat ARRSIZE)%nat → (j < Z.to_nat ARRSIZE)%nat →
       ∃ v, cell (field (self s)) i j = Some v ∧
         cell (field (self s')) i j = Some (Z.max v (regrowth (np_random s) i j)) ∧
         (v = 1 → cell (field (self s')) i j = Some 1) ∧
         (v = 0 → cell (field (self s')) i j = Some (regrowth (np_random s) i j)) ∧
         (regrowth (np_random s) i j = 1 ↔
            Qlt (random_sample (tape (np_random s)
                   (cursor (np_random s) + i * Z.to_nat ARRSIZE + j)%nat)) GRASS_RATE) ∧
         (regrowth (np_random s) i j = 1 ↔
            tape (np_random s) (cursor (np_random s) + i * Z.to_nat ARRSIZE + j)%nat
              mod 2 ^ 53 < 315251973915935) ∧
         (regrowth (np_random s) i j = 0 ∨ regrowth (np_random s) i j = 1)) ∧
    (∀ i j i' j' : nat, (j < Z.to_nat ARRSIZE)%nat → (j' < Z.to_nat ARRSIZE)%nat →
       (i * Z.to_nat ARRSIZE + j = i' * Z.to_nat ARRSIZE + j')%nat → i = i' ∧ j = j') ∧
    (Qlt (Qmake 315251973915934 (2 ^ 53)) GRASS_RATE ∧
     Qlt GRASS_RATE (Qmake 315251973915935 (2 ^ 53))) ∧
    (∀ want : nat → nat → bool,
       ∃ (tp : nat → Z) (s2' : State),
         grow_grass (with_np_random (mkRng tp (cursor (np_random s))) s) = Ok (tt, s2') ∧
         ∀ i j : nat, (i < Z.to_nat ARRSIZE)%nat → (j < Z.to_nat ARRSIZE)%nat →
           ∃ v, cell (field (self s)) i j = Some v ∧
             cell (field (self s2')) i j = Some (Z.max v (if want i j then 1 else 0))).
Proof.
  intros Hshape.
  eexists. split; [apply (grow_grass_run s Hshape)|].
  cbn [objects self rabbits foxes rnd field].
  split; [done|]. split; [done|]. split; [done|]. split; [done|].
  split; [by apply regrown_shape|]. split; [|split; [|split]].
  - intros i j Hi Hj. destruct (shape_cell _ i j Hshape Hi Hj) as [v Hv].
    exists v. split; [done|].
    assert (Hnew : cell (zip_with (zip_with Z.max) (field (self s))
              (below GRASS_RATE
                 (samples (np_random s) (Z.to_nat ARRSIZE) (Z.to_nat ARRSIZE)))) i j
            = Some (Z.max v (regrowth (np_random s) i j))).
    { apply zip_max_cell; [done|]. by apply below_rand_cell. }
    split; [done|]. rewrite Hnew.
    pose proof (regrowth_threshold (np_random s) i j) as Hth.
    pose proof (regrowth_01 (np_random s) i j) as H01.
    assert (Hq : regrowth (np_random s) i j = 1 ↔
              Qlt (random_sample (tape (np_random s)
                     (cursor (np_random s) + i * Z.to_nat ARRSIZE + j)%nat)) GRASS_RATE).
    { clear Hnew Hth H01. unfold regrowth, Qltb, Qlt.
      destruct (Z.ltb_spec
        (Qnum (random_sample (tape (np_random s)
           (cursor (np_random s) + i * Z.to_nat ARRSIZE + j)%nat)) * Z.pos (Qden GRASS_RATE))
        (Qnum GRASS_RATE * Z.pos (Qden (random_sample (tape (np_random s)
           (cursor (np_random s) + i * Z.to_nat ARRSIZE + j)%nat))))).
      - done.
      - split; [done|lia]. }
    split; [intros ->; f_equal; destruct H01 as [->| ->]; reflexivity|].
    split; [intros ->; f_equal; destruct H01 as [->| ->]; reflexivity|].
    split; [exact Hq|]. split; [exact Hth|exact H01].
  - intros i j i' j' Hj Hj' Heq. unfold ARRSIZE in *. lia.
  - split; vm_compute; reflexivity.
  - intros want.
    destruct (regrowth_pattern (cursor (np_random s)) want) as [tp Htp].
    exists tp. eexists.
    split; [apply (grow_grass_run (with_np_random (mkRng tp (cursor (np_random s))) s) Hshape)|].
    cbn [objects self rabbits foxes rnd field np_random with_np_random].
    intros i j Hi Hj. destruct (shape_cell _ i j Hshape Hi Hj) as [v Hv].
    exists v. split; [done|]. rewrite <- (Htp i j Hj).
    apply zip_max_cell; [done|]. by apply below_rand_cell.
Qed.

(** A bare field: cell (0, 1) reads the sample 2^46 / 2^53, below the
    rate, and gains grass; cell (3, 4) reads a sample above it and stays
    bare. *)
Lemma grow_grass_union_witness :
  let s := mkState [] (mkField (replicate 65 (replicate 65 0)) [] [])
                   (mkRng (λ _, 0) 0) (mkRng (λ n, Z.of_nat n * 2 ^ 46) 0) in
  grid_shape (field (self s)) ∧
  ∃ s', grow_grass s = Ok (tt, s') ∧
    cell (field (self s')) 0 1 = Some 1 ∧
    cell (field (self s')) 3 4 = Some 0.
Proof.
  intros s.
  assert (Hshape : grid_shape (field (self s))).
  { split; [reflexivity|]. apply (bool_decide_unpack _). vm_compute. exact I. }
  split; [exact Hshape|].
  destruct (grow_grass_union s Hshape) as (s' & Hrun & _ & _ & _ & _ & _ & Hcells & _).
  exists s'. split; [exact Hrun|]. split.
  - destruct (Hcells 0%nat 1%nat ltac:(vm_compute; lia) ltac:(vm_compute; lia))
      as (v & Hv & _ & _ & Hbare & _).
    etransitivity; [apply Hbare; vm_compute in Hv; congruence|].
    vm_compute. reflexivity.
  - destruct (Hcells 3%nat 4%nat ltac:(vm_compute; lia) ltac:(vm_compute; lia))
      as (v & Hv & _ & _ & Hbare & _).
    etransitivity; [apply Hbare; vm_compute in Hv; congruence|].
    vm_compute. reflexivity.
Defined.

(** * The random library *)

Lemma getrandbits_run (s : State) :
  getrandbits s =
  Ok (tape (rnd s) (cursor (rnd s)),
      with_rnd (mkRng (tape (rnd s)) (S (cursor (rnd s)))) s).
Proof. reflexivity. Qed.

Lemma randrange_run (start stop : Z) (s : State) :
  start < stop →
  randrange start stop s =
  Ok (start + tape (rnd s) (cursor (rnd s)) mod (stop - start),
      with_rnd (mkRng (tape (rnd s)) (S (cursor (rnd s)))) s).
Proof.
  intros H. unfold randrange.
  destruct (Z.leb_spec (stop - start) 0); [lia|].
  by rewrite bind_run, getrandbits_run.
Qed.

Lemma randrange_empty (start stop : Z) (s : State) :
  stop ≤ start → randrange start stop s = Raise ValueError.
Proof.
  intros H. unfold randrange. destruct (Z.leb_spec (stop - start) 0); [done|lia].
Qed.

Lemma choice3_run (s : State) :
  ∃ d : Z, -1 ≤ d ≤ 1 ∧
    choice [-1; 0; 1] s = Ok (d, with_rnd (mkRng (tape (rnd s)) (S (cursor (rnd s)))) s).
Proof.
  unfold choice. rewrite bind_run, getrandbits_run.
  pose proof (Z.mod_pos_bound (tape (rnd s) (cursor (rnd s))) 3 ltac:(lia)) as Hb.
  change (Z.of_nat (length [-1; 0; 1])) with 3.
  destruct (Z.to_nat (tape (rnd s) (cursor (rnd s)) mod 3)) as [|[|[|k]]] eqn:Hk;
    try (simpl; rewrite ret_run; eexists; split; [|reflexivity]; lia).
  lia.
Qed.

(** * Animal.reproduce *)

Lemma deepcopy_loop (n : nat) (k : nat) (born : list ref) (r : ref) (a : Animal.t) (s : State) :
  objects s !! r = Some a →
  for_fold (seq k n) born (λ born _, c ← deepcopy r; mret (born ++ [c])) s =
  Ok (born ++ seq (length (objects s)) n,
      with_objects (objects s ++ replicate n a) s).
Proof.
  revert k born s. induction n as [|n IH]; intros k born s Hr.
  - simpl. rewrite ret_run, !app_nil_r. by destruct s.
  - cbn [seq for_fold]. rewrite bind_run. unfold deepcopy at 1.
    rewrite !bind_run, (deref_run _ _ _ Hr). unfold new. rewrite ret_run.
    rewrite IH.
    + cbn [objects with_objects self rnd np_random].
      rewrite length_app. cbn [length replicate].
      rewrite <- !app_assoc. simpl.
      replace (length (objects s) + 1)%nat with (S (length (objects s))) by lia.
      reflexivity.
    + simpl. rewrite lookup_app_l; [done|]. by eapply lookup_lt_Some.
Qed.

Lemma reproduce_run (r : ref) (s : State) (a : Animal.t) :
  objects s !! r = Some a →
  0 ≤ Animal.max_offspring a →
  reproduce r s =
  let n := Z.to_nat (tape (rnd s) (cursor (rnd s)) mod (Animal.max_offspring a + 1)) in
  Ok (seq (length (objects s)) n,
      mkState (alter (Animal.set_eaten 0) r (objects s)
                 ++ replicate n (Animal.set_eaten 0 a))
              (self s) (mkRng (tape (rnd s)) (S (cursor (rnd s)))) (np_random s)).
Proof.
  intros Hr Hmax. unfold reproduce.
  rewrite bind_run, (update_run _ _ _ _ Hr).
  assert (Hr' : objects (with_objects (alter (Animal.set_eaten 0) r (objects s)) s) !! r
                = Some (Animal.set_eaten 0 a)).
  { simpl. by rewrite list_lookup_alter_eq, Hr. }
  rewrite bind_run, (deref_run _ _ _ Hr').
  unfold randint. rewrite bind_run, randrange_run by (simpl; lia).
  cbn [Animal.max_offspring Animal.set_eaten].
  erewrite deepcopy_loop by (simpl; rewrite list_lookup_alter_eq, Hr; reflexivity).
  cbn zeta. cbn [objects with_objects with_rnd self rnd np_random app].
  rewrite length_alter. rewrite Z.add_0_l, Z.sub_0_r. reflexivity.
Qed.

Lemma reproduce_negative (r : ref) (s : State) (a : Animal.t) :
  objects s !! r = Some a →
  Animal.max_offspring a < 0 →
  reproduce r s = Raise ValueError.
Proof.
  intros Hr Hmax. unfold reproduce.
  rewrite bind_run, (update_run _ _ _ _ Hr).
  assert (Hr' : objects (with_objects (alter (Animal.set_eaten 0) r (objects s)) s) !! r
                = Some (Animal.set_eaten 0 a)).
  { simpl. by rewrite list_lookup_alter_eq, Hr. }
  rewrite bind_run, (deref_run _ _ _ Hr').
  unfold randint. rewrite bind_run, randrange_empty; [done|]. simpl. lia.
Qed.

(** C1, as the code has it.  For an animal with max_offspring >= 0,
    reproduce() returns; the parent's eaten is 0 afterwards; the number of
    offspring is the draw of randint(0, max_offspring), between 0 and
    max_offspring inclusive, each of these counts being produced by the raw
    draw of the same value; the offspring are fresh objects, distinct from
    one another and from every earlier object, and each is a copy of the
    parent taken after the reset: same species and constants, eaten 0, the
    parent's position, and the parent's hunger and alive flag (not 0 and
    true in general).  No other object changes, nor does the field. *)
Theorem reproduce_copies_parent (s : State) (r : ref) (a : Animal.t) :
  objects s !! r = Some a →
  0 ≤ Animal.max_offspring a →
  ∃ (born : list ref) (s' : State),
    reproduce r s = Ok (born, s') ∧
    objects s' !! r = Some (Animal.set_eaten 0 a) ∧
    Z.of_nat (length born) = tape (rnd s) (cursor (rnd s)) mod (Animal.max_offspring a + 1) ∧
    0 ≤ Z.of_nat (length born) ≤ Animal.max_offspring a ∧
    (∀ v : Z, 0 ≤ v ≤ Animal.max_offspring a → tape (rnd s) (cursor (rnd s)) = v →
       Z.of_nat (length born) = v) ∧
    NoDup born ∧
    (∀ c, c ∈ born →
       objects s !! c = None ∧
       ∃ child, objects s' !! c = Some child ∧
         Animal.species child = Animal.species a ∧
         Animal.max_offspring child = Animal.max_offspring a ∧
         Animal.starvation_level child = Animal.starvation_level a ∧
         Animal.reproduction_level child = Animal.reproduction_level a ∧
         Animal.eaten child = 0 ∧
         Animal.x child = Animal.x a ∧
         Animal.y child = Animal.y a ∧
         Animal.hunger child = Animal.hunger a ∧
         Animal.alive child = Animal.alive a) ∧
    (∀ r', r' ≠ r → r' ∉ born → objects s' !! r' = objects s !! r') ∧
    self s' = self s.
Proof.
  intros Hr Hmax.
  pose proof (Z.mod_pos_bound (tape (rnd s) (cursor (rnd s)))
                (Animal.max_offspring a + 1) ltac:(lia)) as Hb.
  pose proof (lookup_lt_Some _ _ _ Hr) as Hlt.
  eexists _, _. split; [apply (reproduce_run r s a Hr Hmax)|].
  cbn zeta. cbn [objects self].
  set (n := Z.to_nat (tape (rnd s) (cursor (rnd s)) mod (Animal.max_offspring a + 1))).
  assert (Hlen : length (alter (Animal.set_eaten 0) r (objects s)) = length (objects s))
    by apply length_alter.
  split; [|split; [|split; [|split; [|split; [|split; [|split]]]]]].
  - rewrite lookup_app_l by lia. by rewrite list_lookup_alter_eq, Hr.
  - rewrite length_seq. unfold n. lia.
  - rewrite length_seq. unfold n. lia.
  - intros v Hv Heq. rewrite length_seq. unfold n. rewrite Heq.
    rewrite Z.mod_small by lia. lia.
  - apply NoDup_seq.
  - intros c Hc. apply elem_of_seq in Hc. split.
    + apply lookup_ge_None. lia.
    + exists (Animal.set_eaten 0 a). split; [|done].
      rewrite lookup_app_r by lia. apply lookup_replicate_2. lia.
  - intros r' Hne Hnb. rewrite elem_of_seq in Hnb.
    destruct (decide (r' < length (objects s))%nat) as [Hin|Hout].
    + rewrite lookup_app_l by lia. by rewrite list_lookup_alter_ne.
    + rewrite (lookup_ge_None_2 (objects s)) by lia.
      apply lookup_ge_None. rewrite length_app, length_replicate. lia.
  - done.
Qed.

(** A fox of main() that ate one rabbit; the raw draw 2 gives two cubs. *)
Lemma reproduce_copies_parent_witness :
  let a := Animal.mk "fox" 3 12 1 0 1 true 5 6 in
  let s := mkState [a] (mkField (ones 65 65) [] [0%nat])
                   (mkRng (λ _, 2) 0) (mkRng (λ _, 0) 0) in
  ∃ (born : list ref) (s' : State),
    reproduce 0%nat s = Ok (born, s') ∧ Z.of_nat (length born) = 2.
Proof.
  intros a s.
  destruct (reproduce_copies_parent s 0%nat a eq_refl ltac:(simpl; lia))
    as (born & s' & Hrun & _ & _ & _ & Hcount & _).
  exists born, s'. split; [exact Hrun|].
  apply Hcount; [simpl; lia | reflexivity].
Defined.

(** C1 as the specification words it fails: a parent that has gone hungry
    once (hunger 1) hands its hunger to its offspring, and a parent whose
    alive flag is false gets an offspring that is not alive either. *)
Lemma reproduce_offspring_inherit_hunger :
  let hungry := Animal.mk "rabbit" 1 3 2 1 2 true 5 6 in
  let dead := Animal.mk "rabbit" 1 3 2 0 2 false 5 6 in
  let g := mkRng (λ _, 1) 0 in
  (∃ s' child,
     reproduce 0%nat (mkState [hungry] (mkField (ones 65 65) [0%nat] []) g g)
       = Ok ([1%nat], s') ∧
     objects s' !! 1%nat = Some child ∧ Animal.hunger child = 1 ∧
     Animal.hunger child ≠ 0) ∧
  (∃ s' child,
     reproduce 0%nat (mkState [dead] (mkField (ones 65 65) [0%nat] []) g g)
       = Ok ([1%nat], s') ∧
     objects s' !! 1%nat = Some child ∧ Animal.alive child ≠ true).
Proof.
  split.
  - eexists _, _. split; [vm_compute; reflexivity|].
    split; [reflexivity|]. split; [reflexivity|]. simpl. lia.
  - eexists _, _. split; [vm_compute; reflexivity|].
    split; [reflexivity|]. simpl. discriminate.
Qed.

(** * Construction *)

Lemma Animal_init_run (species : string) (mo sl rl : Z) (s : State) :
  Animal_init species mo sl rl s =
  Ok (length (objects s),
      mkState (objects s ++
                 [Animal.mk species mo sl rl 0 0 true
                    (tape (rnd s) (cursor (rnd s)) mod ARRSIZE)
                    (tape (rnd s) (S (cursor (rnd s))) mod ARRSIZE)])
              (self s) (mkRng (tape (rnd s)) (S (S (cursor (rnd s))))) (np_random s)).
Proof.
  unfold Animal_init.
  rewrite bind_run, randrange_run by (unfold ARRSIZE; lia).
  rewrite bind_run, randrange_run by (unfold ARRSIZE; lia).
  unfold new. cbn [objects with_rnd rnd self np_random tape cursor with_objects].
  rewrite !Z.add_0_l, !Z.sub_0_r. reflexivity.
Qed.

(** C6, as the code has it.  Nothing is validated and nothing is rejected:
    Animal(species, max_offspring, starvation_level, reproduction_level)
    returns a new live animal with exactly the given attributes, whatever
    the species string and the three integers are, at a position inside the
    field; Field() takes no argument and always returns.  The grid
    dimension, the initial population sizes and the grass rate are the
    module constants 65, 50, 35 and 0.035, a positive dimension, and a
    rate between 0 and 1. *)
Theorem construction_never_rejects (species : string) (mo sl rl : Z) (s : State) :
  (∃ (px py : Z) (s' : State),
     Animal_init species mo sl rl s = Ok (length (objects s), s') ∧
     objects s' = objects s ++ [Animal.mk species mo sl rl 0 0 true px py] ∧
     0 ≤ px < ARRSIZE ∧ 0 ≤ py < ARRSIZE ∧
     self s' = self s) ∧
  (∃ s', Field_init s = Ok (tt, s')) ∧
  0 < ARRSIZE ∧
  (INIT_RABBITS = 50%nat ∧ INIT_FOXES = 35%nat) ∧
  (Qle 0 GRASS_RATE ∧ Qle GRASS_RATE 1).
Proof.
  split; [|split; [|split; [|split]]].
  - eexists _, _, _. split; [apply Animal_init_run|].
    cbn [objects self]. split; [reflexivity|].
    split; [|split; [|done]]; apply Z.mod_pos_bound; unfold ARRSIZE; lia.
  - eexists. reflexivity.
  - unfold ARRSIZE. lia.
  - done.
  - unfold GRASS_RATE, Qle. simpl. lia.
Qed.

(** C6 as the specification words it fails.  A rabbit with starvation and
    reproduction thresholds 0 is constructed without complaint, and so is
    one with max_offspring -1; for the latter the failure comes later, as
    a ValueError of randint inside the first generation(). *)
Lemma invalid_configuration_not_rejected :
  let g := mkRng (λ _, 0) 0 in
  let s := mkState [] (mkField (ones 65 65) [] []) g g in
  Animal_init "rabbit" 1 0 0 s =
    Ok (0%nat, mkState [Animal.mk "rabbit" 1 0 0 0 0 true 0 0]
                       (mkField (ones 65 65) [] []) (mkRng (λ _, 0) 2) g) ∧
  (∃ s1, (r ← Animal_init "rabbit" (-1) 3 0; add_animal r) s = Ok (tt, s1) ∧
         rabbits (self s1) = [0%nat] ∧
         generation s1 = Raise ValueError).
Proof.
  split; [reflexivity|].
  eexists. split; [reflexivity|]. split; [reflexivity|].
  vm_compute. reflexivity.
Qed.

(** * Field.generation *)

Lemma grow_grass_frame (s s' : State) :
  grow_grass s = Ok (tt, s') →
  rabbits (self s') = rabbits (self s) ∧ foxes (self s') = foxes (self s).
Proof.
  unfold grow_grass. generalize (Z.to_nat ARRSIZE). intros n.
  rewrite bind_run, rand_run.
  cbn zeta. unfold gets. rewrite bind_run. cbn beta iota.
  unfold maximum. destruct (bool_decide _); [|discriminate].
  rewrite bind_run, ret_run. unfold modify. intros [= <-]. done.
Qed.

Lemma generation_Ok (s s' : State) :
  generation s = Ok (tt, s') →
  ∃ s1 s2 s3 s4 s5 : State,
    move_animals s = Ok (tt, s1) ∧
    feed_rabbits s1 = Ok (tt, s2) ∧
    feed_foxes s2 = Ok (tt, s3) ∧
    remove_dead s3 = Ok (tt, s4) ∧
    reproduce_animals s4 = Ok (tt, s5) ∧
    grow_grass s5 = Ok (tt, s').
Proof.
  unfold generation. intros H.
  apply bind_Ok in H as ([] & s1 & H1 & H).
  apply bind_Ok in H as ([] & s2 & H2 & H).
  apply bind_Ok in H as ([] & s3 & H3 & H).
  apply bind_Ok in H as ([] & s4 & H4 & H).
  apply bind_Ok in H as ([] & s5 & H5 & H).
  exists s1, s2, s3, s4, s5. done.
Qed.

(** * Reading and writing field cells *)

Section shaped_field.

Variable g : list (list Z).
Hypothesis Hshape : grid_shape g.

Lemma setitem_in_field (p : Z * Z) (v : Z) :
  in_field p →
  ∃ g', setitem g p.1 p.2 v = Some g' ∧ grid_shape g' ∧
    ∀ q, in_field q →
      getitem g' q.1 q.2 = if decide (q = p) then Some v else getitem g q.1 q.2.
Proof.
  intros [Hp1 Hp2]. pose proof Hshape as [Hlen Hrows].
  rewrite Forall_forall in Hrows.
  destruct (lookup_lt_is_Some_2 g (Z.to_nat p.1)) as [row Hrow];
    [unfold ARRSIZE in *; lia|].
  assert (Hrl : length row = Z.to_nat ARRSIZE)
    by (apply Hrows; eapply list_elem_of_lookup_2; eauto).
  unfold setitem.
  rewrite np_index_nonneg by (rewrite Hlen; unfold ARRSIZE in *; lia). simpl.
  rewrite Hrow. simpl.
  rewrite np_index_nonneg by (rewrite Hrl; unfold ARRSIZE in *; lia). simpl.
  eexists. split; [reflexivity|].
  assert (Hshape' : grid_shape (<[Z.to_nat p.1 := <[Z.to_nat p.2 := v]> row]> g)).
  { split; [by rewrite length_insert|].
    apply Forall_forall. intros row' Hin.
    apply list_elem_of_lookup_1 in Hin as [i Hi].
    rewrite list_lookup_insert in Hi.
    destruct (decide _) as [[_ _]|_].
    - injection Hi as <-. by rewrite length_insert.
    - apply Hrows. eapply list_elem_of_lookup_2; eauto. }
  split; [exact Hshape'|].
  intros q [Hq1 Hq2].
  rewrite !getitem_cell by done. unfold cell.
  rewrite list_lookup_insert.
  destruct (decide (Z.to_nat p.1 = Z.to_nat q.1 ∧ (Z.to_nat p.1 < length g)%nat))
    as [[Heq _]|Hne].
  - simpl. rewrite <- Heq, Hrow. simpl. rewrite list_lookup_insert.
    destruct (decide (Z.to_nat p.2 = Z.to_nat q.2 ∧ (Z.to_nat p.2 < length row)%nat))
      as [[Heq2 _]|Hne2].
    + rewrite decide_True; [done|]. destruct p, q; simpl in *. f_equal; lia.
    + rewrite decide_False; [done|]. intros ->. apply Hne2.
      split; [done|]. rewrite Hrl. unfold ARRSIZE in *; lia.
  - rewrite decide_False; [done|]. intros ->. apply Hne.
    split; [done|]. rewrite Hlen. unfold ARRSIZE in *; lia.
Qed.

Lemma getitem_in_field (p : Z * Z) :
  in_field p → is_Some (getitem g p.1 p.2).
Proof.
  intros [Hp1 Hp2]. rewrite getitem_cell by done.
  apply shape_cell; [done| |]; unfold ARRSIZE in *; lia.
Qed.

End shaped_field.

(** * Positions are untouched by eating, starving and dying *)

Lemma where_is_alter (f : Animal.t → Animal.t) (h : list Animal.t) (r r' : ref) :
  (∀ a, position (f a) = position a) →
  where_is (alter f r h) r' = where_is h r'.
Proof.
  intros Hf. unfold where_is. rewrite list_lookup_alter.
  destruct (decide (r = r')) as [->|]; [|done].
  destruct (h !! r') as [a|]; [|done]. simpl. by rewrite Hf.
Qed.

Lemma position_eaten_by (n : Z) (a : Animal.t) : position (eaten_by n a) = position a.
Proof. reflexivity. Qed.

Lemma position_starved (a : Animal.t) : position (starved a) = position a.
Proof. unfold starved. simpl. by destruct (_ <=? _). Qed.

Lemma position_set_alive (b : bool) (a : Animal.t) :
  position (Animal.set_alive b a) = position a.
Proof. reflexivity. Qed.

Lemma group_at_ext (h h' : list Animal.t) (l : list ref) (p : Z * Z) :
  (∀ r, where_is h' r = where_is h r) → group_at h' l p = group_at h l p.
Proof.
  intros Hw. unfold group_at. apply list_filter_iff. intros r. by rewrite Hw.
Qed.

Lemma group_at_cons (h : list Animal.t) (r : ref) (l : list ref) (p : Z * Z) :
  group_at h (r :: l) p =
  if decide (where_is h r = Some p) then r :: group_at h l p else group_at h l p.
Proof. unfold group_at. by rewrite filter_cons. Qed.

Lemma group_at_elem (h : list Animal.t) (l : list ref) (p : Z * Z) (r : ref) :
  r ∈ group_at h l p ↔ r ∈ l ∧ where_is h r = Some p.
Proof. unfold group_at. rewrite list_elem_of_filter. tauto. Qed.

(** * Field.feed_rabbits *)

Lemma if_decide_iff {A : Type} (P Q : Prop) `{!Decision P, !Decision Q} (u v : A) :
  (P ↔ Q) → (if decide P then u else v) = (if decide Q then u else v).
Proof. intros HPQ. destruct (decide P), (decide Q); try done; tauto. Qed.

Lemma feed_rabbits_body_grass (r : ref) (s : State) (a : Animal.t) (g' : list (list Z)) :
  objects s !! r = Some a →
  getitem (field (self s)) (Animal.x a) (Animal.y a) = Some 1 →
  setitem (field (self s)) (Animal.x a) (Animal.y a) 0 = Some g' →
  feed_rabbits_body r s =
  Ok (tt, with_self (with_field g' (self s))
            (with_objects (alter (eaten_by 1) r (objects s)) s)).
Proof.
  intros Hr Hg Hs. unfold feed_rabbits_body.
  rewrite bind_run, (deref_run _ _ _ Hr), bind_run. unfold field_get. rewrite Hg.
  rewrite decide_True by done. rewrite bind_run, (eat_run _ _ _ _ Hr), bind_run.
  erewrite deref_run by (simpl; rewrite list_lookup_alter_eq, Hr; reflexivity).
  unfold field_set. cbn [self with_objects eaten_by Animal.x Animal.y
                         Animal.set_hunger Animal.set_eaten].
  by rewrite Hs.
Qed.

Lemma feed_rabbits_body_bare (r : ref) (s : State) (a : Animal.t) (c : Z) :
  objects s !! r = Some a →
  getitem (field (self s)) (Animal.x a) (Animal.y a) = Some c →
  c ≠ 1 →
  feed_rabbits_body r s = Ok (tt, with_objects (alter starved r (objects s)) s).
Proof.
  intros Hr Hg Hc. unfold feed_rabbits_body.
  rewrite bind_run, (deref_run _ _ _ Hr), bind_run. unfold field_get. rewrite Hg.
  rewrite decide_False by done. apply (starve_run _ _ _ Hr).
Qed.

Lemma where_is_Some (h : list Animal.t) (r : ref) (p : Z * Z) :
  where_is h r = Some p ↔ ∃ a, h !! r = Some a ∧ position a = p.
Proof.
  unfold where_is. destruct (h !! r) as [a|]; simpl; split.
  - intros [= <-]. eauto.
  - intros (b & [= <-] & <-). done.
  - discriminate.
  - intros (b & ? & _). discriminate.
Qed.

Lemma feed_rabbits_loop (l : list ref) (s : State) :
  NoDup l →
  grid_shape (field (self s)) →
  (∀ r, r ∈ l → ∃ p, where_is (objects s) r = Some p ∧ in_field p) →
  ∃ (h' : list Animal.t) (g' : list (list Z)),
    for_each l feed_rabbits_body s =
      Ok (tt, with_self (with_field g' (self s)) (with_objects h' s)) ∧
    grid_shape g' ∧
    (∀ r, where_is h' r = where_is (objects s) r) ∧
    (∀ r, r ∉ l → h' !! r = objects s !! r) ∧
    (∀ before r after a, l = before ++ r :: after → objects s !! r = Some a →
       h' !! r = Some (if decide (getitem (field (self s)) (Animal.x a) (Animal.y a) = Some 1
                                  ∧ group_at (objects s) before (position a) = [])
                       then eaten_by 1 a else starved a)) ∧
    (∀ p, in_field p →
       getitem g' p.1 p.2 =
       if decide (getitem (field (self s)) p.1 p.2 = Some 1 ∧ group_at (objects s) l p ≠ [])
       then Some 0 else getitem (field (self s)) p.1 p.2).
Proof.
  revert s. induction l as [|r l IH]; intros s Hnd Hshape Hplaced.
  - exists (objects s), (field (self s)).
    split; [by destruct s as [? [] ? ?]|]. split; [done|]. split; [done|]. split; [done|].
    split.
    + intros [|??] ???; discriminate.
    + intros p _. rewrite decide_False; [done|]. intros [_ H]. by apply H.
  - apply NoDup_cons in Hnd as [Hnotin Hnd].
    destruct (Hplaced r ltac:(left)) as (p & Hp & Hin).
    apply where_is_Some in Hp as Ha. destruct Ha as (a & Ha & Hpos).
    destruct (getitem_in_field _ Hshape p Hin) as [c Hc].
    assert (Hxy : p = (Animal.x a, Animal.y a)) by (by rewrite <- Hpos).
    (* the state after the first rabbit *)
    assert (∃ h1 g1,
      feed_rabbits_body r s =
        Ok (tt, with_self (with_field g1 (self s)) (with_objects h1 s)) ∧
      grid_shape g1 ∧
      (∀ r', where_is h1 r' = where_is (objects s) r') ∧
      (∀ r', r' ≠ r → h1 !! r' = objects s !! r') ∧
      h1 !! r = Some (if decide (c = 1) then eaten_by 1 a else starved a) ∧
      (∀ q, in_field q →
         getitem g1 q.1 q.2 =
         if decide (q = p ∧ c = 1) then Some 0 else getitem (field (self s)) q.1 q.2))
      as (h1 & g1 & Hstep & Hshape1 & Hw1 & Hother1 & Hr1 & Hg1).
    { destruct (decide (c = 1)) as [->|Hne].
      - destruct (setitem_in_field _ Hshape p 0 Hin) as (g1 & Hset & Hshape1 & Hget1).
        exists (alter (eaten_by 1) r (objects s)), g1.
        split; [apply (feed_rabbits_body_grass _ _ a); subst p; done|].
        split; [done|].
        split; [intros r'; by apply where_is_alter|].
        split; [intros r' Hne; by rewrite list_lookup_alter_ne|].
        split; [by rewrite list_lookup_alter_eq, Ha|].
        intros q Hq. rewrite (Hget1 q Hq). apply if_decide_iff. tauto.
      - exists (alter starved r (objects s)), (field (self s)).
        split.
        { rewrite (feed_rabbits_body_bare _ _ a c); subst p; try done.
          by destruct s as [? [] ? ?]. }
        split; [done|].
        split; [intros r'; apply where_is_alter, position_starved|].
        split; [intros r' Hne'; by rewrite list_lookup_alter_ne|].
        split; [by rewrite list_lookup_alter_eq, Ha|].
        intros q Hq. rewrite decide_False; [done|]. tauto. }
    set (s1 := with_self (with_field g1 (self s)) (with_objects h1 s)) in *.
    destruct (IH s1) as (h' & g' & Hloop & Hshape' & Hw' & Hother' & Hspec' & Hgrid').
    + done.
    + done.
    + intros r' Hr'. simpl. rewrite Hw1. apply Hplaced. by right.
    + exists h', g'. split.
      { cbn [for_each]. rewrite bind_run, Hstep. exact Hloop. }
      split; [done|].
      split; [intros r'; simpl in Hw'; by rewrite Hw', Hw1|].
      split.
      { intros r' Hr'. apply not_elem_of_cons in Hr' as [Hne Hr'].
        rewrite (Hother' r' Hr'). simpl. by apply Hother1. }
      split.
      * intros before r0 after a0 Hl Ha0.
        destruct before as [|b before].
        -- simpl in Hl. injection Hl as <- <-.
           rewrite Ha in Ha0. injection Ha0 as <-.
           rewrite (Hother' r Hnotin). simpl. rewrite Hr1.
           f_equal. apply if_decide_iff.
           rewrite Hxy in Hc. simpl in Hc. rewrite Hc.
           split; [intros ->; done|]. intros [[= ->] _]. done.
        -- simpl in Hl. injection Hl as <- ->.
           assert (Hr0 : r0 ∈ before ++ r0 :: after)
             by (apply elem_of_app; right; left).
           assert (Hne : r0 ≠ r) by (intros ->; done).
           destruct (Hplaced r0 ltac:(by right)) as (q & Hq & Hqin).
           assert (Hq0 : q = position a0).
           { apply where_is_Some in Hq as (a0' & Ha0' & <-). congruence. }
           rewrite (Hspec' before r0 after a0 eq_refl)
             by (simpl; rewrite Hother1; done).
           f_equal. apply if_decide_iff.
           change (field (self s1)) with g1. change (objects s1) with h1.
           rewrite (group_at_ext _ _ _ _ Hw1).
           rewrite group_at_cons.
           pose proof (Hg1 q Hqin) as Hgq. rewrite Hq0 in Hgq. simpl in Hgq.
           rewrite Hgq.
           destruct (decide (where_is (objects s) r = Some (position a0))) as [Hsame|Hdiff].
           ++ assert (Hpq : position a0 = p) by congruence.
              rewrite <- Hq0 in Hpq. rewrite Hq0 in Hpq.
              destruct (decide (position a0 = p ∧ c = 1)) as [[_ ->]|Hn].
              ** split; [intros [[=] _]|intros [_ [=]]].
              ** split; [|intros [_ [=]]].
                 intros [Hone _]. exfalso. apply Hn. split; [done|].
                 rewrite <- Hpq in Hc. simpl in Hc. congruence.
           ++ rewrite decide_False; [done|].
              intros [Hpq _]. apply Hdiff. by rewrite Hp, Hpq.
      * intros q Hqin. rewrite (Hgrid' q Hqin).
        change (field (self s1)) with g1. change (objects s1) with h1.
        rewrite (group_at_ext _ _ _ _ Hw1), group_at_cons, (Hg1 q Hqin).
        destruct (decide (q = p ∧ c = 1)) as [[-> ->]|Hn].
        -- rewrite decide_False by (intros [[=] _]).
           rewrite decide_True; [done|]. split; [done|].
           rewrite decide_True by done. done.
        -- apply if_decide_iff.
           destruct (decide (where_is (objects s) r = Some q)) as [Hsame|Hdiff]; [|done].
           assert (q = p) as -> by congruence.
           split; [|intros [H _]; exfalso; apply Hn; split; [done|congruence]].
           intros [H _]. exfalso. apply Hn. split; [done|congruence].
Qed.

Lemma group_at_app (h : list Animal.t) (l1 l2 : list ref) (p : Z * Z) :
  group_at h (l1 ++ l2) p = group_at h l1 p ++ group_at h l2 p.
Proof. unfold group_at. apply filter_app. Qed.

(** C3. With distinct rabbits standing inside a field of shape
    (ARRSIZE, ARRSIZE), feed_rabbits() returns and, for the rabbit [r] met
    after the rabbits [before] in population order: if its cell holds grass
    (1) and none of [before] stands on that cell, [r] eats exactly 1 (eaten
    one higher, hunger 0) and the cell is 0 afterwards; otherwise, so in
    particular when an earlier rabbit shares its grass cell, [r] starves.
    A rabbit that is the only one on a grass cell therefore always eats.
    A cell ends at 0 if it held grass and some rabbit stands on it, and is
    unchanged otherwise; animals that are not rabbits of the field are not
    touched, nor are the populations and the generators. *)
Theorem feed_rabbits_first_come (s : State) :
  NoDup (rabbits (self s)) →
  grid_shape (field (self s)) →
  (∀ r, r ∈ rabbits (self s) → ∃ p, where_is (objects s) r = Some p ∧ in_field p) →
  ∃ s', feed_rabbits s = Ok (tt, s') ∧
    rabbits (self s') = rabbits (self s) ∧
    foxes (self s') = foxes (self s) ∧
    rnd s' = rnd s ∧ np_random s' = np_random s ∧
    (∀ r, r ∉ rabbits (self s) → objects s' !! r = objects s !! r) ∧
    (∀ before r after a,
       rabbits (self s) = before ++ r :: after →
       objects s !! r = Some a →
       (getitem (field (self s)) (Animal.x a) (Animal.y a) = Some 1 →
        group_at (objects s) before (position a) = [] →
        objects s' !! r =
          Some (Animal.set_hunger 0 (Animal.set_eaten (Animal.eaten a + 1) a)) ∧
        getitem (field (self s')) (Animal.x a) (Animal.y a) = Some 0) ∧
       (getitem (field (self s)) (Animal.x a) (Animal.y a) = Some 1 →
        group_at (objects s) (rabbits (self s)) (position a) = [r] →
        objects s' !! r =
          Some (Animal.set_hunger 0 (Animal.set_eaten (Animal.eaten a + 1) a)) ∧
        getitem (field (self s')) (Animal.x a) (Animal.y a) = Some 0) ∧
       (getitem (field (self s)) (Animal.x a) (Animal.y a) ≠ Some 1 ∨
        group_at (objects s) before (position a) ≠ [] →
        objects s' !! r = Some (starved a))) ∧
    (∀ p, in_field p →
       getitem (field (self s')) p.1 p.2 =
       if decide (getitem (field (self s)) p.1 p.2 = Some 1
                  ∧ group_at (objects s) (rabbits (self s)) p ≠ [])
       then Some 0 else getitem (field (self s)) p.1 p.2).
Proof.
  intros Hnd Hshape Hplaced.
  destruct (feed_rabbits_loop (rabbits (self s)) s Hnd Hshape Hplaced)
    as (h' & g' & Hloop & Hshape' & Hw' & Hother' & Hspec' & Hgrid').
  exists (with_self (with_field g' (self s)) (with_objects h' s)).
  split.
  { unfold feed_rabbits. rewrite bind_run. unfold gets. exact Hloop. }
  cbn [self objects rnd np_random rabbits foxes field with_self with_field with_objects].
  split; [done|]. split; [done|]. split; [done|]. split; [done|].
  split; [exact Hother'|]. split; [|exact Hgrid'].
  intros before r after a Hl Ha.
  assert (Hrin : r ∈ rabbits (self s)).
  { rewrite Hl. apply elem_of_app. right. left. }
  destruct (Hplaced r Hrin) as (p & Hp & Hin).
  assert (Hpa : p = position a).
  { apply where_is_Some in Hp as (a' & Ha' & <-). congruence. }
  assert (Hfirst : getitem (field (self s)) (Animal.x a) (Animal.y a) = Some 1 →
            group_at (objects s) before (position a) = [] →
            h' !! r = Some (Animal.set_hunger 0 (Animal.set_eaten (Animal.eaten a + 1) a)) ∧
            getitem g' (Animal.x a) (Animal.y a) = Some 0).
  { intros Hg Hb. split.
    - rewrite (Hspec' before r after a Hl Ha). by rewrite decide_True.
    - pose proof (Hgrid' p Hin) as Hcell. rewrite Hpa in Hcell. simpl in Hcell.
      rewrite Hcell. rewrite decide_True; [done|]. split; [done|].
      intros Hnil.
      assert (Hr : r ∈ group_at (objects s) (rabbits (self s)) (position a)).
      { apply group_at_elem. split; [done|]. by rewrite Hp, Hpa. }
      rewrite Hnil in Hr. by apply elem_of_nil in Hr. }
  split; [exact Hfirst|]. split.
  - intros Hg Halone. apply Hfirst; [done|].
    rewrite Hl, group_at_app in Halone.
    destruct (group_at (objects s) before (position a)) as [|b bs]; [done|].
    rewrite group_at_cons in Halone.
    rewrite decide_True in Halone by (by rewrite Hp, Hpa).
    simpl in Halone. injection Halone as _ Habs.
    symmetry in Habs. by apply app_cons_not_nil in Habs.
  - intros Hnot. rewrite (Hspec' before r after a Hl Ha).
    rewrite decide_False; [done|]. intros [H1 H2]. destruct Hnot; done.
Qed.

(** Two rabbits on the grass cell (1, 1) and a third alone on (2, 3): the
    first and the third eat, the second starves. *)
Lemma feed_rabbits_first_come_witness :
  let rabbit := λ px py, Animal.mk "rabbit" 1 3 2 0 0 true px py in
  let s := mkState [rabbit 1 1; rabbit 1 1; rabbit 2 3]
                   (mkField (ones 65 65) [0; 1; 2]%nat [])
                   (mkRng (λ _, 0) 0) (mkRng (λ _, 0) 0) in
  ∃ s', feed_rabbits s = Ok (tt, s') ∧
    objects s' !! 0%nat = Some (Animal.mk "rabbit" 1 3 2 0 1 true 1 1) ∧
    objects s' !! 1%nat = Some (Animal.mk "rabbit" 1 3 2 1 0 true 1 1) ∧
    objects s' !! 2%nat = Some (Animal.mk "rabbit" 1 3 2 0 1 true 2 3) ∧
    getitem (field (self s')) 1 1 = Some 0.
Proof.
  intros rabbit s.
  assert (Hnd : NoDup (rabbits (self s))).
  { apply (bool_decide_unpack _). vm_compute. exact I. }
  assert (Hshape : grid_shape (field (self s))).
  { split; [reflexivity|]. apply (bool_decide_unpack _). vm_compute. exact I. }
  assert (Hplaced : ∀ r, r ∈ rabbits (self s) →
            ∃ p, where_is (objects s) r = Some p ∧ in_field p).
  { intros r Hr. simpl in Hr.
    repeat (apply elem_of_cons in Hr as [->|Hr]);
      try (eexists; split; [reflexivity|]; unfold in_field, ARRSIZE; simpl; lia).
    exfalso. exact (not_elem_of_nil _ Hr). }
  destruct (feed_rabbits_first_come s Hnd Hshape Hplaced)
    as (s' & Hrun & _ & _ & _ & _ & _ & Hspec & _).
  exists s'. split; [exact Hrun|].
  destruct (Hspec [] 0%nat [1; 2]%nat (rabbit 1 1) eq_refl eq_refl) as (H0 & _ & _).
  destruct (H0 ltac:(vm_compute; reflexivity) eq_refl) as [Hr0 Hc0].
  destruct (Hspec [0%nat] 1%nat [2%nat] (rabbit 1 1) eq_refl eq_refl) as (_ & _ & H1).
  destruct (Hspec [0; 1]%nat 2%nat [] (rabbit 2 3) eq_refl eq_refl) as (_ & H2 & _).
  destruct (H2 ltac:(vm_compute; reflexivity) ltac:(vm_compute; reflexivity)) as [Hr2 _].
  split; [exact Hr0|]. split; [|split; [exact Hr2|exact Hc0]].
  apply H1. right. vm_compute. discriminate.
Defined.

(** * Field.feed_foxes *)

Lemma where_is_valid (h h' : list Animal.t) (r : ref) :
  where_is h' r = where_is h r → is_Some (h !! r) → is_Some (h' !! r).
Proof.
  unfold where_is. intros Hw [a Ha]. rewrite Ha in Hw.
  destruct (h' !! r); [eauto|discriminate].
Qed.

Lemma with_objects_same (s : State) : with_objects (objects s) s = s.
Proof. by destruct s. Qed.

(** The dictionary built by the first loop: every cell on which a rabbit
    stands is filed with the rabbits standing there, in population order. *)
Lemma group_rabbits_run (l : list ref) (d0 : gmap (Z * Z) (list ref)) (s : State) :
  (∀ r, r ∈ l → is_Some (objects s !! r)) →
  ∃ d, for_fold l d0 group_rabbit s = Ok (d, s) ∧
    ∀ p, d !! p =
      if decide (group_at (objects s) l p = []) then d0 !! p
      else Some (default [] (d0 !! p) ++ group_at (objects s) l p).
Proof.
  revert d0. induction l as [|r l IH]; intros d0 Hvalid.
  - exists d0. split; [done|]. intros p. by rewrite decide_True.
  - destruct (Hvalid r ltac:(left)) as [a Ha].
    destruct (IH (setdefault_append (Animal.x a, Animal.y a) r d0)) as (d & Hrun & Hd).
    { intros r' Hr'. apply Hvalid. by right. }
    exists d. split.
    { cbn [for_fold]. rewrite bind_run. unfold group_rabbit at 1.
      rewrite bind_run, (deref_run _ _ _ Ha), ret_run. exact Hrun. }
    intros p. rewrite Hd, group_at_cons. unfold setdefault_append.
    assert (Hw : where_is (objects s) r = Some (Animal.x a, Animal.y a))
      by (unfold where_is; by rewrite Ha).
    destruct (decide (where_is (objects s) r = Some p)) as [Hsame|Hdiff].
    + assert (p = (Animal.x a, Animal.y a)) as -> by congruence.
      rewrite lookup_insert_eq. simpl.
      destruct (decide (group_at (objects s) l (Animal.x a, Animal.y a) = [])) as [Hnil|_].
      * by rewrite Hnil.
      * by rewrite <- app_assoc.
    + rewrite lookup_insert_ne; [done|]. intros <-. done.
Qed.

(** The inner loop: every rabbit of the group gets alive = False. *)
Lemma kill_loop (l : list ref) (s : State) :
  (∀ r, r ∈ l → is_Some (objects s !! r)) →
  ∃ h1, for_each l (λ r, update r (Animal.set_alive false)) s
          = Ok (tt, with_objects h1 s) ∧
    ∀ r, h1 !! r = if decide (r ∈ l)
                   then Animal.set_alive false <$> objects s !! r
                   else objects s !! r.
Proof.
  revert s. induction l as [|r l IH]; intros s Hvalid.
  - exists (objects s). split; [by rewrite with_objects_same|].
    intros r. rewrite decide_False; [done|]. apply not_elem_of_nil.
  - destruct (Hvalid r ltac:(left)) as [a Ha].
    destruct (IH (with_objects (alter (Animal.set_alive false) r (objects s)) s))
      as (h1 & Hrun & Hh1).
    { intros r' Hr'. simpl. rewrite list_lookup_alter.
      destruct (decide (r = r')) as [->|].
      - rewrite Ha. simpl. eauto.
      - apply Hvalid. by right. }
    exists h1. split.
    { cbn [for_each]. rewrite bind_run, (update_run _ _ _ _ Ha). exact Hrun. }
    intros r'. rewrite Hh1. simpl. rewrite list_lookup_alter.
    destruct (decide (r = r')) as [->|Hne].
    + rewrite (decide_True (P := r' ∈ r' :: l)) by left.
      destruct (decide (r' ∈ l)); [|done].
      by destruct (objects s !! r').
    + apply if_decide_iff. rewrite elem_of_cons.
      split; [tauto | intros [Heq|?]; [congruence|done]].
Qed.

(** One fox: the rabbits on its cell die and it eats their number, or it
    starves when the dictionary has no entry for its cell. *)
Lemma feed_foxes_body_run (d : gmap (Z * Z) (list ref)) (rs : list ref)
    (f : ref) (a : Animal.t) (s : State) :
  (∀ p, d !! p = if decide (group_at (objects s) rs p = []) then None
                 else Some (group_at (objects s) rs p)) →
  objects s !! f = Some a →
  f ∉ rs →
  (∀ r, r ∈ rs → is_Some (objects s !! r)) →
  ∃ h1, feed_foxes_body d f s = Ok (tt, with_objects h1 s) ∧
    (∀ r, where_is h1 r = where_is (objects s) r) ∧
    h1 !! f = Some (if decide (group_at (objects s) rs (position a) = []) then starved a
                    else eaten_by (Z.of_nat (length (group_at (objects s) rs (position a)))) a) ∧
    (∀ r, r ≠ f →
       h1 !! r = if decide (r ∈ group_at (objects s) rs (position a))
                 then Animal.set_alive false <$> objects s !! r
                 else objects s !! r).
Proof.
  intros Hd Ha Hf Hvalid. unfold feed_foxes_body.
  rewrite bind_run, (deref_run _ _ _ Ha). cbn zeta.
  change (Animal.x a, Animal.y a) with (position a).
  rewrite (Hd (position a)).
  destruct (decide (group_at (objects s) rs (position a) = [])) as [Hnil|Hne].
  - exists (alter starved f (objects s)). split; [apply (starve_run _ _ _ Ha)|].
    split; [intros r; apply where_is_alter, position_starved|].
    split; [by rewrite list_lookup_alter_eq, Ha|].
    intros r Hr. rewrite list_lookup_alter_ne by done.
    rewrite decide_False; [done|]. rewrite Hnil. apply not_elem_of_nil.
  - set (G := group_at (objects s) rs (position a)) in *.
    destruct (kill_loop G s) as (hk & Hkill & Hhk).
    { intros r Hr. apply group_at_elem in Hr as [Hr _]. by apply Hvalid. }
    assert (HfG : f ∉ G).
    { intros Hin. apply group_at_elem in Hin as [Hin _]. done. }
    assert (Hfk : hk !! f = Some a) by (by rewrite Hhk, decide_False).
    exists (alter (eaten_by (Z.of_nat (length G))) f hk). split.
    { rewrite bind_run, Hkill. by rewrite (eat_run _ _ _ a). }
    split.
    { intros r. rewrite where_is_alter by apply position_eaten_by.
      unfold where_is. rewrite Hhk. destruct (decide (r ∈ G)); [|done].
      by destruct (objects s !! r). }
    split; [by rewrite list_lookup_alter_eq, Hfk|].
    intros r Hr. by rewrite list_lookup_alter_ne, Hhk.
Qed.

Lemma feed_foxes_loop (d : gmap (Z * Z) (list ref)) (rs fs : list ref) (s : State) :
  (∀ p, d !! p = if decide (group_at (objects s) rs p = []) then None
                 else Some (group_at (objects s) rs p)) →
  NoDup fs →
  (∀ f, f ∈ fs → f ∉ rs) →
  (∀ f, f ∈ fs → is_Some (objects s !! f)) →
  (∀ r, r ∈ rs → is_Some (objects s !! r)) →
  ∃ h', for_each fs (feed_foxes_body d) s = Ok (tt, with_objects h' s) ∧
    (∀ r, where_is h' r = where_is (objects s) r) ∧
    (∀ f a, f ∈ fs → objects s !! f = Some a →
       h' !! f = Some (if decide (group_at (objects s) rs (position a) = []) then starved a
                       else eaten_by (Z.of_nat (length (group_at (objects s) rs (position a)))) a)) ∧
    (∀ r a, r ∉ fs → objects s !! r = Some a →
       h' !! r = Some (if decide (r ∈ rs ∧ group_at (objects s) fs (position a) ≠ [])
                       then Animal.set_alive false a else a)).
Proof.
  revert s. induction fs as [|f fs IH]; intros s Hd Hnd Hdisj Hvf Hvr.
  - exists (objects s). split; [by rewrite with_objects_same|].
    split; [done|]. split; [intros ?? Hin; by apply elem_of_nil in Hin|].
    intros r a _ Ha. rewrite Ha. rewrite decide_False; [done|]. intros [_ H]. by apply H.
  - apply NoDup_cons in Hnd as [Hfnot Hnd].
    destruct (Hvf f ltac:(left)) as [a Ha].
    assert (Hfrs : f ∉ rs) by (apply Hdisj; left).
    destruct (feed_foxes_body_run d rs f a s Hd Ha Hfrs Hvr)
      as (h1 & Hstep & Hw1 & Hf1 & Ho1).
    destruct (IH (with_objects h1 s)) as (h' & Hloop & Hw' & Hfox' & Hoth').
    + intros p. simpl. rewrite (group_at_ext _ _ _ _ Hw1). apply Hd.
    + done.
    + intros f' Hf'. apply Hdisj. by right.
    + intros f' Hf'. simpl. eapply where_is_valid; [apply Hw1|]. apply Hvf. by right.
    + intros r Hr. simpl. eapply where_is_valid; [apply Hw1|]. by apply Hvr.
    + simpl in Hw', Hfox', Hoth'.
      exists h'. split.
      { cbn [for_each]. rewrite bind_run, Hstep. exact Hloop. }
      split; [intros r; by rewrite Hw', Hw1|].
      assert (Hwf : where_is (objects s) f = Some (position a))
        by (unfold where_is; by rewrite Ha).
      split.
      * intros f0 a0 Hin Ha0. apply elem_of_cons in Hin as [->|Hin].
        -- rewrite Ha in Ha0. injection Ha0 as <-.
           rewrite (Hoth' f _ Hfnot Hf1). f_equal.
           rewrite decide_False; [done|]. intros [? _]. done.
        -- assert (Hne : f0 ≠ f) by (intros ->; done).
           assert (Hf0rs : f0 ∉ rs) by (apply Hdisj; by right).
           assert (H10 : h1 !! f0 = Some a0).
           { rewrite (Ho1 f0 Hne), decide_False; [done|].
             intros Hin'. apply group_at_elem in Hin' as [? _]. done. }
           rewrite (Hfox' f0 a0 Hin H10).
           by rewrite !(group_at_ext _ _ _ _ Hw1).
      * intros r ar Hnot Har. apply not_elem_of_cons in Hnot as [Hne Hnot].
        pose proof (Ho1 r Hne) as Hr1. rewrite Har in Hr1. simpl in Hr1.
        assert (Hwr : where_is (objects s) r = Some (position ar))
          by (unfold where_is; by rewrite Har).
        rewrite group_at_cons.
        destruct (decide (r ∈ group_at (objects s) rs (position a))) as [HinG|HninG].
        -- apply group_at_elem in HinG as [Hrrs Hrp].
           assert (Hpp : position ar = position a) by congruence.
           rewrite (Hoth' r _ Hnot Hr1). f_equal.
           rewrite (decide_True (P := where_is (objects s) f = Some (position ar)))
             by (by rewrite Hpp).
           rewrite (decide_True (P := r ∈ rs ∧ f :: _ ≠ [])) by done.
           destruct (decide (r ∈ rs ∧
                       group_at h1 fs (position (Animal.set_alive false ar)) ≠ []));
             reflexivity.
        -- rewrite (Hoth' r _ Hnot Hr1). f_equal.
           rewrite (group_at_ext _ _ _ _ Hw1).
           apply if_decide_iff.
           destruct (decide (where_is (objects s) f = Some (position ar))) as [Hsame|]; [|done].
           split; intros [Hrrs _]; exfalso; apply HninG, group_at_elem;
             (split; [done|congruence]).
Qed.

(** C2. With distinct foxes, none of which is also listed as a rabbit,
    feed_foxes() returns and, the rabbits being grouped by the cell they
    stand on when the phase starts: a fox whose cell holds [n] >= 1 rabbits
    eats exactly [n] (eaten raised by [n], hunger 0); a fox whose cell
    holds no rabbit starves instead; a rabbit is marked alive = False when
    some fox stands on its cell and is left as it was otherwise; two
    different foxes on one cell are each credited the full number of
    rabbits there.  Positions, the field and every other object are
    unchanged. *)
Theorem feed_foxes_eats_whole_group (s : State) :
  NoDup (foxes (self s)) →
  (∀ f, f ∈ foxes (self s) → f ∉ rabbits (self s)) →
  (∀ r, r ∈ rabbits (self s) ++ foxes (self s) → is_Some (objects s !! r)) →
  ∃ s', feed_foxes s = Ok (tt, s') ∧
    self s' = self s ∧ rnd s' = rnd s ∧ np_random s' = np_random s ∧
    (∀ r, where_is (objects s') r = where_is (objects s) r) ∧
    (∀ f a, f ∈ foxes (self s) → objects s !! f = Some a →
       (group_at (objects s) (rabbits (self s)) (position a) ≠ [] →
        objects s' !! f =
          Some (Animal.set_hunger 0
                  (Animal.set_eaten
                     (Animal.eaten a +
                      Z.of_nat (length (group_at (objects s) (rabbits (self s)) (position a))))
                     a))) ∧
       (group_at (objects s) (rabbits (self s)) (position a) = [] →
        objects s' !! f = Some (starved a))) ∧
    (∀ r a, r ∈ rabbits (self s) → objects s !! r = Some a →
       (group_at (objects s) (foxes (self s)) (position a) ≠ [] →
        objects s' !! r = Some (Animal.set_alive false a)) ∧
       (group_at (objects s) (foxes (self s)) (position a) = [] →
        objects s' !! r = Some a)) ∧
    (∀ f1 f2 a1 a2, f1 ∈ foxes (self s) → f2 ∈ foxes (self s) → f1 ≠ f2 →
       objects s !! f1 = Some a1 → objects s !! f2 = Some a2 →
       position a1 = position a2 →
       group_at (objects s) (rabbits (self s)) (position a1) ≠ [] →
       ∃ a1' a2', objects s' !! f1 = Some a1' ∧ objects s' !! f2 = Some a2' ∧
         Animal.eaten a1' = Animal.eaten a1 +
           Z.of_nat (length (group_at (objects s) (rabbits (self s)) (position a1))) ∧
         Animal.eaten a2' = Animal.eaten a2 +
           Z.of_nat (length (group_at (objects s) (rabbits (self s)) (position a1)))) ∧
    (∀ r, r ∉ rabbits (self s) → r ∉ foxes (self s) →
       objects s' !! r = objects s !! r).
Proof.
  intros Hnd Hdisj Hvalid.
  assert (Hvr : ∀ r, r ∈ rabbits (self s) → is_Some (objects s !! r)).
  { intros r Hr. apply Hvalid, elem_of_app. by left. }
  assert (Hvf : ∀ f, f ∈ foxes (self s) → is_Some (objects s !! f)).
  { intros f Hf. apply Hvalid, elem_of_app. by right. }
  destruct (group_rabbits_run (rabbits (self s)) ∅ s Hvr) as (d & Hgroup & Hd).
  assert (Hd' : ∀ p, d !! p =
            if decide (group_at (objects s) (rabbits (self s)) p = []) then None
            else Some (group_at (objects s) (rabbits (self s)) p)).
  { intros p. rewrite Hd, lookup_empty. by destruct (decide _). }
  destruct (feed_foxes_loop d (rabbits (self s)) (foxes (self s)) s Hd' Hnd Hdisj Hvf Hvr)
    as (h' & Hloop & Hw' & Hfox' & Hoth').
  exists (with_objects h' s). split.
  { unfold feed_foxes. rewrite bind_run. unfold gets at 1.
    rewrite bind_run, Hgroup. rewrite bind_run. unfold gets. exact Hloop. }
  cbn [self objects rnd np_random with_objects].
  split; [done|]. split; [done|]. split; [done|]. split; [exact Hw'|].
  assert (Hfed : ∀ f a, f ∈ foxes (self s) → objects s !! f = Some a →
     (group_at (objects s) (rabbits (self s)) (position a) ≠ [] →
      h' !! f = Some (Animal.set_hunger 0
         (Animal.set_eaten
            (Animal.eaten a +
             Z.of_nat (length (group_at (objects s) (rabbits (self s)) (position a)))) a))) ∧
     (group_at (objects s) (rabbits (self s)) (position a) = [] →
      h' !! f = Some (starved a))).
  { intros f a Hf Ha. rewrite (Hfox' f a Hf Ha). split; intros Hg.
    - by rewrite decide_False.
    - by rewrite decide_True. }
  split; [exact Hfed|]. split; [|split].
  - intros r a Hr Ha.
    assert (Hnf : r ∉ foxes (self s)) by (intros Hin; by apply (Hdisj r)).
    rewrite (Hoth' r a Hnf Ha). split; intros Hg.
    + by rewrite decide_True.
    + rewrite decide_False; [done|]. intros [_ ?]. done.
  - intros f1 f2 a1 a2 Hf1 Hf2 Hne Ha1 Ha2 Hpos Hg.
    destruct (Hfed f1 a1 Hf1 Ha1) as [H1 _].
    destruct (Hfed f2 a2 Hf2 Ha2) as [H2 _].
    rewrite <- Hpos in H2.
    eexists _, _. split; [exact (H1 Hg)|]. split; [exact (H2 Hg)|]. done.
  - intros r Hnr Hnf.
    destruct (objects s !! r) as [a|] eqn:Ha.
    + rewrite (Hoth' r a Hnf Ha). rewrite decide_False; [done|]. intros [? _]. done.
    + pose proof (Hw' r) as Hw. unfold where_is in Hw. rewrite Ha in Hw.
      by destruct (h' !! r).
Qed.

(** Scenario B of the specification with a second fox on the same cell:
    three rabbits and two foxes at (1, 1); every rabbit dies and each fox
    has eaten 3. *)
Lemma feed_foxes_eats_whole_group_witness :
  let rabbit := Animal.mk "rabbit" 1 3 2 0 0 true 1 1 in
  let fox := Animal.mk "fox" 3 12 1 4 0 true 1 1 in
  let s := mkState [rabbit; rabbit; rabbit; fox; fox]
                   (mkField (ones 65 65) [0; 1; 2]%nat [3; 4]%nat)
                   (mkRng (λ _, 0) 0) (mkRng (λ _, 0) 0) in
  ∃ s', feed_foxes s = Ok (tt, s') ∧
    objects s' !! 0%nat = Some (Animal.set_alive false rabbit) ∧
    objects s' !! 3%nat = Some (Animal.mk "fox" 3 12 1 0 3 true 1 1) ∧
    objects s' !! 4%nat = Some (Animal.mk "fox" 3 12 1 0 3 true 1 1).
Proof.
  intros rabbit fox s.
  assert (Hnd : NoDup (foxes (self s))).
  { apply (bool_decide_unpack _). vm_compute. exact I. }
  assert (Hdisj : ∀ f, f ∈ foxes (self s) → f ∉ rabbits (self s)).
  { intros f Hf. simpl in *.
    repeat (apply elem_of_cons in Hf as [->|Hf]);
      try (apply (bool_decide_unpack _); vm_compute; exact I).
    exfalso. exact (not_elem_of_nil _ Hf). }
  assert (Hvalid : ∀ r, r ∈ rabbits (self s) ++ foxes (self s) →
            is_Some (objects s !! r)).
  { intros r Hr. simpl in Hr.
    repeat (apply elem_of_cons in Hr as [->|Hr]); try (eexists; reflexivity).
    exfalso. exact (not_elem_of_nil _ Hr). }
  destruct (feed_foxes_eats_whole_group s Hnd Hdisj Hvalid)
    as (s' & Hrun & _ & _ & _ & _ & Hfox & Hrab & _).
  exists s'. split; [exact Hrun|].
  destruct (Hrab 0%nat rabbit ltac:(left) eq_refl) as [Hdead _].
  destruct (Hfox 3%nat fox ltac:(left) eq_refl) as [Hf3 _].
  destruct (Hfox 4%nat fox ltac:(right; left) eq_refl) as [Hf4 _].
  split; [apply Hdead; vm_compute; discriminate|].
  split; [apply Hf3; vm_compute; discriminate|].
  apply Hf4. vm_compute. discriminate.
Defined.

(** * The hunger invariant across a generation *)

Lemma hunger_ok_set_x (v : Z) (a : Animal.t) : hunger_ok a → hunger_ok (Animal.set_x v a).
Proof. done. Qed.

Lemma hunger_ok_set_y (v : Z) (a : Animal.t) : hunger_ok a → hunger_ok (Animal.set_y v a).
Proof. done. Qed.

Lemma hunger_ok_set_eaten (v : Z) (a : Animal.t) :
  hunger_ok a → hunger_ok (Animal.set_eaten v a).
Proof. done. Qed.

Lemma hunger_ok_set_alive_false (a : Animal.t) :
  hunger_ok a → hunger_ok (Animal.set_alive false a).
Proof. intros [H0 _]. split; [done|]. simpl. discriminate. Qed.

Lemma hunger_ok_set_hunger_0 (a : Animal.t) :
  hunger_ok a → hunger_ok (Animal.set_hunger 0 a).
Proof. intros [H0 H1]. split; simpl; [lia|]. intros Hal. specialize (H1 Hal). lia. Qed.

Lemma hunger_ok_starved (a : Animal.t) : hunger_ok a → hunger_ok (starved a).
Proof.
  intros [H0 _]. split.
  - rewrite starved_hunger. lia.
  - rewrite starved_alive, starved_hunger.
    destruct (starved_rest a) as (_ & _ & -> & _).
    intros [_ Hlt]%andb_true_iff. by apply Z.ltb_lt.
Qed.

Lemma hunger_ok_on_alter (S : ref → Prop) (f : Animal.t → Animal.t)
    (r : ref) (h : list Animal.t) :
  (∀ a, hunger_ok a → hunger_ok (f a)) →
  hunger_ok_on S h → hunger_ok_on S (alter f r h).
Proof.
  intros Hf Hh r' a' HS Hl. rewrite list_lookup_alter in Hl.
  destruct (decide (r = r')) as [->|].
  - destruct (h !! r') as [a|] eqn:Ha; [|discriminate].
    injection Hl as <-. apply Hf. by apply (Hh r').
  - by apply (Hh r').
Qed.

Lemma keeps_ret {A : Type} (v : A) : keeps (mret v : M A).
Proof. intros S s v' s' [= <- <-] H. done. Qed.

Lemma keeps_bind {A B : Type} (m : M A) (k : A → M B) :
  keeps m → (∀ v, keeps (k v)) → keeps (m ≫= k).
Proof.
  intros Hm Hk S s v s' Hrun Hok.
  apply bind_Ok in Hrun as (v1 & s1 & H1 & H2).
  destruct (Hm S s v1 s1 H1 Hok) as (Hok1 & Hr1 & Hf1).
  destruct (Hk v1 S s1 v s' H2 Hok1) as (Hok2 & Hr2 & Hf2).
  split; [done|]. split; congruence.
Qed.

Lemma keeps_raise {A : Type} (e : Exception) : keeps (raise e : M A).
Proof. intros S s v s' [=]. Qed.

Lemma keeps_gets {A : Type} (f : State → A) : keeps (gets f).
Proof. intros S s v s' [= <- <-] H. done. Qed.

Lemma keeps_deref (r : ref) : keeps (deref r).
Proof. intros S s v s' [_ ->]%deref_Ok H. done. Qed.

Lemma keeps_update (r : ref) (f : Animal.t → Animal.t) :
  (∀ a, hunger_ok a → hunger_ok (f a)) → keeps (update r f).
Proof.
  intros Hf S s v s' Hrun Hok. unfold update in Hrun.
  apply bind_Ok in Hrun as (a & s1 & [_ ->]%deref_Ok & Hm).
  unfold modify in Hm. injection Hm as _ <-.
  split; [|done]. simpl. by apply hunger_ok_on_alter.
Qed.

Lemma keeps_for_each {A : Type} (l : list A) (body : A → M unit) :
  (∀ v, keeps (body v)) → keeps (for_each l body).
Proof.
  intros Hb. induction l as [|v l IH]; simpl.
  - apply keeps_ret.
  - apply keeps_bind; [apply Hb|]. intros _. exact IH.
Qed.

Lemma keeps_for_fold {A B : Type} (l : list A) (acc : B) (body : B → A → M B) :
  (∀ b v, keeps (body b v)) → keeps (for_fold l acc body).
Proof.
  intros Hb. revert acc. induction l as [|v l IH]; intros acc; simpl.
  - apply keeps_ret.
  - apply keeps_bind; [apply Hb|]. intros b. apply IH.
Qed.

Lemma keeps_getrandbits : keeps getrandbits.
Proof. intros S s v s' [= <- <-] H. done. Qed.

Lemma keeps_choice {A : Type} (l : list A) : keeps (choice l).
Proof.
  unfold choice. destruct l as [|c l]; [apply keeps_raise|].
  apply keeps_bind; [apply keeps_getrandbits|]. intros v.
  destruct (_ !! _); [apply keeps_ret|apply keeps_raise].
Qed.

Create HintDb keeps.

#[local] Hint Resolve keeps_ret keeps_raise keeps_gets keeps_deref
  keeps_getrandbits keeps_choice keeps_update
  hunger_ok_set_x hunger_ok_set_y hunger_ok_set_eaten
  hunger_ok_set_alive_false hunger_ok_set_hunger_0 : keeps.

(** Peel the binds of a method off, leaving one goal per call it makes. *)
Ltac keeps_binds :=
  repeat first [ solve [eauto with keeps]
               | apply keeps_bind; [|intros ?]
               | progress cbn zeta ].

Lemma keeps_move (r : ref) : keeps (move r).
Proof. unfold move. keeps_binds. Qed.

Lemma keeps_eat (r : ref) (amount : Z) : keeps (eat r amount).
Proof. unfold eat. keeps_binds. Qed.

Lemma starve_Ok (r : ref) (s s' : State) (u : unit) :
  starve r s = Ok (u, s') →
  s' = with_objects (alter starved r (objects s)) s.
Proof.
  destruct (objects s !! r) as [a|] eqn:Ha.
  - rewrite (starve_run _ _ _ Ha). by intros [= <-].
  - by rewrite (starve_dangling _ _ Ha).
Qed.

Lemma keeps_starve (r : ref) : keeps (starve r).
Proof.
  intros S s v s' ->%starve_Ok Hok. split; [|done]. simpl.
  apply hunger_ok_on_alter; [|done]. apply hunger_ok_starved.
Qed.

Lemma keeps_field_get (i j : Z) : keeps (field_get i j).
Proof.
  intros S s v s' Hrun Hok. unfold field_get in Hrun.
  destruct (getitem _ _ _); [|discriminate]. by injection Hrun as <- <-.
Qed.

Lemma keeps_field_set (i j v : Z) : keeps (field_set i j v).
Proof.
  intros S s u s' Hrun Hok. unfold field_set in Hrun.
  destruct (setitem _ _ _ _); [|discriminate]. injection Hrun as _ <-. done.
Qed.

#[local] Hint Resolve keeps_move keeps_eat keeps_starve keeps_field_get
  keeps_field_set keeps_for_each keeps_for_fold : keeps.

Lemma keeps_move_animals : keeps move_animals.
Proof. unfold move_animals. keeps_binds. Qed.

Lemma keeps_feed_rabbits_body (r : ref) : keeps (feed_rabbits_body r).
Proof.
  unfold feed_rabbits_body.
  apply keeps_bind; [auto with keeps|]. intros a.
  apply keeps_bind; [auto with keeps|]. intros c.
  destruct (decide (c = 1)); keeps_binds.
Qed.

Lemma keeps_feed_rabbits : keeps feed_rabbits.
Proof.
  unfold feed_rabbits. keeps_binds.
  apply keeps_for_each, keeps_feed_rabbits_body.
Qed.

Lemma keeps_feed_foxes_body (d : gmap (Z * Z) (list ref)) (f : ref) :
  keeps (feed_foxes_body d f).
Proof.
  unfold feed_foxes_body.
  apply keeps_bind; [auto with keeps|]. intros a. cbn zeta.
  destruct (d !! _) as [group|]; keeps_binds.
Qed.

Lemma keeps_feed_foxes : keeps feed_foxes.
Proof.
  unfold feed_foxes.
  apply keeps_bind; [auto with keeps|]. intros rs.
  apply keeps_bind.
  { apply keeps_for_fold. intros d r. unfold group_rabbit. keeps_binds. }
  intros d. keeps_binds.
  apply keeps_for_each, keeps_feed_foxes_body.
Qed.

(** remove_dead: the survivors are the listed animals whose alive flag is set. *)
Lemma alive_only_loop (l acc kept : list ref) (s s' : State) :
  for_fold l acc (λ kept r, a ← deref r;
                            mret (if Animal.alive a then kept ++ [r] else kept)) s
    = Ok (kept, s') →
  s' = s ∧
  kept = acc ++ filter (λ r, Animal.alive <$> objects s !! r = Some true) l.
Proof.
  revert acc. induction l as [|r l IH]; intros acc Hrun.
  - simpl in Hrun. injection Hrun as <- <-. by rewrite app_nil_r.
  - cbn [for_fold] in Hrun.
    apply bind_Ok in Hrun as (acc' & s1 & H1 & H2).
    apply bind_Ok in H1 as (a & s2 & [Ha ->]%deref_Ok & [= <- <-]).
    destruct (IH _ H2) as [-> ->]. split; [done|].
    rewrite filter_cons, Ha. simpl.
    destruct (Animal.alive a).
    + rewrite decide_True by done. by rewrite <- app_assoc.
    + rewrite decide_False; [done|]. discriminate.
Qed.

Lemma remove_dead_Ok (s s' : State) (u : unit) :
  remove_dead s = Ok (u, s') →
  s' = with_self
         (mkField (field (self s))
            (filter (λ r, Animal.alive <$> objects s !! r = Some true) (rabbits (self s)))
            (filter (λ r, Animal.alive <$> objects s !! r = Some true) (foxes (self s))))
         s.
Proof.
  unfold remove_dead, alive_only. intros Hrun.
  apply bind_Ok in Hrun as (rs & s1 & [= <- <-] & Hrun).
  apply bind_Ok in Hrun as (rs' & s2 & [-> ->]%alive_only_loop & Hrun).
  apply bind_Ok in Hrun as ([] & s3 & [= <-] & Hrun).
  apply bind_Ok in Hrun as (fs & s4 & [= <- <-] & Hrun).
  apply bind_Ok in Hrun as (fs' & s5 & [-> ->]%alive_only_loop & Hrun).
  unfold modify in Hrun. injection Hrun as _ <-. reflexivity.
Qed.

(** reproduce, when it returns: the parent exists, its max_offspring is
    not negative, and the state is the one [reproduce_run] describes. *)
Lemma reproduce_Ok (r : ref) (s s' : State) (born : list ref) :
  reproduce r s = Ok (born, s') →
  ∃ (a : Animal.t) (n : nat),
    objects s !! r = Some a ∧
    born = seq (length (objects s)) n ∧
    objects s' = alter (Animal.set_eaten 0) r (objects s)
                   ++ replicate n (Animal.set_eaten 0 a) ∧
    self s' = self s.
Proof.
  intros Hrun.
  destruct (objects s !! r) as [a|] eqn:Ha.
  - destruct (decide (0 ≤ Animal.max_offspring a)) as [Hmax|Hneg].
    + rewrite (reproduce_run _ _ _ Ha Hmax) in Hrun. cbn zeta in Hrun.
      injection Hrun as <- <-. eexists a, _. done.
    + rewrite (reproduce_negative _ _ _ Ha) in Hrun by lia. discriminate.
  - unfold reproduce in Hrun.
    rewrite bind_run, (update_dangling _ _ _ Ha) in Hrun. discriminate.
Qed.

Lemma reproduce_hunger_ok (S : ref → Prop) (r : ref) (s s' : State) (born : list ref) :
  reproduce r s = Ok (born, s') →
  S r →
  hunger_ok_on S (objects s) →
  hunger_ok_on (λ c, S c ∨ c ∈ born) (objects s') ∧ self s' = self s.
Proof.
  intros (a & n & Ha & -> & Hobj & Hself)%reproduce_Ok HSr Hok.
  split; [|done]. rewrite Hobj. intros c b HSc Hb.
  assert (Hlen : length (alter (Animal.set_eaten 0) r (objects s)) = length (objects s))
    by apply length_alter.
  destruct (decide (c < length (objects s))%nat) as [Hlt|Hge].
  - rewrite lookup_app_l in Hb by lia.
    destruct HSc as [HSc|Hin]; [|apply elem_of_seq in Hin; lia].
    exact (hunger_ok_on_alter S _ r _ (λ a, hunger_ok_set_eaten 0 a) Hok c b HSc Hb).
  - rewrite lookup_app_r in Hb by lia.
    apply lookup_replicate_1 in Hb as [-> _].
    apply hunger_ok_set_eaten. by apply (Hok r).
Qed.

Lemma collect_born_hunger_ok (S : ref → Prop) (l acc born : list ref) (s s' : State) :
  for_fold l acc (λ born r, b ← can_reproduce r;
                    if (b : bool) then cs ← reproduce r; mret (born ++ cs)
                    else mret born) s = Ok (born, s') →
  (∀ r, r ∈ l → S r) →
  hunger_ok_on (λ c, S c ∨ c ∈ acc) (objects s) →
  hunger_ok_on (λ c, S c ∨ c ∈ born) (objects s') ∧ self s' = self s.
Proof.
  revert acc s. induction l as [|r l IH]; intros acc s Hrun HS Hok.
  - simpl in Hrun. by injection Hrun as <- <-.
  - cbn [for_fold] in Hrun.
    apply bind_Ok in Hrun as (acc' & s1 & H1 & H2).
    apply bind_Ok in H1 as (b & s2 & Hcan & H1).
    unfold can_reproduce in Hcan.
    apply bind_Ok in Hcan as (a & s3 & [Ha ->]%deref_Ok & [= <- <-]).
    destruct (Animal.reproduction_level a <=? Animal.eaten a).
    + apply bind_Ok in H1 as (cs & s4 & Hrep & [= <- <-]).
      destruct (reproduce_hunger_ok (λ c, S c ∨ c ∈ acc) r s s4 cs Hrep)
        as [Hok4 Hself4]; [left; apply HS; left | exact Hok |].
      destruct (IH (acc ++ cs) s4 H2) as [Hok' Hself'].
      * intros r' Hr'. apply HS. by right.
      * intros c b HSc. apply Hok4. rewrite elem_of_app in HSc. tauto.
      * split; [done|congruence].
    + injection H1 as <- <-.
      apply (IH acc s H2); [|done]. intros r' Hr'. apply HS. by right.
Qed.

Lemma grow_grass_objects (s s' : State) (u : unit) :
  grow_grass s = Ok (u, s') → objects s' = objects s.
Proof.
  unfold grow_grass. generalize (Z.to_nat ARRSIZE). intros n.
  rewrite bind_run, rand_run.
  cbn zeta. unfold gets. rewrite bind_run. cbn beta iota.
  unfold maximum. destruct (bool_decide _); [|discriminate].
  rewrite bind_run, ret_run. unfold modify. intros [= _ <-]. done.
Qed.

Lemma reproduce_animals_hunger_ok (s s' : State) :
  reproduce_animals s = Ok (tt, s') →
  hunger_ok_on (λ r, r ∈ population s) (objects s) →
  hunger_ok_on (λ r, r ∈ population s') (objects s').
Proof.
  unfold reproduce_animals, collect_born. intros Hrun Hok.
  apply bind_Ok in Hrun as (rs & s1 & [= <- <-] & Hrun).
  apply bind_Ok in Hrun as (born_r & s2 & Hr & Hrun).
  apply bind_Ok in Hrun as (fs & s3 & [= <- <-] & Hrun).
  apply bind_Ok in Hrun as (born_f & s4 & Hf & Hrun).
  apply bind_Ok in Hrun as ([] & s5 & [= <-] & Hrun).
  unfold modify in Hrun. injection Hrun as <-.
  destruct (collect_born_hunger_ok (λ r, r ∈ population s) _ [] _ _ _ Hr)
    as [Hok2 Hself2].
  { intros r Hin. unfold population. apply elem_of_app. by left. }
  { intros c b [HS|Hin]; [by apply Hok|by apply elem_of_nil in Hin]. }
  destruct (collect_born_hunger_ok (λ r, r ∈ population s ∨ r ∈ born_r) _ [] _ _ _ Hf)
    as [Hok4 Hself4].
  { intros r Hin. left. unfold population. apply elem_of_app. right. by rewrite <- Hself2. }
  { intros c b [HS|Hin]; [by apply Hok2|by apply elem_of_nil in Hin]. }
  intros r a Hin Ha. simpl in Ha. apply (Hok4 r a); [|done].
  unfold population in Hin. simpl in Hin. rewrite Hself4, Hself2 in Hin.
  rewrite !elem_of_app in Hin. unfold population. rewrite elem_of_app. tauto.
Qed.

Lemma generation_hunger_ok (s s' : State) :
  generation s = Ok (tt, s') →
  hunger_ok_on (λ r, r ∈ population s) (objects s) →
  hunger_ok_on (λ r, r ∈ population s') (objects s').
Proof.
  intros Hrun Hok.
  apply generation_Ok in Hrun
    as (s1 & s2 & s3 & s4 & s5 & H1 & H2 & H3 & H4 & H5 & H6).
  destruct (keeps_move_animals _ _ _ _ H1 Hok) as (Hok1 & Hr1 & Hf1).
  destruct (keeps_feed_rabbits _ _ _ _ H2 Hok1) as (Hok2 & Hr2 & Hf2).
  destruct (keeps_feed_foxes _ _ _ _ H3 Hok2) as (Hok3 & Hr3 & Hf3).
  apply remove_dead_Ok in H4.
  assert (Hok4 : hunger_ok_on (λ r, r ∈ population s4) (objects s4)).
  { intros r a Hin Ha. rewrite H4 in Hin, Ha. simpl in Ha.
    apply (Hok3 r a); [|done].
    unfold population in *. simpl in Hin.
    rewrite elem_of_app, !list_elem_of_filter in Hin.
    rewrite elem_of_app. rewrite Hr3, Hr2, Hr1, Hf3, Hf2, Hf1 in Hin. tauto. }
  pose proof (reproduce_animals_hunger_ok _ _ H5 Hok4) as Hok5.
  pose proof (grow_grass_objects _ _ _ H6) as Hobj.
  destruct (grow_grass_frame _ _ H6) as [Hr6 Hf6].
  intros r a Hin Ha. rewrite Hobj in Ha. apply (Hok5 r a); [|done].
  unfold population in *. by rewrite <- Hr6, <- Hf6.
Qed.

(** C5. If every listed animal has a non-negative hunger count and every
    listed animal that is alive has hunger below its starvation level when
    generation() starts, then the same holds of every animal listed when
    generation() returns, the offspring appended by reproduce_animals
    included. *)
Theorem generation_keeps_hunger_invariant (s s' : State) :
  (∀ r a, r ∈ population s → objects s !! r = Some a → 0 ≤ Animal.hunger a) →
  (∀ r a, r ∈ population s → objects s !! r = Some a →
     Animal.alive a = true → Animal.hunger a < Animal.starvation_level a) →
  generation s = Ok (tt, s') →
  (∀ r a, r ∈ population s' → objects s' !! r = Some a →
     Animal.alive a = true → Animal.hunger a < Animal.starvation_level a) ∧
  (∀ r a, r ∈ population s' → objects s' !! r = Some a → 0 ≤ Animal.hunger a).
Proof.
  intros Hcount Hinv Hrun.
  assert (Hok : hunger_ok_on (λ r, r ∈ population s) (objects s)).
  { intros r a Hin Ha. split; [by apply (Hcount r)|by apply (Hinv r)]. }
  pose proof (generation_hunger_ok s s' Hrun Hok) as Hok'.
  split.
  - intros r a Hin Ha. by apply (Hok' r a).
  - intros r a Hin Ha. by apply (Hok' r a).
Qed.

(** Two rabbits and a fox of main() on a field without grass; the first
    rabbit is one hungry generation from starving. *)
Lemma generation_keeps_hunger_invariant_witness :
  let s := mkState [Animal.mk "rabbit" 1 3 2 2 0 true 10 10;
                    Animal.mk "rabbit" 1 3 2 0 1 true 20 30;
                    Animal.mk "fox" 3 12 1 5 0 true 20 31]
                   (mkField (replicate 65 (replicate 65 0)) [0; 1]%nat [2%nat])
                   (mkRng (λ n, Z.of_nat n) 0) (mkRng (λ n, Z.of_nat n * 2 ^ 45) 0) in
  ∃ s', generation s = Ok (tt, s') ∧
    ∀ r a, r ∈ population s' → objects s' !! r = Some a →
      Animal.alive a = true → Animal.hunger a < Animal.starvation_level a.
Proof.
  intros s.
  assert (Hret : match generation s with Ok _ => true | Raise _ => false end = true)
    by (vm_compute; reflexivity).
  destruct (generation s) as [[[] s']|e] eqn:Hrun; [|discriminate].
  exists s'. split; [reflexivity|].
  refine (proj1 (generation_keeps_hunger_invariant s s' _ _ Hrun)).
  - intros r a Hin Ha. unfold population in Hin. cbn [self rabbits foxes s app] in Hin.
    repeat (apply elem_of_cons in Hin as [->|Hin]);
      try (injection Ha as <-; simpl; lia).
    exfalso. exact (not_elem_of_nil _ Hin).
  - intros r a Hin Ha _. unfold population in Hin. cbn [self rabbits foxes s app] in Hin.
    repeat (apply elem_of_cons in Hin as [->|Hin]);
      try (injection Ha as <-; simpl; lia).
    exfalso. exact (not_elem_of_nil _ Hin).
Defined.

(** * generation() returns *)

Lemma for_each_runs {A : Type} (J : State → Prop) (l : list A) (body : A → M unit) :
  (∀ v s, v ∈ l → J s → ∃ s', body v s = Ok (tt, s') ∧ J s') →
  ∀ s, J s → ∃ s', for_each l body s = Ok (tt, s') ∧ J s'.
Proof.
  induction l as [|v l IH]; intros Hbody s HJ.
  - exists s. done.
  - destruct (Hbody v s ltac:(left) HJ) as (s1 & H1 & HJ1).
    destruct (IH (λ v' s' Hin, Hbody v' s' ltac:(by right)) s1 HJ1) as (s' & H' & HJ').
    exists s'. split; [|done]. cbn [for_each]. by rewrite bind_run, H1.
Qed.

Lemma fertile_alter (f : Animal.t → Animal.t) (h : list Animal.t) (r r' : ref) :
  (∀ a, Animal.max_offspring (f a) = Animal.max_offspring a) →
  fertile h r' → fertile (alter f r h) r'.
Proof.
  intros Hf (a & Ha & Hmax). unfold fertile. rewrite list_lookup_alter.
  destruct (decide (r = r')) as [->|]; [|eauto].
  rewrite Ha. simpl. eexists. split; [done|]. by rewrite Hf.
Qed.

Lemma max_offspring_starved (a : Animal.t) :
  Animal.max_offspring (starved a) = Animal.max_offspring a.
Proof. by destruct (starved_rest a) as (_ & -> & _). Qed.

Lemma placed_alter (f : Animal.t → Animal.t) (h : list Animal.t) (r r' : ref) :
  (∀ a, position (f a) = position a) →
  placed h r' → placed (alter f r h) r'.
Proof. intros Hf (p & Hp & Hin). exists p. by rewrite where_is_alter. Qed.

(** move(): both coordinates change by a drawn step in {-1, 0, 1} and wrap
    modulo ARRSIZE; nothing else changes. *)
Lemma move_run (r : ref) (s : State) (a : Animal.t) :
  objects s !! r = Some a →
  ∃ dx dy : Z, -1 ≤ dx ≤ 1 ∧ -1 ≤ dy ≤ 1 ∧
    move r s =
    Ok (tt, mkState
              (alter (λ a, Animal.set_y ((Animal.y a + dy) mod ARRSIZE)
                             (Animal.set_x ((Animal.x a + dx) mod ARRSIZE) a))
                     r (objects s))
              (self s) (mkRng (tape (rnd s)) (S (S (cursor (rnd s))))) (np_random s)).
Proof.
  intros Ha. unfold move.
  rewrite bind_run, (deref_run _ _ _ Ha).
  destruct (choice3_run s) as (dx & Hdx & Hc1). rewrite bind_run, Hc1.
  set (s1 := with_rnd _ s).
  assert (Ha1 : objects s1 !! r = Some a) by done.
  rewrite bind_run, (update_run _ _ _ _ Ha1).
  set (s2 := with_objects _ s1).
  assert (Ha2 : objects s2 !! r = Some (Animal.set_x ((Animal.x a + dx) mod ARRSIZE) a)).
  { unfold s2. simpl. by rewrite list_lookup_alter_eq, Ha. }
  rewrite bind_run, (deref_run _ _ _ Ha2).
  destruct (choice3_run s2) as (dy & Hdy & Hc2). rewrite bind_run, Hc2.
  exists dx, dy. split; [done|]. split; [done|].
  erewrite update_run by (simpl; exact Ha2).
  unfold with_objects. simpl. rewrite list_alter_alter_eq. do 3 f_equal.
  apply list_alter_ext; [|done]. intros b Hb.
  rewrite Ha in Hb. injection Hb as <-. reflexivity.
Qed.

Lemma move_runs (L : list ref) (r : ref) (s : State) :
  sound L s → r ∈ L →
  ∃ s', move r s = Ok (tt, s') ∧ sound L s' ∧ self s' = self s ∧
    placed (objects s') r ∧
    (∀ r', placed (objects s) r' → placed (objects s') r').
Proof.
  intros [Hshape Hfert] Hin. destruct (Hfert r Hin) as (a & Ha & Hmax).
  destruct (move_run r s a Ha) as (dx & dy & Hdx & Hdy & Hrun).
  eexists. split; [exact Hrun|]. cbn [objects self].
  split; [|split; [done|split]].
  - split; [done|]. intros r' Hr'. apply fertile_alter; [done|]. by apply Hfert.
  - eexists. split.
    + unfold where_is. rewrite list_lookup_alter_eq, Ha. reflexivity.
    + split; simpl; apply Z.mod_pos_bound; unfold ARRSIZE; lia.
  - intros r' (p & Hp & Hpin). unfold placed, where_is in *.
    rewrite list_lookup_alter. destruct (decide (r = r')) as [<-|]; [|eauto].
    rewrite Ha. simpl. eexists. split; [reflexivity|].
    split; simpl; apply Z.mod_pos_bound; unfold ARRSIZE; lia.
Qed.

Lemma move_animals_runs (s : State) :
  sound (population s) s →
  ∃ s', move_animals s = Ok (tt, s') ∧ sound (population s) s' ∧
    self s' = self s ∧ ∀ r, r ∈ population s → placed (objects s') r.
Proof.
  intros Hsound. unfold move_animals, gets. rewrite !bind_run.
  change (rabbits (self s) ++ foxes (self s)) with (population s).
  set (L := population s) in *.
  assert (Hloop : ∀ l s0, (∀ r, r ∈ l → r ∈ L) → sound L s0 →
            ∃ s', for_each l move s0 = Ok (tt, s') ∧ sound L s' ∧ self s' = self s0 ∧
              (∀ r, placed (objects s0) r → placed (objects s') r) ∧
              (∀ r, r ∈ l → placed (objects s') r)).
  { induction l as [|r l IH]; intros s0 Hsub Hs0.
    - exists s0. split; [done|]. split; [done|]. split; [done|]. split; [done|].
      intros r Hr. exfalso. exact (not_elem_of_nil _ Hr).
    - destruct (move_runs L r s0 Hs0 (Hsub r ltac:(left)))
        as (s1 & H1 & Hs1 & Hself1 & Hpr & Hstab1).
      destruct (IH s1 (λ r' Hr', Hsub r' ltac:(by right)) Hs1)
        as (s' & H' & Hs' & Hself' & Hstab' & Hall').
      exists s'. split; [cbn [for_each]; by rewrite bind_run, H1|].
      split; [done|]. split; [congruence|]. split; [auto|].
      intros r' [->|Hr']%elem_of_cons; auto. }
  destruct (Hloop L s (λ r Hr, Hr) Hsound) as (s' & H' & Hs' & Hself' & _ & Hall').
  exists s'. done.
Qed.

Lemma feed_rabbits_runs (L : list ref) (s : State) :
  sound L s →
  (∀ r, r ∈ rabbits (self s) → r ∈ L ∧ placed (objects s) r) →
  ∃ s', feed_rabbits s = Ok (tt, s') ∧ sound L s' ∧
    rabbits (self s') = rabbits (self s) ∧ foxes (self s') = foxes (self s).
Proof.
  intros Hsound Hrs. unfold feed_rabbits, gets. rewrite bind_run.
  set (rs := rabbits (self s)) in *. set (fs := foxes (self s)).
  destruct (for_each_runs
    (λ s0, sound L s0 ∧ (∀ r, r ∈ rs → placed (objects s0) r) ∧
           rabbits (self s0) = rs ∧ foxes (self s0) = fs)
    rs feed_rabbits_body) with (s := s) as (s' & Hrun & Hs' & _ & Hr' & Hf').
  - intros r s0 Hr ([Hshape Hfert] & Hpl & Hr0 & Hf0).
    destruct (Hfert r (proj1 (Hrs r Hr))) as (a & Ha & Hmax).
    destruct (Hpl r Hr) as (p & Hp & Hin).
    assert (Hpa : p = (Animal.x a, Animal.y a)).
    { apply where_is_Some in Hp as (a' & Ha' & <-).
      rewrite Ha in Ha'. by injection Ha' as <-. }
    destruct (getitem_in_field _ Hshape p Hin) as [c Hc].
    rewrite Hpa in Hc. simpl in Hc.
    destruct (decide (c = 1)) as [->|Hne].
    + destruct (setitem_in_field _ Hshape p 0 Hin) as (g1 & Hset & Hshape1 & _).
      rewrite Hpa in Hset. simpl in Hset.
      eexists. split; [apply (feed_rabbits_body_grass _ _ a); eassumption|].
      cbn [objects self field rabbits foxes with_self with_field with_objects].
      split; [|split; [|done]].
      * split; [done|]. intros r' Hr'. apply fertile_alter; [done|]. by apply Hfert.
      * intros r' Hr'. apply placed_alter; [done|]. by apply Hpl.
    + eexists. split; [apply (feed_rabbits_body_bare _ _ a c); eassumption|].
      cbn [objects self field rabbits foxes with_self with_field with_objects].
      split; [|split; [|done]].
      * split; [done|]. intros r' Hr'.
        apply fertile_alter; [apply max_offspring_starved|]. by apply Hfert.
      * intros r' Hr'. apply placed_alter; [apply position_starved|]. by apply Hpl.
  - split; [done|]. split; [|done]. intros r Hr. by apply Hrs.
  - exists s'. done.
Qed.

Lemma fertile_valid (h : list Animal.t) (r : ref) : fertile h r → is_Some (h !! r).
Proof. intros (a & Ha & _). eauto. Qed.

Lemma feed_foxes_runs (L : list ref) (s : State) :
  sound L s →
  (∀ r, r ∈ population s → r ∈ L) →
  ∃ s', feed_foxes s = Ok (tt, s') ∧ sound L s' ∧ self s' = self s.
Proof.
  intros Hsound Hsub.
  assert (Hvr : ∀ r, r ∈ rabbits (self s) → is_Some (objects s !! r)).
  { intros r Hr. apply fertile_valid, Hsound, Hsub, elem_of_app. by left. }
  destruct (group_rabbits_run (rabbits (self s)) ∅ s Hvr) as (d & Hgroup & Hd).
  assert (HdL : ∀ p G r, d !! p = Some G → r ∈ G → r ∈ L).
  { intros p G r HG Hr. rewrite Hd, lookup_empty in HG.
    destruct (decide _); [discriminate|]. injection HG as <-. simpl in Hr.
    apply group_at_elem in Hr as [Hr _]. apply Hsub, elem_of_app. by left. }
  unfold feed_foxes, gets. rewrite bind_run, bind_run, Hgroup, bind_run.
  destruct (for_each_runs (λ s0, sound L s0 ∧ self s0 = self s)
              (foxes (self s)) (feed_foxes_body d)) with (s := s)
    as (s' & Hrun & Hs' & Hself'); [|done|by exists s'].
  intros f s0 Hf [[Hshape Hfert] Hself0].
  assert (HfL : f ∈ L) by (apply Hsub, elem_of_app; by right).
  destruct (Hfert f HfL) as (a & Ha & Hmax).
  unfold feed_foxes_body. rewrite bind_run, (deref_run _ _ _ Ha). cbn zeta.
  destruct (d !! (Animal.x a, Animal.y a)) as [G|] eqn:HG.
  - destruct (kill_loop G s0) as (h1 & Hkill & Hh1).
    { intros r Hr. apply fertile_valid, Hfert. by eapply HdL. }
    assert (Hfert1 : ∀ r, fertile (objects s0) r → fertile h1 r).
    { intros r (b & Hb & Hbm). unfold fertile. rewrite Hh1, Hb.
      destruct (decide (r ∈ G)); simpl; eauto. }
    destruct (Hfert1 f (Hfert f HfL)) as (a1 & Ha1 & _).
    eexists. split.
    { rewrite bind_run, Hkill. apply (eat_run _ _ _ a1). exact Ha1. }
    cbn [objects self with_objects]. split; [|done]. split; [done|].
    intros r Hr. apply fertile_alter; [done|]. by apply Hfert1, Hfert.
  - eexists. split; [apply (starve_run _ _ _ Ha)|].
    cbn [objects self with_objects]. split; [|done]. split; [done|].
    intros r Hr. apply fertile_alter; [apply max_offspring_starved|]. by apply Hfert.
Qed.

Lemma alive_only_run (l acc : list ref) (s : State) :
  (∀ r, r ∈ l → is_Some (objects s !! r)) →
  for_fold l acc (λ kept r, a ← deref r;
                            mret (if Animal.alive a then kept ++ [r] else kept)) s
  = Ok (acc ++ filter (λ r, Animal.alive <$> objects s !! r = Some true) l, s).
Proof.
  revert acc. induction l as [|r l IH]; intros acc Hvalid.
  - simpl. by rewrite ret_run, app_nil_r.
  - destruct (Hvalid r ltac:(left)) as [a Ha].
    cbn [for_fold]. rewrite bind_run, bind_run, (deref_run _ _ _ Ha), ret_run.
    rewrite IH by (intros r' Hr'; apply Hvalid; by right).
    rewrite filter_cons, Ha. simpl. destruct (Animal.alive a).
    + rewrite decide_True by done. by rewrite <- app_assoc.
    + rewrite decide_False; [done|]. discriminate.
Qed.

Lemma remove_dead_run (s : State) :
  (∀ r, r ∈ population s → is_Some (objects s !! r)) →
  remove_dead s =
  Ok (tt, with_self
            (mkField (field (self s))
               (filter (λ r, Animal.alive <$> objects s !! r = Some true) (rabbits (self s)))
               (filter (λ r, Animal.alive <$> objects s !! r = Some true) (foxes (self s))))
            s).
Proof.
  intros Hvalid. unfold remove_dead, alive_only, gets, modify.
  rewrite bind_run, bind_run.
  rewrite alive_only_run by (intros r Hr; apply Hvalid, elem_of_app; by left).
  rewrite bind_run, bind_run, bind_run. cbn [objects self foxes with_self with_rabbits].
  rewrite alive_only_run by (intros r Hr; apply Hvalid, elem_of_app; by right).
  reflexivity.
Qed.

Lemma reproduce_fertile (r : ref) (s : State) (a : Animal.t) :
  objects s !! r = Some a →
  0 ≤ Animal.max_offspring a →
  ∃ born s', reproduce r s = Ok (born, s') ∧ self s' = self s ∧
    (∀ r', fertile (objects s) r' → fertile (objects s') r') ∧
    (∀ c, c ∈ born → fertile (objects s') c).
Proof.
  intros Ha Hmax. eexists _, _. split; [apply (reproduce_run r s a Ha Hmax)|].
  cbn zeta. cbn [objects self]. split; [done|].
  assert (Hlen : length (alter (Animal.set_eaten 0) r (objects s)) = length (objects s))
    by apply length_alter.
  split.
  - intros r' Hr'. pose proof (fertile_valid _ _ Hr') as Hv.
    apply lookup_lt_is_Some in Hv.
    apply (fertile_alter (Animal.set_eaten 0) _ r) in Hr'; [|done].
    destruct Hr' as (b & Hb & Hbm). exists b. split; [|done].
    rewrite lookup_app_l by lia. done.
  - intros c Hc%elem_of_seq. exists (Animal.set_eaten 0 a). split; [|done].
    rewrite lookup_app_r by lia. apply lookup_replicate_2. lia.
Qed.

Lemma collect_born_runs (l acc : list ref) (s : State) :
  (∀ r, r ∈ l → fertile (objects s) r) →
  (∀ c, c ∈ acc → fertile (objects s) c) →
  ∃ born s',
    for_fold l acc (λ born r, b ← can_reproduce r;
                      if (b : bool) then cs ← reproduce r; mret (born ++ cs)
                      else mret born) s = Ok (born, s') ∧
    self s' = self s ∧
    (∀ r, fertile (objects s) r → fertile (objects s') r) ∧
    (∀ c, c ∈ born → fertile (objects s') c).
Proof.
  revert acc s. induction l as [|r l IH]; intros acc s Hl Hacc.
  - exists acc, s. done.
  - destruct (Hl r ltac:(left)) as (a & Ha & Hmax).
    cbn [for_fold]. rewrite bind_run, bind_run. unfold can_reproduce at 1.
    rewrite bind_run, (deref_run _ _ _ Ha), ret_run.
    destruct (Animal.reproduction_level a <=? Animal.eaten a).
    + destruct (reproduce_fertile r s a Ha Hmax) as (cs & s1 & Hrep & Hself1 & Hold1 & Hnew1).
      rewrite bind_run, Hrep, ret_run.
      destruct (IH (acc ++ cs) s1) as (born & s' & Hrun & Hself' & Hold' & Hnew').
      * intros r' Hr'. apply Hold1, Hl. by right.
      * intros c [Hc|Hc]%elem_of_app; auto.
      * exists born, s'. split; [done|]. split; [congruence|]. split; auto.
    + rewrite ret_run.
      destruct (IH acc s) as (born & s' & Hrun & Hself' & Hold' & Hnew'); [|done|].
      * intros r' Hr'. apply Hl. by right.
      * exists born, s'. done.
Qed.

Lemma reproduce_animals_runs (s : State) :
  sound (population s) s →
  ∃ s', reproduce_animals s = Ok (tt, s') ∧ sound (population s') s'.
Proof.
  intros [Hshape Hfert]. unfold reproduce_animals, collect_born, gets, modify.
  rewrite bind_run.
  destruct (collect_born_runs (rabbits (self s)) [] s)
    as (born_r & s1 & Hr & Hself1 & Hold1 & Hnew1).
  { intros r Hr. apply Hfert, elem_of_app. by left. }
  { intros c Hc. exfalso. exact (not_elem_of_nil _ Hc). }
  rewrite bind_run, Hr, bind_run.
  destruct (collect_born_runs (foxes (self s1)) [] s1)
    as (born_f & s2 & Hf & Hself2 & Hold2 & Hnew2).
  { intros r Hr'. apply Hold1, Hfert, elem_of_app. right. by rewrite <- Hself1. }
  { intros c Hc. exfalso. exact (not_elem_of_nil _ Hc). }
  rewrite bind_run, Hf, bind_run.
  eexists. split; [reflexivity|].
  unfold sound, population.
  cbn [objects self field rabbits foxes with_self with_rabbits with_foxes].
  rewrite Hself2, Hself1. split; [done|].
  intros r Hr'. rewrite !elem_of_app in Hr'.
  destruct Hr' as [[Hr'|Hr']|[Hr'|Hr']].
  - apply Hold2, Hold1, Hfert, elem_of_app. by left.
  - by apply Hold2, Hnew1.
  - apply Hold2, Hold1, Hfert, elem_of_app. by right.
  - by apply Hnew2.
Qed.

(** From a sound state generation() returns, and the state it returns is
    sound again, offspring included. *)
Lemma generation_runs (s : State) :
  sound (population s) s →
  ∃ s', generation s = Ok (tt, s') ∧ sound (population s') s'.
Proof.
  intros Hsound.
  destruct (move_animals_runs s Hsound) as (s1 & H1 & Hs1 & Hself1 & Hpl1).
  destruct (feed_rabbits_runs (population s) s1 Hs1) as (s2 & H2 & Hs2 & Hr2 & Hf2).
  { intros r Hr. rewrite Hself1 in Hr.
    assert (r ∈ population s) by (apply elem_of_app; by left). auto. }
  assert (Hpop2 : population s2 = population s).
  { unfold population. by rewrite Hr2, Hf2, Hself1. }
  destruct (feed_foxes_runs (population s) s2 Hs2) as (s3 & H3 & Hs3 & Hself3).
  { intros r. by rewrite Hpop2. }
  assert (Hpop3 : population s3 = population s).
  { unfold population. rewrite Hself3. exact Hpop2. }
  pose proof (remove_dead_run s3) as H4.
  rewrite Hpop3 in H4. specialize (H4 (λ r Hr, fertile_valid _ _ (proj2 Hs3 r Hr))).
  set (s4 := with_self _ s3) in H4.
  assert (Hs4 : sound (population s4) s4).
  { destruct Hs3 as [Hshape3 Hfert3]. split; [done|].
    intros r Hr. apply Hfert3. rewrite <- Hpop3.
    unfold population, s4 in Hr. simpl in Hr.
    rewrite elem_of_app, !list_elem_of_filter in Hr.
    unfold population. rewrite elem_of_app. tauto. }
  destruct (reproduce_animals_runs s4 Hs4) as (s5 & H5 & Hs5).
  pose proof (grow_grass_run s5 (proj1 Hs5)) as H6.
  eexists. split.
  - unfold generation.
    rewrite bind_run, H1, bind_run, H2, bind_run, H3, bind_run, H4, bind_run, H5.
    exact H6.
  - split; [apply regrown_shape, Hs5|]. apply Hs5.
Qed.

(** * The whole run: main()'s set-up followed by any number of generations *)

Lemma spawn_run (species : string) (mo sl rl : Z) (s : State) :
  species = "rabbit"%string ∨ species = "fox"%string →
  ∃ a, Animal.species a = species ∧ Animal.max_offspring a = mo ∧
    Animal.starvation_level a = sl ∧ Animal.hunger a = 0 ∧
    (r ← Animal_init species mo sl rl; add_animal r) s =
    Ok (tt, mkState (objects s ++ [a])
              (if decide (species = "rabbit"%string)
               then with_rabbits (rabbits (self s) ++ [length (objects s)]) (self s)
               else with_foxes (foxes (self s) ++ [length (objects s)]) (self s))
              (mkRng (tape (rnd s)) (S (S (cursor (rnd s))))) (np_random s)).
Proof.
  intros Hsp. eexists. split; [|split; [|split; [|split]]]; cycle 4.
  - rewrite bind_run, Animal_init_run.
    set (a := Animal.mk _ _ _ _ _ _ _ _ _). set (s1 := mkState _ _ _ _).
    assert (Ha : objects s1 !! length (objects s) = Some a).
    { unfold s1. simpl. by rewrite list_lookup_middle. }
    destruct (decide (species = "rabbit"%string)) as [Hr|Hr].
    + by rewrite (add_animal_rabbit _ _ _ Ha Hr).
    + destruct Hsp as [?|Hf]; [done|]. by rewrite (add_animal_fox _ _ _ Ha Hf).
  - done.
  - done.
  - done.
  - done.
Qed.

Lemma spawn_loop (species : string) (mo sl rl : Z) (n k : nat) (s : State) :
  species = "rabbit"%string ∨ species = "fox"%string →
  0 ≤ mo → 0 < sl →
  sound (population s) s →
  hunger_ok_on (λ r, r ∈ population s) (objects s) →
  ∃ s', for_each (seq k n) (λ _, r ← Animal_init species mo sl rl; add_animal r) s
          = Ok (tt, s') ∧
    sound (population s') s' ∧
    hunger_ok_on (λ r, r ∈ population s') (objects s') ∧
    length (rabbits (self s')) =
      ((if decide (species = "rabbit"%string) then n else 0) + length (rabbits (self s)))%nat ∧
    length (foxes (self s')) =
      ((if decide (species = "rabbit"%string) then 0 else n) + length (foxes (self s)))%nat.
Proof.
  intros Hsp Hmo Hsl. revert k s. induction n as [|n IH]; intros k s Hsound Hok.
  - exists s. split; [done|]. split; [done|]. split; [done|].
    by destruct (decide _).
  - destruct (spawn_run species mo sl rl s Hsp) as (a & Ha1 & Ha2 & Ha3 & Ha4 & Hrun).
    set (s1 := mkState _ _ _ _) in Hrun.
    assert (Hpop : ∀ r, r ∈ population s1 → r ∈ population s ∨ r = length (objects s)).
    { intros r. unfold population, s1. simpl.
      destruct (decide (species = "rabbit"%string)); simpl;
        rewrite !elem_of_app, ?list_elem_of_singleton; tauto. }
    assert (Hold : ∀ r b, r ∈ population s1 → objects s1 !! r = Some b →
              (r ∈ population s ∧ objects s !! r = Some b) ∨ b = a).
    { intros r b Hr Hb. unfold s1 in Hb. simpl in Hb.
      destruct (Hpop r Hr) as [Hin| ->].
      - left. split; [done|].
        destruct (proj2 Hsound r Hin) as (b' & Hb' & _).
        rewrite lookup_app_l in Hb by (by eapply lookup_lt_Some). done.
      - right. rewrite list_lookup_middle in Hb by done. by injection Hb. }
    destruct (IH (S k) s1) as (s' & Hloop & Hs' & Hok' & Hlr & Hlf).
    + split.
      { destruct Hsound as [Hshape _]. unfold s1. simpl.
        by destruct (decide (species = "rabbit"%string)). }
      intros r Hr. destruct (Hpop r Hr) as [Hin| ->].
      * destruct (proj2 Hsound r Hin) as (b & Hb & Hbm). exists b. split; [|done].
        unfold s1. simpl. rewrite lookup_app_l by (by eapply lookup_lt_Some). done.
      * exists a. split; [|lia]. unfold s1. simpl. by rewrite list_lookup_middle.
    + intros r b Hr Hb. destruct (Hold r b Hr Hb) as [[Hin Hb']| ->].
      * by apply (Hok r).
      * split; [lia|]. intros _. lia.
    + exists s'. split; [cbn [seq for_each]; by rewrite bind_run, Hrun|].
      split; [done|]. split; [done|].
      rewrite Hlr, Hlf. unfold s1. simpl.
      destruct (decide (species = "rabbit"%string)); simpl;
        rewrite ?length_app; simpl; lia.
Qed.

Lemma times_runs (J : State → Prop) (m : M unit) :
  (∀ s, J s → ∃ s', m s = Ok (tt, s') ∧ J s') →
  ∀ (n : nat) (s : State), J s → ∃ s', times n m s = Ok (tt, s') ∧ J s'.
Proof.
  intros Hm. induction n as [|n IH]; intros s HJ.
  - exists s. done.
  - destruct (Hm s HJ) as (s1 & H1 & HJ1). destruct (IH s1 HJ1) as (s' & H' & HJ').
    exists s'. split; [|done]. cbn [times]. by rewrite bind_run, H1.
Qed.

(** The simulation of main(): whatever the random draws and however many
    generations are run, nothing raises; the field then lists only
    existing animals whose hunger is a count and, when alive, below their
    starvation level.  After the set-up alone there are INIT_RABBITS
    rabbits and INIT_FOXES foxes. *)
Lemma simulation_runs (n : nat) (s : State) :
  (∃ s0, main_setup s = Ok (tt, s0) ∧
     length (rabbits (self s0)) = INIT_RABBITS ∧
     length (foxes (self s0)) = INIT_FOXES) ∧
  ∃ s', (main_setup;; times n generation) s = Ok (tt, s') ∧
    sound (population s') s' ∧
    hunger_ok_on (λ r, r ∈ population s') (objects s').
Proof.
  assert (Hsetup : ∃ s0, main_setup s = Ok (tt, s0) ∧
            sound (population s0) s0 ∧
            hunger_ok_on (λ r, r ∈ population s0) (objects s0) ∧
            length (rabbits (self s0)) = INIT_RABBITS ∧
            length (foxes (self s0)) = INIT_FOXES).
  { unfold main_setup. rewrite bind_run.
    set (s1 := with_self (mkField (ones (Z.to_nat ARRSIZE) (Z.to_nat ARRSIZE)) [] []) s).
    assert (H1 : Field_init s = Ok (tt, s1)) by reflexivity. rewrite H1.
    assert (Hs1 : sound (population s1) s1).
    { split; [apply ones_shape|]. intros r Hr. exfalso. exact (not_elem_of_nil _ Hr). }
    assert (Hok1 : hunger_ok_on (λ r, r ∈ population s1) (objects s1)).
    { intros r a Hr. exfalso. exact (not_elem_of_nil _ Hr). }
    destruct (spawn_loop "rabbit" 1 3 2 INIT_RABBITS 0 s1)
      as (s2 & H2 & Hs2 & Hok2 & Hr2 & Hf2); [by left|lia|lia|done|done|].
    destruct (spawn_loop "fox" 3 12 1 INIT_FOXES 0 s2)
      as (s3 & H3 & Hs3 & Hok3 & Hr3 & Hf3); [by right|lia|lia|done|done|].
    exists s3. split; [by rewrite bind_run, H2|]. split; [done|]. split; [done|].
    rewrite Hr3, Hf3, Hr2, Hf2.
    destruct (decide ("fox" = "rabbit")%string) as [Hx|_]; [discriminate|].
    destruct (decide ("rabbit" = "rabbit")%string) as [_|Hx]; [|done].
    change (length (rabbits (self s1))) with 0%nat.
    change (length (foxes (self s1))) with 0%nat. split; lia. }
  destruct Hsetup as (s0 & H0 & Hs0 & Hok0 & Hr0 & Hf0).
  split; [by exists s0|].
  destruct (times_runs
    (λ s1, sound (population s1) s1 ∧ hunger_ok_on (λ r, r ∈ population s1) (objects s1))
    generation) with (n := n) (s := s0) as (s' & H' & Hs' & Hok'); [|done|].
  - intros s1 [Hs1 Hok1]. destruct (generation_runs s1 Hs1) as (s2 & H2 & Hs2).
    exists s2. split; [done|]. split; [done|]. by apply (generation_hunger_ok s1).
  - exists s'. split; [by rewrite bind_run, H0|done].
Qed.

(** C7. generation() returns a state exactly when the six phases, run
    once each in the order move_animals, feed_rabbits, feed_foxes,
    remove_dead, reproduce_animals, grow_grass, each on the state the
    previous one left, all return, and its final state is the one
    grow_grass leaves; the population lists of that state (whose lengths
    are the counts) are those reproduce_animals produced.  The first phase
    to raise ends the generation with its exception.  From a sound state
    (field of the right shape, listed animals existing with max_offspring
    not negative) no phase raises and generation() does return. *)
Theorem generation_phase_order (s s' : State) :
  (generation s = Ok (tt, s') ↔
   ∃ s1 s2 s3 s4 s5 : State,
     move_animals s = Ok (tt, s1) ∧
     feed_rabbits s1 = Ok (tt, s2) ∧
     feed_foxes s2 = Ok (tt, s3) ∧
     remove_dead s3 = Ok (tt, s4) ∧
     reproduce_animals s4 = Ok (tt, s5) ∧
     grow_grass s5 = Ok (tt, s') ∧
     rabbits (self s') = rabbits (self s5) ∧
     foxes (self s') = foxes (self s5)) ∧
  (∀ e, generation s = Raise e ↔
     move_animals s = Raise e ∨
     ∃ s1, move_animals s = Ok (tt, s1) ∧
       (feed_rabbits s1 = Raise e ∨
        ∃ s2, feed_rabbits s1 = Ok (tt, s2) ∧
          (feed_foxes s2 = Raise e ∨
           ∃ s3, feed_foxes s2 = Ok (tt, s3) ∧
             (remove_dead s3 = Raise e ∨
              ∃ s4, remove_dead s3 = Ok (tt, s4) ∧
                (reproduce_animals s4 = Raise e ∨
                 ∃ s5, reproduce_animals s4 = Ok (tt, s5) ∧
                   grow_grass s5 = Raise e))))) ∧
  (sound (population s) s → ∃ s'', generation s = Ok (tt, s'')).
Proof.
  pose proof grow_grass_frame as Hgrow.
  split; [|split].
  - split.
    + intros H.
      apply generation_Ok in H as (s1 & s2 & s3 & s4 & s5 & H1 & H2 & H3 & H4 & H5 & H6).
      destruct (Hgrow _ _ H6). exists s1, s2, s3, s4, s5. done.
    + intros (s1 & s2 & s3 & s4 & s5 & H1 & H2 & H3 & H4 & H5 & H6 & _).
      unfold generation.
      rewrite bind_run, H1, bind_run, H2, bind_run, H3, bind_run, H4, bind_run, H5.
      exact H6.
  - intros e. unfold generation. rewrite bind_run.
    destruct (move_animals s) as [[[] s1]|e1]; [|split; [auto|]].
    2:{ intros [H|(s1 & H & _)]; [done|discriminate]. }
    rewrite bind_run.
    destruct (feed_rabbits s1) as [[[] s2]|e2] eqn:H2.
    2:{ split; [intros [= ->]; right; eauto|].
        intros [H|(? & [= <-] & [H|(? & H & _)])]; congruence. }
    rewrite bind_run.
    destruct (feed_foxes s2) as [[[] s3]|e3] eqn:H3.
    2:{ split; [intros [= ->]; right; eexists; split; [done|]; right; eauto|].
        intros [H|(? & [= <-] & [H|(? & H & [H'|(? & H' & _)])])]; congruence. }
    rewrite bind_run.
    destruct (remove_dead s3) as [[[] s4]|e4] eqn:H4.
    2:{ split.
        - intros [= ->]. right. eexists; split; [done|]. right. eexists; split; [done|].
          right. eauto.
        - intros [H|(? & [= <-] & [H|(? & H & [H'|(? & H' & [H''|(? & H'' & _)])])])];
            congruence. }
    rewrite bind_run.
    destruct (reproduce_animals s4) as [[[] s5]|e5] eqn:H5.
    2:{ split.
        - intros [= ->]. right. eexists; split; [done|]. right. eexists; split; [done|].
          right. eexists; split; [done|]. right. eauto.
        - intros [H|(? & [= <-] & [H|(? & H & [H'|(? & H' & [H''|(? & H'' &
                  [H'''|(? & H''' & _)])])])])]; congruence. }
    split.
    + intros H. right. eexists; split; [done|]. right. eexists; split; [done|].
      right. eexists; split; [done|]. right. eexists; split; [done|].
      right. eexists; split; [done|]. exact H.
    + intros [H|(? & [= <-] & [H|(? & H & [H'|(? & H' & [H''|(? & H'' &
                  [H'''|(? & H''' & H6)])])])])]; congruence.
  - intros Hsound. destruct (generation_runs s Hsound) as (s'' & Hrun & _). eauto.
Qed.

(** * More on the methods of Animal *)

Lemma choice3_value (s : State) :
  choice [-1; 0; 1] s =
  Ok (tape (rnd s) (cursor (rnd s)) mod 3 - 1,
      with_rnd (mkRng (tape (rnd s)) (S (cursor (rnd s)))) s).
Proof.
  unfold choice. rewrite bind_run, getrandbits_run.
  pose proof (Z.mod_pos_bound (tape (rnd s) (cursor (rnd s))) 3 ltac:(lia)) as Hb.
  change (Z.of_nat (length [-1; 0; 1])) with 3.
  assert (Hc : tape (rnd s) (cursor (rnd s)) mod 3 = 0 ∨
               tape (rnd s) (cursor (rnd s)) mod 3 = 1 ∨
               tape (rnd s) (cursor (rnd s)) mod 3 = 2) by lia.
  destruct Hc as [-> | [-> | ->]]; reflexivity.
Qed.

(** X1. move() on an existing animal returns.  Each coordinate moves by the
    step -1, 0 or 1 picked by one draw (the draw modulo 3, less 1) and is
    wrapped modulo ARRSIZE, so the animal stands inside the field afterwards
    wherever it stood before; x uses the first draw and y the second.  No
    other attribute, no other animal and nothing of the field changes. *)
Theorem move_wraps_into_field (r : ref) (s : State) (a : Animal.t) :
  objects s !! r = Some a →
  let dx := tape (rnd s) (cursor (rnd s)) mod 3 - 1 in
  let dy := tape (rnd s) (S (cursor (rnd s))) mod 3 - 1 in
  let a' := Animal.set_y ((Animal.y a + dy) mod ARRSIZE)
              (Animal.set_x ((Animal.x a + dx) mod ARRSIZE) a) in
  move r s =
    Ok (tt, mkState (<[r := a']> (objects s)) (self s)
              (mkRng (tape (rnd s)) (S (S (cursor (rnd s))))) (np_random s)) ∧
  -1 ≤ dx ≤ 1 ∧ -1 ≤ dy ≤ 1 ∧
  in_field (position a').
Proof.
  intros Ha dx dy a'.
  pose proof (Z.mod_pos_bound (tape (rnd s) (cursor (rnd s))) 3 ltac:(lia)).
  pose proof (Z.mod_pos_bound (tape (rnd s) (S (cursor (rnd s)))) 3 ltac:(lia)).
  split; [|split; [unfold dx; lia|split; [unfold dy; lia|]]].
  - unfold move.
    rewrite bind_run, (deref_run _ _ _ Ha), bind_run, choice3_value.
    set (s1 := with_rnd _ s).
    assert (Ha1 : objects s1 !! r = Some a) by done.
    rewrite bind_run, (update_run _ _ _ _ Ha1).
    set (s2 := with_objects _ s1).
    assert (Ha2 : objects s2 !! r = Some (Animal.set_x ((Animal.x a + dx) mod ARRSIZE) a)).
    { unfold s2. simpl. by rewrite list_lookup_alter_eq, Ha. }
    rewrite bind_run, (deref_run _ _ _ Ha2), bind_run, choice3_value.
    erewrite update_run by (simpl; exact Ha2).
    unfold with_objects. simpl. rewrite list_alter_alter_eq. do 3 f_equal.
    apply list_eq. intros i. rewrite list_lookup_alter, list_lookup_insert.
    pose proof (lookup_lt_Some _ _ _ Ha) as Hlt.
    destruct (decide (r = i)) as [<-|Hne].
    + rewrite Ha. simpl. by rewrite decide_True.
    + rewrite decide_False; [done|]. intros [? _]. done.
  - split; simpl; apply Z.mod_pos_bound; unfold ARRSIZE; lia.
Qed.

(** A rabbit in the corner (0, 64): the draws 0 and 2 are the steps -1 and
    +1, and both coordinates wrap: it ends at (64, 0). *)
Lemma move_wraps_into_field_witness :
  let a := Animal.mk "rabbit" 1 3 2 0 0 true 0 64 in
  let s := mkState [a] (mkField (ones 65 65) [0%nat] [])
                   (mkRng (λ n, if decide (n = 0%nat) then 0 else 2) 0)
                   (mkRng (λ _, 0) 0) in
  ∃ s', move 0%nat s = Ok (tt, s') ∧
    objects s' !! 0%nat = Some (Animal.mk "rabbit" 1 3 2 0 0 true 64 0).
Proof.
  intros a s.
  destruct (move_wraps_into_field 0%nat s a eq_refl) as (Hrun & _).
  eexists. split; [exact Hrun|]. reflexivity.
Defined.

Lemma times_bind_run (k : nat) (m m0 : M unit) (s s1 : State) :
  m0 s = Ok (tt, s1) → (m0;; times k m) s = times k m s1.
Proof. intros H. by rewrite bind_run, H. Qed.

(** X2. eat(amount) on an existing animal sets hunger to 0 whatever it was,
    adds amount to eaten and touches nothing else: the alive flag is neither
    read nor written, so a dead animal that eats stays dead.  For a live
    animal with starvation_level >= 1 the count starts again: after eating,
    [k] hungry calls (k up to starvation_level) leave it alive exactly when
    [k] is below starvation_level, however hungry it was before. *)
Theorem eat_restarts_starvation_count (r : ref) (s : State) (a : Animal.t) (amount : Z) :
  objects s !! r = Some a →
  eat r amount s =
    Ok (tt, with_objects
              (<[r := Animal.set_hunger 0 (Animal.set_eaten (Animal.eaten a + amount) a)]>
                 (objects s)) s) ∧
  (Animal.alive a = true → 1 ≤ Animal.starvation_level a →
   ∀ k : nat, Z.of_nat k ≤ Animal.starvation_level a →
     ∃ s' a', (eat r amount;; times k (starve r)) s = Ok (tt, s') ∧
       objects s' !! r = Some a' ∧
       Animal.hunger a' = Z.of_nat k ∧
       Animal.alive a' = (Z.of_nat k <? Animal.starvation_level a) ∧
       Animal.eaten a' = Animal.eaten a + amount).
Proof.
  intros Ha.
  pose proof (lookup_lt_Some _ _ _ Ha) as Hlt.
  assert (Heat : eat r amount s =
    Ok (tt, with_objects
              (<[r := Animal.set_hunger 0 (Animal.set_eaten (Animal.eaten a + amount) a)]>
                 (objects s)) s)).
  { rewrite (eat_run _ _ _ _ Ha). do 3 f_equal.
    apply list_eq. intros i. rewrite list_lookup_alter, list_lookup_insert.
    destruct (decide (r = i)) as [<-|Hne].
    - rewrite Ha. simpl. by rewrite decide_True.
    - rewrite decide_False; [done|]. intros [? _]. done. }
  split; [exact Heat|].
  intros Hal Hlv k Hk.
  set (a1 := Animal.set_hunger 0 (Animal.set_eaten (Animal.eaten a + amount) a)).
  set (s1 := with_objects (<[r := a1]> (objects s)) s).
  assert (Ha1 : objects s1 !! r = Some a1).
  { unfold s1. simpl. by rewrite list_lookup_insert_eq. }
  eexists _, _. split.
  { rewrite (times_bind_run k _ _ s s1 Heat).
    apply (times_starve k s1 r a1 Ha1); simpl; [done|lia|lia]. }
  split.
  { simpl. rewrite list_lookup_alter_eq, list_lookup_insert_eq by done. reflexivity. }
  simpl. split; [lia|]. split; [|done]. f_equal.
Qed.

(** A fox of main() that has gone 11 generations without food eats one
    rabbit and can again go 11 generations hungry; the 12th kills it. *)
Lemma eat_restarts_starvation_count_witness :
  let a := Animal.mk "fox" 3 12 1 11 0 true 7 7 in
  let s := mkState [a] (mkField (ones 65 65) [] [0%nat])
                   (mkRng (λ _, 0) 0) (mkRng (λ _, 0) 0) in
  (∃ s' a', (eat 0%nat 1;; times 11 (starve 0%nat)) s = Ok (tt, s') ∧
     objects s' !! 0%nat = Some a' ∧ Animal.alive a' = true) ∧
  (∃ s' a', (eat 0%nat 1;; times 12 (starve 0%nat)) s = Ok (tt, s') ∧
     objects s' !! 0%nat = Some a' ∧ Animal.alive a' = false).
Proof.
  intros a s.
  destruct (eat_restarts_starvation_count 0%nat s a 1 eq_refl) as [_ H].
  specialize (H eq_refl ltac:(simpl; lia)).
  split.
  - destruct (H 11%nat ltac:(simpl; lia)) as (s' & a' & Hrun & Ha' & _ & Hal & _).
    exists s', a'. split; [exact Hrun|]. split; [exact Ha'|exact Hal].
  - destruct (H 12%nat ltac:(simpl; lia)) as (s' & a' & Hrun & Ha' & _ & Hal & _).
    exists s', a'. split; [exact Hrun|]. split; [exact Ha'|exact Hal].
Defined.

(** * More on Field.remove_dead *)

Lemma filter_alive_idemp (h : list Animal.t) (l : list ref) :
  filter (λ r, Animal.alive <$> h !! r = Some true)
    (filter (λ r, Animal.alive <$> h !! r = Some true) l)
  = filter (λ r, Animal.alive <$> h !! r = Some true) l.
Proof.
  induction l as [|r l IH]; [done|].
  rewrite filter_cons. destruct (decide _) as [Hr|Hr]; [|exact IH].
  rewrite filter_cons, decide_True by done. by rewrite IH.
Qed.

(** X3. When every listed reference exists, remove_dead() returns; each
    list becomes the list of its members whose alive flag is set, in the
    same order; so every animal listed afterwards is alive.  The dead are
    only unlisted: no object is changed or dropped from the store, and the
    field and generators are untouched.  A second call changes nothing. *)
Theorem remove_dead_keeps_the_living (s : State) :
  (∀ r, r ∈ population s → is_Some (objects s !! r)) →
  ∃ s', remove_dead s = Ok (tt, s') ∧
    objects s' = objects s ∧
    field (self s') = field (self s) ∧
    rnd s' = rnd s ∧ np_random s' = np_random s ∧
    rabbits (self s') =
      filter (λ r, Animal.alive <$> objects s !! r = Some true) (rabbits (self s)) ∧
    foxes (self s') =
      filter (λ r, Animal.alive <$> objects s !! r = Some true) (foxes (self s)) ∧
    (∀ r, r ∈ population s' →
       r ∈ population s ∧ ∃ a, objects s' !! r = Some a ∧ Animal.alive a = true) ∧
    (∀ r a, r ∈ population s → objects s !! r = Some a → Animal.alive a = true →
       r ∈ population s') ∧
    remove_dead s' = Ok (tt, s').
Proof.
  intros Hvalid. eexists. split; [apply (remove_dead_run s Hvalid)|].
  set (s' := with_self _ s).
  assert (Hin : ∀ r, r ∈ population s' →
            r ∈ population s ∧ ∃ a, objects s' !! r = Some a ∧ Animal.alive a = true).
  { intros r Hr. unfold population, s' in Hr. simpl in Hr.
    rewrite elem_of_app, !list_elem_of_filter in Hr.
    assert (Hal : Animal.alive <$> objects s !! r = Some true) by tauto.
    split; [unfold population; rewrite elem_of_app; tauto|].
    simpl. destruct (objects s !! r) as [a|]; [|discriminate].
    exists a. split; [done|]. by injection Hal. }
  split; [done|]. split; [done|]. split; [done|]. split; [done|].
  split; [done|]. split; [done|]. split; [exact Hin|]. split.
  - intros r a Hr Ha Hal. unfold population, s'. simpl.
    unfold population in Hr. rewrite elem_of_app in Hr.
    rewrite elem_of_app, !list_elem_of_filter, Ha. simpl. rewrite Hal. tauto.
  - rewrite (remove_dead_run s').
    + unfold s'. simpl. by rewrite !filter_alive_idemp.
    + intros r Hr. destruct (Hin r Hr) as (_ & a & Ha & _). eauto.
Qed.

(** Three rabbits, the middle one dead, and one dead fox. *)
Lemma remove_dead_keeps_the_living_witness :
  let s := mkState [Animal.mk "rabbit" 1 3 2 0 0 true 1 1;
                    Animal.mk "rabbit" 1 3 2 3 0 false 2 2;
                    Animal.mk "rabbit" 1 3 2 1 0 true 3 3;
                    Animal.mk "fox" 3 12 1 12 0 false 4 4]
                   (mkField (ones 65 65) [0; 1; 2]%nat [3%nat])
                   (mkRng (λ _, 0) 0) (mkRng (λ _, 0) 0) in
  ∃ s', remove_dead s = Ok (tt, s') ∧
    rabbits (self s') = [0; 2]%nat ∧ foxes (self s') = [] ∧
    length (objects s') = 4%nat.
Proof.
  intros s.
  assert (Hvalid : ∀ r, r ∈ population s → is_Some (objects s !! r)).
  { intros r Hr. unfold population in Hr. simpl in Hr.
    repeat (apply elem_of_cons in Hr as [->|Hr]); try (eexists; reflexivity).
    exfalso. exact (not_elem_of_nil _ Hr). }
  destruct (remove_dead_keeps_the_living s Hvalid)
    as (s' & Hrun & Hobj & _ & _ & _ & Hr & Hf & _).
  exists s'. split; [exact Hrun|].
  rewrite Hr, Hf, Hobj. split; [reflexivity|]. split; reflexivity.
Defined.

(** * What no method ever does to an object *)

Section evolves_rules.

Variable R : Animal.t → Animal.t → Prop.
Context `{!Reflexive R, !Transitive R}.

Lemma evolves_ret {A : Type} (v : A) : evolves R (mret v : M A).
Proof. intros s v' s' [= <- <-] r a Ha. eauto. Qed.

Lemma evolves_raise {A : Type} (e : Exception) : evolves R (raise e : M A).
Proof. intros s v s' [=]. Qed.

Lemma evolves_gets {A : Type} (f : State → A) : evolves R (gets f).
Proof. intros s v s' [= <- <-] r a Ha. eauto. Qed.

Lemma evolves_bind {A B : Type} (m : M A) (k : A → M B) :
  evolves R m → (∀ v, evolves R (k v)) → evolves R (m ≫= k).
Proof.
  intros Hm Hk s v s' Hrun r a Ha.
  apply bind_Ok in Hrun as (v1 & s1 & H1 & H2).
  destruct (Hm s v1 s1 H1 r a Ha) as (a1 & Ha1 & HR1).
  destruct (Hk v1 s1 v s' H2 r a1 Ha1) as (a2 & Ha2 & HR2).
  exists a2. split; [done|]. by transitivity a1.
Qed.

Lemma evolves_deref (r : ref) : evolves R (deref r).
Proof. intros s v s' [_ ->]%deref_Ok r' a Ha. eauto. Qed.

Lemma evolves_update (r : ref) (f : Animal.t → Animal.t) :
  (∀ a, R a (f a)) → evolves R (update r f).
Proof.
  intros Hf s v s' Hrun r' a Ha. unfold update in Hrun.
  apply bind_Ok in Hrun as (b & s1 & [_ ->]%deref_Ok & Hm).
  unfold modify in Hm. injection Hm as _ <-. simpl.
  rewrite list_lookup_alter. destruct (decide (r = r')) as [->|]; [|eauto].
  rewrite Ha. simpl. eauto.
Qed.

Lemma evolves_new (a : Animal.t) : evolves R (new a).
Proof.
  intros s v s' [= <- <-] r b Hb. exists b. split; [|done]. simpl.
  rewrite lookup_app_l; [done|]. by eapply lookup_lt_Some.
Qed.

Lemma evolves_for_each {A : Type} (l : list A) (body : A → M unit) :
  (∀ v, evolves R (body v)) → evolves R (for_each l body).
Proof.
  intros Hb. induction l as [|v l IH]; simpl.
  - apply evolves_ret.
  - apply evolves_bind; [apply Hb|]. intros _. exact IH.
Qed.

Lemma evolves_for_fold {A B : Type} (l : list A) (acc : B) (body : B → A → M B) :
  (∀ b v, evolves R (body b v)) → evolves R (for_fold l acc body).
Proof.
  intros Hb. revert acc. induction l as [|v l IH]; intros acc; simpl.
  - apply evolves_ret.
  - apply evolves_bind; [apply Hb|]. intros b. apply IH.
Qed.

Lemma evolves_getrandbits : evolves R getrandbits.
Proof. intros s v s' [= <- <-] r a Ha. eauto. Qed.

Lemma evolves_randrange (start stop : Z) : evolves R (randrange start stop).
Proof.
  unfold randrange. destruct (_ <=? _); [apply evolves_raise|].
  apply evolves_bind; [apply evolves_getrandbits|]. intros v. apply evolves_ret.
Qed.

Lemma evolves_choice {A : Type} (l : list A) : evolves R (choice l).
Proof.
  unfold choice. destruct l as [|c l]; [apply evolves_raise|].
  apply evolves_bind; [apply evolves_getrandbits|]. intros v.
  destruct (_ !! _); [apply evolves_ret|apply evolves_raise].
Qed.

Lemma evolves_field_get (i j : Z) : evolves R (field_get i j).
Proof.
  intros s v s' Hrun r a Ha. unfold field_get in Hrun.
  destruct (getitem _ _ _); [|discriminate]. injection Hrun as <- <-. eauto.
Qed.

Lemma evolves_field_set (i j v : Z) : evolves R (field_set i j v).
Proof.
  intros s u s' Hrun r a Ha. unfold field_set in Hrun.
  destruct (setitem _ _ _ _); [|discriminate]. injection Hrun as _ <-. eauto.
Qed.

Lemma evolves_modify_self (f : State → Field) :
  evolves R (modify (λ s, with_self (f s) s)).
Proof. intros s u s' [= _ <-] r a Ha. exists a. split; [done|reflexivity]. Qed.

Lemma evolves_grow_grass : evolves R grow_grass.
Proof.
  intros s u s' Hrun r a Ha. rewrite (grow_grass_objects _ _ _ Hrun). eauto.
Qed.

Lemma evolves_remove_dead : evolves R remove_dead.
Proof. intros s u s' ->%remove_dead_Ok r a Ha. eauto. Qed.

End evolves_rules.

#[export] Instance same_constants_refl : Reflexive same_constants.
Proof. intros a. done. Qed.

#[export] Instance same_constants_trans : Transitive same_constants.
Proof.
  intros a b c (H1 & H2 & H3 & H4) (H1' & H2' & H3' & H4').
  repeat split; congruence.
Qed.

Create HintDb evolves.

#[local] Hint Resolve evolves_ret evolves_raise evolves_gets evolves_deref
  evolves_new evolves_getrandbits evolves_randrange evolves_choice
  evolves_field_get evolves_field_set evolves_modify_self evolves_grow_grass
  evolves_remove_dead : evolves.

#[local] Hint Extern 0 (Reflexive _) => typeclasses eauto : evolves.
#[local] Hint Extern 0 (Transitive _) => typeclasses eauto : evolves.

(** Peel the binds, loops and branches of a method off; what is left are
    the attribute updates it makes, to be checked against the relation. *)
Ltac evolves_steps :=
  repeat first
    [ solve [eauto with evolves]
    | apply evolves_update; intros ?; solve [done | by destruct (_ <=? _) | by intro]
    | apply evolves_for_each; try typeclasses eauto; intros ?
    | apply evolves_for_fold; try typeclasses eauto; intros ? ?
    | apply evolves_bind; try typeclasses eauto; [|intros ?]
    | progress cbn zeta
    | match goal with
      | |- evolves _ (if ?b then _ else _) => destruct b
      | |- evolves _ (match ?o with Some _ => _ | None => _ end) => destruct o
      | |- evolves _ (let '(_, _) := ?p in _) => destruct p
      end ].

Lemma evolves_constants_move (r : ref) : evolves same_constants (move r).
Proof. unfold move. evolves_steps. Qed.

Lemma evolves_constants_eat (r : ref) (n : Z) : evolves same_constants (eat r n).
Proof. unfold eat. evolves_steps. Qed.

Lemma evolves_constants_starve (r : ref) : evolves same_constants (starve r).
Proof. unfold starve. evolves_steps. Qed.

Lemma evolves_constants_reproduce (r : ref) : evolves same_constants (reproduce r).
Proof. unfold reproduce, randint, deepcopy. evolves_steps. Qed.

#[local] Hint Resolve evolves_constants_move evolves_constants_eat
  evolves_constants_starve evolves_constants_reproduce : evolves.

Lemma evolves_constants_generation : evolves same_constants generation.
Proof.
  unfold generation, move_animals, feed_rabbits, feed_rabbits_body, feed_foxes,
    group_rabbit, feed_foxes_body, reproduce_animals, collect_born, can_reproduce.
  evolves_steps.
Qed.

Lemma evolves_constants_Animal_init (species : string) (mo sl rl : Z) :
  evolves same_constants (Animal_init species mo sl rl).
Proof. unfold Animal_init. evolves_steps. Qed.

Lemma evolves_constants_add_animal (r : ref) : evolves same_constants (add_animal r).
Proof. unfold add_animal. evolves_steps. Qed.

(** X4. Whatever generation() does when it returns, it deletes no object
    and never rewrites the attributes given to the constructor: every
    object that existed before still exists under the same reference, with
    the same species, max_offspring, starvation_level and
    reproduction_level; the store only grows. *)
Theorem generation_never_rewrites_constants (s s' : State) :
  generation s = Ok (tt, s') →
  (length (objects s) ≤ length (objects s'))%nat ∧
  ∀ r a, objects s !! r = Some a →
    ∃ a', objects s' !! r = Some a' ∧
      Animal.species a' = Animal.species a ∧
      Animal.max_offspring a' = Animal.max_offspring a ∧
      Animal.starvation_level a' = Animal.starvation_level a ∧
      Animal.reproduction_level a' = Animal.reproduction_level a.
Proof.
  intros Hrun.
  pose proof (evolves_constants_generation s tt s' Hrun) as Hev.
  split; [|exact Hev].
  destruct (objects s) as [|a0 h] eqn:Hobj using rev_ind; [simpl; lia|].
  clear IHh.
  destruct (Hev (length h) a0) as (a' & Ha' & _).
  { by rewrite list_lookup_middle. }
  apply lookup_lt_Some in Ha'. rewrite length_app. simpl. lia.
Qed.

(** The two rabbits and the fox of a small field, one generation on. *)
Lemma generation_never_rewrites_constants_witness :
  let s := mkState [Animal.mk "rabbit" 1 3 2 2 0 true 10 10;
                    Animal.mk "rabbit" 1 3 2 0 1 true 20 30;
                    Animal.mk "fox" 3 12 1 5 0 true 20 31]
                   (mkField (ones 65 65) [0; 1]%nat [2%nat])
                   (mkRng (λ n, Z.of_nat n) 0) (mkRng (λ n, Z.of_nat n * 2 ^ 45) 0) in
  ∃ s', generation s = Ok (tt, s') ∧
    (length (objects s) ≤ length (objects s'))%nat ∧
    ∀ r a, objects s !! r = Some a →
      ∃ a', objects s' !! r = Some a' ∧
        Animal.species a' = Animal.species a ∧
        Animal.max_offspring a' = Animal.max_offspring a ∧
        Animal.starvation_level a' = Animal.starvation_level a ∧
        Animal.reproduction_level a' = Animal.reproduction_level a.
Proof.
  intros s.
  assert (Hret : match generation s with Ok _ => true | Raise _ => false end = true)
    by (vm_compute; reflexivity).
  destruct (generation s) as [[[] s']|e] eqn:Hrun; [|discriminate].
  exists s'. split; [reflexivity|].
  exact (generation_never_rewrites_constants s s' Hrun).
Defined.

(** * More on Field.reproduce_animals *)

Lemma set_eaten_0_idemp (a : Animal.t) :
  Animal.set_eaten 0 (Animal.set_eaten 0 a) = Animal.set_eaten 0 a.
Proof. reflexivity. Qed.

Lemma collect_born_exact (l acc born : list ref) (s s' : State) :
  for_fold l acc (λ born r, b ← can_reproduce r;
                    if (b : bool) then cs ← reproduce r; mret (born ++ cs)
                    else mret born) s = Ok (born, s') →
  (∀ r, r ∈ l → is_Some (objects s !! r)) →
  self s' = self s ∧
  (length (objects s) ≤ length (objects s'))%nat ∧
  born = acc ++ seq (length (objects s)) (length (objects s') - length (objects s)) ∧
  (∀ r a, objects s !! r = Some a →
     objects s' !! r = Some (if decide (r ∈ l ∧ eligible a)
                             then Animal.set_eaten 0 a else a)) ∧
  (∀ c, (length (objects s) ≤ c < length (objects s'))%nat →
     ∃ r a, r ∈ l ∧ objects s !! r = Some a ∧ eligible a ∧
       objects s' !! c = Some (Animal.set_eaten 0 a)).
Proof.
  revert acc s. induction l as [|r0 l IH]; intros acc s Hrun Hvalid.
  - simpl in Hrun. injection Hrun as <- <-.
    split; [done|]. split; [done|]. split; [by rewrite Nat.sub_diag, app_nil_r|].
    split; [|intros c ?; lia].
    intros r a Ha. rewrite decide_False; [done|]. intros [Hin _].
    exact (not_elem_of_nil _ Hin).
  - cbn [for_fold] in Hrun.
    apply bind_Ok in Hrun as (acc' & s1 & H1 & H2).
    apply bind_Ok in H1 as (b & s0 & Hcan & H1).
    unfold can_reproduce in Hcan.
    apply bind_Ok in Hcan as (a0 & s0' & [Ha0 ->]%deref_Ok & [= <- <-]).
    destruct (Z.leb_spec (Animal.reproduction_level a0) (Animal.eaten a0)) as [Hel|Hnel].
    + apply bind_Ok in H1 as (cs & s1' & Hrep & [= <- <-]).
      apply reproduce_Ok in Hrep as (a0' & n & Ha0' & -> & Hobj1 & Hself1).
      rewrite Ha0 in Ha0'. injection Ha0' as <-.
      pose proof (lookup_lt_Some _ _ _ Ha0) as Hlt0.
      assert (Hlen1 : length (objects s1') = (length (objects s) + n)%nat).
      { rewrite Hobj1, length_app, length_alter, length_replicate. done. }
      assert (Hold : ∀ r a, objects s !! r = Some a →
                objects s1' !! r =
                Some (if decide (r = r0) then Animal.set_eaten 0 a else a)).
      { intros r a Ha. pose proof (lookup_lt_Some _ _ _ Ha).
        rewrite Hobj1, lookup_app_l by (rewrite length_alter; lia).
        rewrite list_lookup_alter. destruct (decide (r0 = r)) as [->|Hne].
        - rewrite Ha. simpl. by rewrite decide_True.
        - rewrite decide_False by done. done. }
      destruct (IH _ _ H2) as (Hself & Hle & Hborn & Hexact & Hchild).
      { intros r Hr. destruct (Hvalid r ltac:(by right)) as [a Ha].
        rewrite (Hold r a Ha). eauto. }
      split; [congruence|]. split; [lia|]. split.
      { rewrite Hborn, Hlen1, <- app_assoc. f_equal.
        replace (length (objects s') - length (objects s))%nat
          with (n + (length (objects s') - (length (objects s) + n)))%nat by lia.
        by rewrite seq_app. }
      split.
      * intros r a Ha. rewrite (Hexact r _ (Hold r a Ha)).
        destruct (decide (r = r0)) as [->|Hne].
        -- rewrite Ha0 in Ha. injection Ha as <-.
           rewrite (decide_True (P := r0 ∈ r0 :: l ∧ eligible a0)) by (split; [left|done]).
           by destruct (decide _).
        -- f_equal. apply if_decide_iff. rewrite elem_of_cons. tauto.
      * intros c Hc. destruct (decide (c < length (objects s) + n)%nat) as [Hnew|Hlater].
        -- exists r0, a0. split; [left|]. split; [done|]. split; [done|].
           assert (Hc1 : objects s1' !! c = Some (Animal.set_eaten 0 a0)).
           { rewrite Hobj1, lookup_app_r by (rewrite length_alter; lia).
             apply lookup_replicate_2. rewrite length_alter. lia. }
           rewrite (Hexact c _ Hc1). by destruct (decide _).
        -- destruct (Hchild c ltac:(lia)) as (r & a1 & Hr & Ha1 & Hel1 & Hc').
           destruct (Hvalid r ltac:(by right)) as [a Ha].
           rewrite (Hold r a Ha) in Ha1. injection Ha1 as <-.
           exists r, a. split; [by right|]. split; [done|].
           destruct (decide (r = r0)) as [->|Hne].
           ++ rewrite Ha0 in Ha. injection Ha as <-. done.
           ++ done.
    + injection H1 as <- <-.
      destruct (IH _ _ H2) as (Hself & Hle & Hborn & Hexact & Hchild).
      { intros r Hr. apply Hvalid. by right. }
      split; [done|]. split; [done|]. split; [done|]. split.
      * intros r a Ha. rewrite (Hexact r a Ha). f_equal. apply if_decide_iff.
        rewrite elem_of_cons. split; [tauto|].
        intros [[->|Hin] Hel]; [|done].
        rewrite Ha0 in Ha. injection Ha as <-. unfold eligible in Hel. lia.
      * intros c Hc. destruct (Hchild c Hc) as (r & a & Hr & Hrest).
        exists r, a. split; [by right|done].
Qed.

Lemma reproduce_animals_exact (s : State) :
  sound (population s) s →
  ∃ (s' : State) (nr nf : nat),
    reproduce_animals s = Ok (tt, s') ∧
    field (self s') = field (self s) ∧
    rabbits (self s') = rabbits (self s) ++ seq (length (objects s)) nr ∧
    foxes (self s') = foxes (self s) ++ seq (length (objects s) + nr) nf ∧
    length (objects s') = (length (objects s) + nr + nf)%nat ∧
    (∀ r a, objects s !! r = Some a →
       objects s' !! r = Some (if decide (r ∈ population s ∧ eligible a)
                               then Animal.set_eaten 0 a else a)) ∧
    (∀ c, c ∈ seq (length (objects s)) nr →
       ∃ r a, r ∈ rabbits (self s) ∧ objects s !! r = Some a ∧ eligible a ∧
         objects s' !! c = Some (Animal.set_eaten 0 a)) ∧
    (∀ c, c ∈ seq (length (objects s) + nr) nf →
       ∃ r a, r ∈ foxes (self s) ∧ objects s !! r = Some a ∧ eligible a ∧
         objects s' !! c = Some (Animal.set_eaten 0 a)).
Proof.
  intros Hsound.
  destruct (reproduce_animals_runs s Hsound) as (s' & Hrun & _).
  pose proof Hrun as Hrun0.
  unfold reproduce_animals, collect_born in Hrun.
  apply bind_Ok in Hrun as (rs & s0 & [= <- <-] & Hrun).
  apply bind_Ok in Hrun as (born_r & s1 & Hr & Hrun).
  apply bind_Ok in Hrun as (fs & s1' & [= <- <-] & Hrun).
  apply bind_Ok in Hrun as (born_f & s2 & Hf & Hrun).
  apply bind_Ok in Hrun as ([] & s3 & [= <-] & Hrun).
  unfold modify in Hrun. injection Hrun as <-.
  assert (Hvr : ∀ r, r ∈ rabbits (self s) → is_Some (objects s !! r)).
  { intros r Hr'. apply fertile_valid, Hsound, elem_of_app. by left. }
  destruct (collect_born_exact _ _ _ _ _ Hr Hvr)
    as (Hself1 & Hle1 & Hb1 & Hex1 & Hch1).
  assert (Hvf : ∀ r, r ∈ foxes (self s1) → is_Some (objects s1 !! r)).
  { intros r Hr'. rewrite Hself1 in Hr'.
    destruct (fertile_valid _ _ (proj2 Hsound r ltac:(apply elem_of_app; by right)))
      as [a Ha].
    rewrite (Hex1 r a Ha). eauto. }
  destruct (collect_born_exact _ _ _ _ _ Hf Hvf)
    as (Hself2 & Hle2 & Hb2 & Hex2 & Hch2).
  simpl in Hb1, Hb2.
  exists (with_self
            (with_foxes (foxes (self (with_self
               (with_rabbits (rabbits (self s2) ++ born_r) (self s2)) s2)) ++ born_f)
               (self (with_self (with_rabbits (rabbits (self s2) ++ born_r) (self s2)) s2)))
            (with_self (with_rabbits (rabbits (self s2) ++ born_r) (self s2)) s2)),
    (length (objects s1) - length (objects s))%nat,
    (length (objects s2) - length (objects s1))%nat.
  split; [exact Hrun0|].
  cbn [objects self field rabbits foxes with_self with_rabbits with_foxes].
  rewrite Hself2, Hself1.
  replace (length (objects s) + (length (objects s1) - length (objects s)))%nat
    with (length (objects s1)) by lia.
  split; [done|]. split; [by rewrite Hb1|]. split; [by rewrite Hb2|].
  split; [lia|]. split; [|split].
  - intros r a Ha. rewrite (Hex2 r _ (Hex1 r a Ha)). rewrite Hself1.
    unfold population. destruct (decide (r ∈ rabbits (self s) ∧ eligible a)) as [[Hin Hel]|Hn].
    + rewrite (decide_True (P := r ∈ _ ++ _ ∧ eligible a))
        by (split; [apply elem_of_app; by left|done]).
      by destruct (decide _).
    + f_equal. apply if_decide_iff. rewrite elem_of_app. tauto.
  - intros c Hc%elem_of_seq.
    destruct (Hch1 c ltac:(lia)) as (r & a & Hr' & Ha & Hel & Hc1).
    exists r, a. split; [done|]. split; [done|]. split; [done|].
    rewrite (Hex2 c _ Hc1). by destruct (decide _).
  - intros c Hc%elem_of_seq.
    destruct (Hch2 c ltac:(lia)) as (r & a1 & Hr' & Ha1 & Hel1 & Hc2).
    rewrite Hself1 in Hr'.
    destruct (fertile_valid _ _ (proj2 Hsound r ltac:(apply elem_of_app; by right)))
      as [a Ha].
    rewrite (Hex1 r a Ha) in Ha1. injection Ha1 as <-.
    exists r, a. split; [done|]. split; [done|].
    destruct (decide (r ∈ rabbits (self s) ∧ eligible a)) as [[_ Hel]|_]; done.
Qed.

(** X5. From a sound state reproduce_animals() returns.  Nothing is taken
    off the lists: the rabbits born are appended to the rabbits and the
    foxes born to the foxes, and the newborn are exactly the objects
    created by the call, rabbits first, so they are new and distinct.  Of
    the existing objects only the listed animals that could reproduce
    (eaten >= reproduction_level) change, and only by eaten becoming 0 -
    whether or not the draw gave them any offspring.  Every newborn rabbit
    is a copy, eaten 0, of a listed rabbit that could reproduce, and every
    newborn fox of such a fox. *)
Theorem reproduce_animals_appends_newborns (s : State) :
  sound (population s) s →
  ∃ (s' : State) (nr nf : nat),
    reproduce_animals s = Ok (tt, s') ∧
    field (self s') = field (self s) ∧
    rabbits (self s') = rabbits (self s) ++ seq (length (objects s)) nr ∧
    foxes (self s') = foxes (self s) ++ seq (length (objects s) + nr) nf ∧
    length (objects s') = (length (objects s) + nr + nf)%nat ∧
    (∀ r a, objects s !! r = Some a →
       objects s' !! r = Some (if decide (r ∈ population s ∧ eligible a)
                               then Animal.set_eaten 0 a else a)) ∧
    (∀ c, c ∈ seq (length (objects s)) nr →
       ∃ r a, r ∈ rabbits (self s) ∧ objects s !! r = Some a ∧ eligible a ∧
         objects s' !! c = Some (Animal.set_eaten 0 a)) ∧
    (∀ c, c ∈ seq (length (objects s) + nr) nf →
       ∃ r a, r ∈ foxes (self s) ∧ objects s !! r = Some a ∧ eligible a ∧
         objects s' !! c = Some (Animal.set_eaten 0 a)).
Proof. exact (reproduce_animals_exact s). Qed.

(** A rabbit that has eaten 2 (its reproduction level) and one that has
    eaten 1: the draw 1 gives the first one offspring; only it is reset. *)
Lemma reproduce_animals_appends_newborns_witness :
  let s := mkState [Animal.mk "rabbit" 1 3 2 0 2 true 5 6;
                    Animal.mk "rabbit" 1 3 2 0 1 true 8 9]
                   (mkField (ones 65 65) [0; 1]%nat [])
                   (mkRng (λ _, 1) 0) (mkRng (λ _, 0) 0) in
  ∃ s', reproduce_animals s = Ok (tt, s') ∧
    objects s' !! 0%nat = Some (Animal.mk "rabbit" 1 3 2 0 0 true 5 6) ∧
    objects s' !! 1%nat = Some (Animal.mk "rabbit" 1 3 2 0 1 true 8 9).
Proof.
  intros s.
  assert (Hsound : sound (population s) s).
  { split.
    - split; [reflexivity|]. apply (bool_decide_unpack _). vm_compute. exact I.
    - intros r Hr. unfold population in Hr. simpl in Hr.
      repeat (apply elem_of_cons in Hr as [->|Hr]);
        try (eexists; split; [reflexivity|simpl; lia]).
      exfalso. exact (not_elem_of_nil _ Hr). }
  destruct (reproduce_animals_appends_newborns s Hsound)
    as (s' & nr & nf & Hrun & _ & _ & _ & _ & Hex & _).
  exists s'. split; [exact Hrun|]. split.
  - rewrite (Hex 0%nat _ eq_refl). rewrite decide_True; [reflexivity|].
    split; [left|unfold eligible; simpl; lia].
  - rewrite (Hex 1%nat _ eq_refl). rewrite decide_False; [reflexivity|].
    intros [_ Hel]. unfold eligible in Hel. simpl in Hel. lia.
Defined.

(** * Field.get_display_array *)

Lemma overlay_run (color : Z) (l : list ref) (d : list (list Z)) (s : State) :
  grid_shape d →
  (∀ r, r ∈ l → placed (objects s) r) →
  ∃ d', overlay color l d s = Ok (d', s) ∧ grid_shape d' ∧
    ∀ p, in_field p →
      getitem d' p.1 p.2 =
      if decide (group_at (objects s) l p ≠ []) then Some color else getitem d p.1 p.2.
Proof.
  revert d. induction l as [|r l IH]; intros d Hshape Hpl.
  - exists d. split; [done|]. split; [done|]. intros p _.
    rewrite decide_False; [done|]. intros H. by apply H.
  - destruct (Hpl r ltac:(left)) as (p0 & Hp0 & Hin0).
    apply where_is_Some in Hp0 as Ha. destruct Ha as (a & Ha & Hpos).
    destruct (setitem_in_field d Hshape p0 color Hin0) as (d1 & Hset & Hshape1 & Hget1).
    rewrite <- Hpos in Hset. simpl in Hset.
    destruct (IH d1 Hshape1) as (d' & Hrun & Hshape' & Hget').
    { intros r' Hr'. apply Hpl. by right. }
    exists d'. split.
    { unfold overlay in *. cbn [for_fold].
      rewrite bind_run, bind_run, (deref_run _ _ _ Ha), Hset, ret_run. exact Hrun. }
    split; [done|]. intros p Hp.
    rewrite (Hget' p Hp), group_at_cons, (Hget1 p Hp).
    destruct (decide (where_is (objects s) r = Some p)) as [Hsame|Hdiff].
    + assert (p = p0) as -> by congruence.
      rewrite (decide_True (P := p0 = p0)) by reflexivity.
      rewrite (decide_True (P := r :: _ ≠ [])) by discriminate.
      by destruct (decide (group_at (objects s) l p0 ≠ [])).
    + rewrite (decide_False (P := p = p0)); [done|].
      intros ->. apply Hdiff. exact Hp0.
Qed.

Lemma get_display_array_run (s : State) :
  grid_shape (field (self s)) →
  (∀ r, r ∈ population s → placed (objects s) r) →
  ∃ d, get_display_array s = Ok (d, s) ∧
    grid_shape d ∧
    (∀ p, in_field p →
       getitem d p.1 p.2 =
       if decide (group_at (objects s) (foxes (self s)) p ≠ []) then Some COLOR_FOX
       else if decide (group_at (objects s) (rabbits (self s)) p ≠ []) then Some COLOR_RABBIT
       else getitem (field (self s)) p.1 p.2) ∧
    ((∀ p v, in_field p → getitem (field (self s)) p.1 p.2 = Some v →
        v = COLOR_EMPTY ∨ v = COLOR_GRASS) →
     ∀ p v, in_field p → getitem d p.1 p.2 = Some v →
       v = COLOR_EMPTY ∨ v = COLOR_GRASS ∨ v = COLOR_RABBIT ∨ v = COLOR_FOX).
Proof.
  intros Hshape Hpl.
  destruct (overlay_run COLOR_RABBIT (rabbits (self s)) (field (self s)) s Hshape)
    as (d1 & H1 & Hshape1 & Hget1).
  { intros r Hr. apply Hpl, elem_of_app. by left. }
  destruct (overlay_run COLOR_FOX (foxes (self s)) d1 s Hshape1)
    as (d2 & H2 & Hshape2 & Hget2).
  { intros r Hr. apply Hpl, elem_of_app. by right. }
  assert (Hcells : ∀ p, in_field p →
     getitem d2 p.1 p.2 =
     if decide (group_at (objects s) (foxes (self s)) p ≠ []) then Some COLOR_FOX
     else if decide (group_at (objects s) (rabbits (self s)) p ≠ []) then Some COLOR_RABBIT
     else getitem (field (self s)) p.1 p.2).
  { intros p Hp. rewrite (Hget2 p Hp). destruct (decide _); [done|]. by apply Hget1. }
  exists d2. split.
  { unfold get_display_array, gets.
    rewrite bind_run, bind_run, bind_run, H1, bind_run, bind_run, H2. reflexivity. }
  split; [done|]. split; [exact Hcells|].
  intros Hbin p v Hp Hv. rewrite (Hcells p Hp) in Hv.
  destruct (decide _); [injection Hv as <-; auto|].
  destruct (decide _); [injection Hv as <-; auto|].
  destruct (Hbin p v Hp Hv); auto.
Qed.

(** X6. On a field of the right shape whose listed animals all stand
    inside it, get_display_array() returns and changes nothing, the field
    included: the array is a copy.  A cell of the array is COLOR_FOX if a
    listed fox stands on it, else COLOR_RABBIT if a listed rabbit stands on
    it, else the field's own value, so a fox hides a rabbit on the same
    cell; alive flags play no part.  With a field of 0s and 1s the array
    holds the four colour codes only. *)
Theorem get_display_array_fox_over_rabbit (s : State) :
  grid_shape (field (self s)) →
  (∀ r, r ∈ population s → placed (objects s) r) →
  ∃ d, get_display_array s = Ok (d, s) ∧
    grid_shape d ∧
    (∀ p, in_field p →
       getitem d p.1 p.2 =
       if decide (group_at (objects s) (foxes (self s)) p ≠ []) then Some COLOR_FOX
       else if decide (group_at (objects s) (rabbits (self s)) p ≠ []) then Some COLOR_RABBIT
       else getitem (field (self s)) p.1 p.2) ∧
    ((∀ p v, in_field p → getitem (field (self s)) p.1 p.2 = Some v →
        v = COLOR_EMPTY ∨ v = COLOR_GRASS) →
     ∀ p v, in_field p → getitem d p.1 p.2 = Some v →
       v = COLOR_EMPTY ∨ v = COLOR_GRASS ∨ v = COLOR_RABBIT ∨ v = COLOR_FOX).
Proof. exact (get_display_array_run s). Qed.

(** A rabbit and a fox on (2, 3), a rabbit alone on (4, 4), grass on (0, 0). *)
Lemma get_display_array_fox_over_rabbit_witness :
  let s := mkState [Animal.mk "rabbit" 1 3 2 0 0 true 2 3;
                    Animal.mk "rabbit" 1 3 2 0 0 true 4 4;
                    Animal.mk "fox" 3 12 1 0 0 true 2 3]
                   (mkField (ones 65 65) [0; 1]%nat [2%nat])
                   (mkRng (λ _, 0) 0) (mkRng (λ _, 0) 0) in
  ∃ d, get_display_array s = Ok (d, s) ∧
    getitem d 2 3 = Some COLOR_FOX ∧
    getitem d 4 4 = Some COLOR_RABBIT ∧
    getitem d 0 0 = Some COLOR_GRASS.
Proof.
  intros s.
  assert (Hshape : grid_shape (field (self s))).
  { split; [reflexivity|]. apply (bool_decide_unpack _). vm_compute. exact I. }
  assert (Hpl : ∀ r, r ∈ population s → placed (objects s) r).
  { intros r Hr. unfold population in Hr. simpl in Hr.
    repeat (apply elem_of_cons in Hr as [->|Hr]);
      try (eexists; split; [reflexivity|]; unfold in_field, ARRSIZE; simpl; lia).
    exfalso. exact (not_elem_of_nil _ Hr). }
  destruct (get_display_array_fox_over_rabbit s Hshape Hpl) as (d & Hrun & _ & Hcells & _).
  exists d. split; [exact Hrun|].
  split; [|split].
  - etransitivity; [apply (Hcells (2, 3)); unfold in_field, ARRSIZE; simpl; lia|].
    vm_compute. reflexivity.
  - etransitivity; [apply (Hcells (4, 4)); unfold in_field, ARRSIZE; simpl; lia|].
    vm_compute. reflexivity.
  - etransitivity; [apply (Hcells (0, 0)); unfold in_field, ARRSIZE; simpl; lia|].
    vm_compute. reflexivity.
Defined.

Lemma setitem_shape (d d' : list (list Z)) (i j v : Z) :
  setitem d i j v = Some d' → grid_shape d → grid_shape d'.
Proof.
  unfold setitem, grid_shape. generalize (Z.to_nat ARRSIZE). intros n Hset [Hlen Hrows].
  destruct (np_index (length d) i) as [ri|]; [|discriminate]. simpl in Hset.
  destruct (d !! ri) as [row|] eqn:Hrow; [|discriminate]. simpl in Hset.
  destruct (np_index (length row) j) as [ci|]; [|discriminate]. simpl in Hset.
  injection Hset as <-. split; [by rewrite length_insert|].
  rewrite Forall_forall in Hrows. apply Forall_forall. intros row' Hin.
  apply list_elem_of_lookup_1 in Hin as [k Hk].
  rewrite list_lookup_insert in Hk.
  destruct (decide _) as [[_ _]|_].
  - injection Hk as <-. rewrite length_insert. apply Hrows.
    eapply list_elem_of_lookup_2; eauto.
  - apply Hrows. eapply list_elem_of_lookup_2; eauto.
Qed.

Lemma np_index_None (n : nat) (i : Z) :
  i < - Z.of_nat n ∨ Z.of_nat n ≤ i → np_index n i = None.
Proof.
  intros H. unfold np_index.
  destruct (Z.leb_spec 0 i); destruct (Z.ltb_spec i (Z.of_nat n)); simpl; try lia;
    destruct (Z.leb_spec (- Z.of_nat n) i); destruct (Z.ltb_spec i 0); simpl;
    try lia; done.
Qed.

Lemma setitem_outside (d : list (list Z)) (i j v : Z) :
  grid_shape d →
  (i < - ARRSIZE ∨ ARRSIZE ≤ i ∨ j < - ARRSIZE ∨ ARRSIZE ≤ j) →
  setitem d i j v = None.
Proof.
  intros [Hlen Hrows] Hout. unfold setitem.
  destruct (np_index (length d) i) as [ri|] eqn:Hri; [|done]. simpl.
  destruct (d !! ri) as [row|] eqn:Hrow; [|done]. simpl.
  rewrite Forall_forall in Hrows.
  assert (Hrl : length row = Z.to_nat ARRSIZE)
    by (apply Hrows; eapply list_elem_of_lookup_2; eauto).
  destruct (decide (i < - ARRSIZE ∨ ARRSIZE ≤ i)) as [Hi|Hi].
  - rewrite np_index_None in Hri; [done|]. rewrite Hlen. unfold ARRSIZE in *. lia.
  - rewrite np_index_None; [done|]. rewrite Hrl. unfold ARRSIZE in *. lia.
Qed.

Lemma overlay_outside (color : Z) (l : list ref) (d : list (list Z)) (s : State)
    (r : ref) (a : Animal.t) :
  grid_shape d →
  (∀ r', r' ∈ l → is_Some (objects s !! r')) →
  r ∈ l → objects s !! r = Some a →
  (Animal.x a < - ARRSIZE ∨ ARRSIZE ≤ Animal.x a ∨
   Animal.y a < - ARRSIZE ∨ ARRSIZE ≤ Animal.y a) →
  overlay color l d s = Raise IndexError.
Proof.
  revert d. induction l as [|r0 l IH]; intros d Hshape Hvalid Hin Ha Hout.
  - exfalso. exact (not_elem_of_nil _ Hin).
  - destruct (Hvalid r0 ltac:(left)) as [a0 Ha0].
    unfold overlay in *. cbn [for_fold].
    rewrite bind_run, bind_run, (deref_run _ _ _ Ha0).
    destruct (setitem d (Animal.x a0) (Animal.y a0) color) as [d1|] eqn:Hset; [|done].
    rewrite ret_run.
    apply elem_of_cons in Hin as [->|Hin].
    + rewrite Ha in Ha0. injection Ha0 as <-.
      by rewrite (setitem_outside d _ _ _ Hshape Hout) in Hset.
    + apply IH; try done.
      * by eapply setitem_shape.
      * intros r' Hr'. apply Hvalid. by right.
Qed.

Lemma overlay_frame (color : Z) (l : list ref) (d d' : list (list Z)) (s s' : State) :
  grid_shape d →
  overlay color l d s = Ok (d', s') → s' = s ∧ grid_shape d'.
Proof.
  unfold overlay. revert d. induction l as [|r0 l IH]; intros d Hshape H1.
  - injection H1 as <- <-. done.
  - cbn [for_fold] in H1. rewrite bind_run, bind_run in H1.
    destruct (deref r0 s) as [[a0 s0]|e] eqn:Hd; [|discriminate].
    apply deref_Ok in Hd as [Ha0 ->].
    destruct (setitem d (Animal.x a0) (Animal.y a0) color) as [d1|] eqn:Hset;
      [|discriminate].
    rewrite ret_run in H1. apply (IH d1); [|exact H1]. by eapply setitem_shape.
Qed.

Lemma overlay_raises (color : Z) (l : list ref) (d : list (list Z)) (s : State)
    (e : Exception) :
  (∀ r', r' ∈ l → is_Some (objects s !! r')) →
  overlay color l d s = Raise e → e = IndexError.
Proof.
  unfold overlay. revert d. induction l as [|r0 l IH]; intros d Hv H1.
  - discriminate.
  - cbn [for_fold] in H1. destruct (Hv r0 ltac:(left)) as [a0 Ha0].
    rewrite bind_run, bind_run, (deref_run _ _ _ Ha0) in H1.
    destruct (setitem d (Animal.x a0) (Animal.y a0) color) as [d1|];
      [|by injection H1].
    rewrite ret_run in H1. apply (IH d1); [|exact H1].
    intros r' Hr'. apply Hv. by right.
Qed.

(** X7. get_display_array() does not wrap or clip: when the listed
    references all exist and some listed animal has a coordinate outside
    [-ARRSIZE, ARRSIZE), the call raises IndexError instead of returning an
    array. *)
Theorem get_display_array_out_of_field (s : State) (r : ref) (a : Animal.t) :
  grid_shape (field (self s)) →
  (∀ r', r' ∈ population s → is_Some (objects s !! r')) →
  r ∈ population s →
  objects s !! r = Some a →
  (Animal.x a < - ARRSIZE ∨ ARRSIZE ≤ Animal.x a ∨
   Animal.y a < - ARRSIZE ∨ ARRSIZE ≤ Animal.y a) →
  get_display_array s = Raise IndexError.
Proof.
  intros Hshape Hvalid Hin Ha Hout.
  assert (Hvr : ∀ r', r' ∈ rabbits (self s) → is_Some (objects s !! r'))
    by (intros r' Hr'; apply Hvalid, elem_of_app; by left).
  assert (Hvf : ∀ r', r' ∈ foxes (self s) → is_Some (objects s !! r'))
    by (intros r' Hr'; apply Hvalid, elem_of_app; by right).
  unfold get_display_array, gets. rewrite bind_run, bind_run, bind_run.
  destruct (overlay COLOR_RABBIT (rabbits (self s)) (field (self s)) s)
    as [[d1 s1]|e] eqn:H1.
  - destruct (overlay_frame _ _ _ _ _ _ Hshape H1) as [-> Hshape1].
    rewrite bind_run, bind_run.
    apply elem_of_app in Hin as [Hin|Hin].
    + rewrite (overlay_outside COLOR_RABBIT _ _ s r a Hshape Hvr Hin Ha Hout) in H1.
      discriminate.
    + by rewrite (overlay_outside COLOR_FOX _ d1 s r a Hshape1 Hvf Hin Ha Hout).
  - by rewrite (overlay_raises _ _ _ _ _ Hvr H1).
Qed.

(** A fox placed by hand at x = 65, one step past the last row. *)
Lemma get_display_array_out_of_field_witness :
  let s := mkState [Animal.mk "fox" 3 12 1 0 0 true 65 0]
                   (mkField (ones 65 65) [] [0%nat])
                   (mkRng (λ _, 0) 0) (mkRng (λ _, 0) 0) in
  get_display_array s = Raise IndexError.
Proof.
  intros s.
  apply (get_display_array_out_of_field s 0%nat (Animal.mk "fox" 3 12 1 0 0 true 65 0)).
  - split; [reflexivity|]. apply (bool_decide_unpack _). vm_compute. exact I.
  - intros r Hr. unfold population in Hr. simpl in Hr.
    apply elem_of_cons in Hr as [->|Hr]; [eexists; reflexivity|].
    exfalso. exact (not_elem_of_nil _ Hr).
  - unfold population. simpl. left.
  - reflexivity.
  - unfold ARRSIZE. simpl. lia.
Defined.

(** * The state between two generations *)

Lemma evolves_length (R : Animal.t → Animal.t → Prop) (h h' : list Animal.t) :
  (∀ r a, h !! r = Some a → ∃ a', h' !! r = Some a' ∧ R a a') →
  (length h ≤ length h')%nat.
Proof.
  intros Hev. destruct h as [|a0 h _] using rev_ind; [simpl; lia|].
  destruct (Hev (length h) a0) as (a' & Ha' & _); [by rewrite list_lookup_middle|].
  apply lookup_lt_Some in Ha'. rewrite length_app. simpl. lia.
Qed.

Lemma where_is_length (h h' : list Animal.t) :
  (∀ r, where_is h' r = where_is h r) → length h' = length h.
Proof.
  intros Hw.
  assert (Hiff : ∀ r, (r < length h')%nat ↔ (r < length h)%nat).
  { intros r. rewrite <- !lookup_lt_is_Some. specialize (Hw r). unfold where_is in Hw.
    destruct (h' !! r), (h !! r); try done; split; intros [? ?]; done. }
  destruct (Nat.lt_trichotomy (length h') (length h)) as [Hlt|[Heq|Hgt]]; [|done|].
  - apply Hiff in Hlt. lia.
  - apply Hiff in Hgt. lia.
Qed.

#[export] Instance same_but_position_refl : Reflexive same_but_position.
Proof. intros a. done. Qed.

#[export] Instance same_but_position_trans : Transitive same_but_position.
Proof.
  intros a b c (H1 & H2 & H3 & H4) (H1' & H2' & H3' & H4').
  split; [by etransitivity|]. repeat split; congruence.
Qed.

Lemma evolves_attributes_move (r : ref) : evolves same_but_position (move r).
Proof. unfold move. evolves_steps. Qed.

#[local] Hint Resolve evolves_attributes_move : evolves.

Lemma evolves_attributes_move_animals : evolves same_but_position move_animals.
Proof. unfold move_animals. evolves_steps. Qed.

Lemma fed_eaten_by (n : Z) (a : Animal.t) : 0 < n → fed a (eaten_by n a).
Proof.
  intros Hn. split; [done|]. split; [done|]. simpl. split; [lia|by right].
Qed.

Lemma fed_starved (a : Animal.t) : fed a (starved a).
Proof.
  destruct (starved_rest a) as (H1 & H2 & H3 & H4 & H5 & H6 & H7).
  split; [done|]. split; [unfold position; congruence|]. split; [lia|by left].
Qed.

Lemma fed_set_alive (b : bool) (a a' : Animal.t) :
  fed a a' → fed a (Animal.set_alive b a').
Proof. intros H. exact H. Qed.

Lemma feed_rabbits_fed (s : State) :
  NoDup (rabbits (self s)) →
  grid_shape (field (self s)) →
  (∀ r, r ∈ rabbits (self s) → placed (objects s) r) →
  ∃ s', feed_rabbits s = Ok (tt, s') ∧
    rabbits (self s') = rabbits (self s) ∧
    foxes (self s') = foxes (self s) ∧
    grid_shape (field (self s')) ∧
    (binary (field (self s)) → binary (field (self s'))) ∧
    (∀ r, where_is (objects s') r = where_is (objects s) r) ∧
    (∀ r, r ∉ rabbits (self s) → objects s' !! r = objects s !! r) ∧
    (∀ r a, r ∈ rabbits (self s) → objects s !! r = Some a →
       objects s' !! r = Some (eaten_by 1 a) ∨ objects s' !! r = Some (starved a)).
Proof.
  intros Hnd Hshape Hplaced.
  destruct (feed_rabbits_loop (rabbits (self s)) s Hnd Hshape Hplaced)
    as (h' & g' & Hloop & Hshape' & Hw' & Hother' & Hspec' & Hgrid').
  exists (with_self (with_field g' (self s)) (with_objects h' s)).
  split.
  { unfold feed_rabbits. rewrite bind_run. unfold gets. exact Hloop. }
  cbn [self objects rabbits foxes field with_self with_field with_objects].
  split; [done|]. split; [done|]. split; [done|]. split.
  { intros Hbin p v Hp Hv. rewrite (Hgrid' p Hp) in Hv.
    destruct (decide _); [injection Hv as <-; by left|by apply (Hbin p)]. }
  split; [exact Hw'|]. split; [exact Hother'|].
  intros r a Hr Ha. apply list_elem_of_split in Hr as (before & after & Hl).
  rewrite (Hspec' before r after a Hl Ha). destruct (decide _); auto.
Qed.

Lemma feed_foxes_fed (s : State) :
  NoDup (foxes (self s)) →
  (∀ f, f ∈ foxes (self s) → f ∉ rabbits (self s)) →
  (∀ r, r ∈ population s → is_Some (objects s !! r)) →
  ∃ s', feed_foxes s = Ok (tt, s') ∧
    self s' = self s ∧
    (∀ r, where_is (objects s') r = where_is (objects s) r) ∧
    (∀ f a, f ∈ foxes (self s) → objects s !! f = Some a →
       objects s' !! f = Some (starved a) ∨
       ∃ n, 0 < n ∧ objects s' !! f = Some (eaten_by n a)) ∧
    (∀ r a, r ∉ foxes (self s) → objects s !! r = Some a →
       objects s' !! r = Some a ∨ objects s' !! r = Some (Animal.set_alive false a)) ∧
    (rabbits (self s) = [] →
     ∀ f a, f ∈ foxes (self s) → objects s !! f = Some a →
       objects s' !! f = Some (starved a)).
Proof.
  intros Hnd Hdisj Hvalid.
  assert (Hvr : ∀ r, r ∈ rabbits (self s) → is_Some (objects s !! r)).
  { intros r Hr. apply Hvalid, elem_of_app. by left. }
  assert (Hvf : ∀ f, f ∈ foxes (self s) → is_Some (objects s !! f)).
  { intros f Hf. apply Hvalid, elem_of_app. by right. }
  destruct (group_rabbits_run (rabbits (self s)) ∅ s Hvr) as (d & Hgroup & Hd).
  assert (Hd' : ∀ p, d !! p =
            if decide (group_at (objects s) (rabbits (self s)) p = []) then None
            else Some (group_at (objects s) (rabbits (self s)) p)).
  { intros p. rewrite Hd, lookup_empty. by destruct (decide _). }
  destruct (feed_foxes_loop d (rabbits (self s)) (foxes (self s)) s Hd' Hnd Hdisj Hvf Hvr)
    as (h' & Hloop & Hw' & Hfox' & Hoth').
  exists (with_objects h' s). split.
  { unfold feed_foxes. rewrite bind_run. unfold gets at 1.
    rewrite bind_run, Hgroup. rewrite bind_run. unfold gets. exact Hloop. }
  cbn [self objects with_objects].
  split; [done|]. split; [exact Hw'|]. split; [|split].
  - intros f a Hf Ha. rewrite (Hfox' f a Hf Ha).
    destruct (decide (group_at (objects s) (rabbits (self s)) (position a) = []))
      as [Hnil|Hne]; [by left|].
    right. eexists. split; [|reflexivity].
    destruct (group_at (objects s) (rabbits (self s)) (position a)); [done|].
    simpl. lia.
  - intros r a Hr Ha. rewrite (Hoth' r a Hr Ha). destruct (decide _); auto.
  - intros Hnil f a Hf Ha. rewrite (Hfox' f a Hf Ha).
    rewrite decide_True; [reflexivity|]. by rewrite Hnil.
Qed.

Lemma binary_regrown (g : Rng) (f : list (list Z)) :
  grid_shape f → binary f →
  binary (zip_with (zip_with Z.max) f
            (below GRASS_RATE (samples g (Z.to_nat ARRSIZE) (Z.to_nat ARRSIZE)))).
Proof.
  intros Hshape Hbin [i j] v [Hi Hj] Hv. cbn [fst snd] in Hi, Hj, Hv.
  assert (Hi' : (Z.to_nat i < Z.to_nat ARRSIZE)%nat) by lia.
  assert (Hj' : (Z.to_nat j < Z.to_nat ARRSIZE)%nat) by lia.
  rewrite getitem_cell in Hv; [|by apply regrown_shape|done|done].
  destruct (shape_cell f _ _ Hshape Hi' Hj') as [u Hu].
  rewrite (zip_max_cell _ _ _ _ u _ Hu (below_rand_cell g _ _ _ _ Hi' Hj')) in Hv.
  injection Hv as <-.
  assert (Hu01 : u = 0 ∨ u = 1).
  { apply (Hbin (i, j)); [done|]. cbn [fst snd]. by rewrite getitem_cell. }
  destruct (Qltb _ _); lia.
Qed.

Lemma grow_grass_field (s : State) :
  grid_shape (field (self s)) →
  ∃ s', grow_grass s = Ok (tt, s') ∧
    objects s' = objects s ∧
    rabbits (self s') = rabbits (self s) ∧
    foxes (self s') = foxes (self s) ∧
    grid_shape (field (self s')) ∧
    (binary (field (self s)) → binary (field (self s'))).
Proof.
  intros Hshape. eexists. split; [exact (grow_grass_run s Hshape)|].
  cbn [objects self rabbits foxes field].
  split; [reflexivity|]. split; [reflexivity|]. split; [reflexivity|].
  split; [by apply regrown_shape|]. intros Hbin. by apply binary_regrown.
Qed.

Lemma collect_born_count (k : nat) (l acc born : list ref) (s s' : State) :
  for_fold l acc (λ born r, b ← can_reproduce r;
                    if (b : bool) then cs ← reproduce r; mret (born ++ cs)
                    else mret born) s = Ok (born, s') →
  (∀ r, r ∈ l → ∃ a, objects s !! r = Some a ∧
     0 ≤ Animal.max_offspring a ≤ Z.of_nat k) →
  (length born ≤ length acc + k * length l)%nat.
Proof.
  revert acc s. induction l as [|r0 l IH]; intros acc s Hrun Hbound.
  - simpl in Hrun. injection Hrun as <- <-. simpl. lia.
  - cbn [for_fold] in Hrun.
    apply bind_Ok in Hrun as (acc' & s1 & H1 & H2).
    apply bind_Ok in H1 as (b & s0 & Hcan & H1).
    unfold can_reproduce in Hcan.
    apply bind_Ok in Hcan as (a0 & s0' & [Ha0 ->]%deref_Ok & [= <- <-]).
    destruct (Hbound r0 ltac:(left)) as (a0' & Ha0' & Hmo0).
    rewrite Ha0 in Ha0'. injection Ha0' as <-.
    destruct (Animal.reproduction_level a0 <=? Animal.eaten a0).
    + apply bind_Ok in H1 as (cs & s1' & Hrep & [= <- <-]).
      rewrite (reproduce_run r0 s a0 Ha0 (proj1 Hmo0)) in Hrep. cbn zeta in Hrep.
      set (n := Z.to_nat (tape (rnd s) (cursor (rnd s)) mod (Animal.max_offspring a0 + 1)))
        in Hrep.
      assert (Hn : (n ≤ k)%nat).
      { pose proof (Z.mod_pos_bound (tape (rnd s) (cursor (rnd s)))
                      (Animal.max_offspring a0 + 1) ltac:(lia)).
        unfold n. lia. }
      injection Hrep as <- <-.
      apply IH in H2.
      * rewrite length_app, length_seq in H2. cbn [length]. lia.
      * intros r Hr. destruct (Hbound r ltac:(by right)) as (a & Ha & Hmo).
        cbn [objects]. pose proof (lookup_lt_Some _ _ _ Ha) as Hlt.
        rewrite lookup_app_l by (rewrite length_alter; lia).
        rewrite list_lookup_alter. destruct (decide (r0 = r)) as [->|Hne].
        -- rewrite Ha. eexists. split; [reflexivity|exact Hmo].
        -- exists a. split; [exact Ha|exact Hmo].
    + injection H1 as <- <-. apply IH in H2.
      * cbn [length]. lia.
      * intros r Hr. apply Hbound. by right.
Qed.

Lemma reproduce_animals_count (kr kf : nat) (s s' : State) :
  reproduce_animals s = Ok (tt, s') →
  (∀ r, r ∈ rabbits (self s) → ∃ a, objects s !! r = Some a ∧
     0 ≤ Animal.max_offspring a ≤ Z.of_nat kr) →
  (∀ f, f ∈ foxes (self s) → ∃ a, objects s !! f = Some a ∧
     0 ≤ Animal.max_offspring a ≤ Z.of_nat kf) →
  (length (rabbits (self s')) ≤ (1 + kr) * length (rabbits (self s)))%nat ∧
  (length (foxes (self s')) ≤ (1 + kf) * length (foxes (self s)))%nat.
Proof.
  intros Hrun Hbr Hbf.
  unfold reproduce_animals, collect_born in Hrun.
  apply bind_Ok in Hrun as (rs & s0 & [= <- <-] & Hrun).
  apply bind_Ok in Hrun as (born_r & s1 & Hr & Hrun).
  apply bind_Ok in Hrun as (fs & s1' & [= <- <-] & Hrun).
  apply bind_Ok in Hrun as (born_f & s2 & Hf & Hrun).
  apply bind_Ok in Hrun as ([] & s3 & [= <-] & Hrun).
  unfold modify in Hrun. injection Hrun as <-.
  assert (Hvr : ∀ r, r ∈ rabbits (self s) → is_Some (objects s !! r)).
  { intros r Hr'. destruct (Hbr r Hr') as (a & Ha & _). eauto. }
  destruct (collect_born_exact _ _ _ _ _ Hr Hvr) as (Hself1 & _ & _ & Hex1 & _).
  assert (Hbf1 : ∀ f, f ∈ foxes (self s1) → ∃ a, objects s1 !! f = Some a ∧
            0 ≤ Animal.max_offspring a ≤ Z.of_nat kf).
  { intros f Hf'. rewrite Hself1 in Hf'. destruct (Hbf f Hf') as (a & Ha & Hmo).
    rewrite (Hex1 f a Ha). eexists. split; [reflexivity|].
    by destruct (decide _). }
  assert (Hvf : ∀ r, r ∈ foxes (self s1) → is_Some (objects s1 !! r)).
  { intros r Hr'. destruct (Hbf1 r Hr') as (a & Ha & _). eauto. }
  destruct (collect_born_exact _ _ _ _ _ Hf Hvf) as (Hself2 & _).
  pose proof (collect_born_count kr _ _ _ _ _ Hr Hbr) as Hcr.
  pose proof (collect_born_count kf _ _ _ _ _ Hf Hbf1) as Hcf.
  cbn [self with_self with_rabbits with_foxes rabbits foxes length] in *.
  rewrite !length_app, Hself2, Hself1. rewrite Hself1 in Hcf. lia.
Qed.

(** One generation from a tidy state, phase by phase. *)
Lemma generation_tidy_exact (s : State) :
  tidy s →
  ∃ s', generation s = Ok (tt, s') ∧ tidy s' ∧
    (∀ r, r ∈ rabbits (self s') → r ∈ rabbits (self s) ∨ objects s !! r = None) ∧
    (∀ r, r ∈ foxes (self s') → r ∈ foxes (self s) ∨ objects s !! r = None) ∧
    (∀ r a', r ∈ population s' → objects s !! r = None → objects s' !! r = Some a' →
       Animal.hunger a' = 0 ∧ Animal.eaten a' = 0 ∧ Animal.alive a' = true) ∧
    (∀ r' a', r' ∈ rabbits (self s') → objects s' !! r' = Some a' →
       ∃ r a, r ∈ rabbits (self s) ∧ objects s !! r = Some a ∧ same_constants a a') ∧
    (∀ r' a', r' ∈ foxes (self s') → objects s' !! r' = Some a' →
       ∃ r a, r ∈ foxes (self s) ∧ objects s !! r = Some a ∧ same_constants a a') ∧
    (∀ kr kf : nat,
       (∀ r a, r ∈ rabbits (self s) → objects s !! r = Some a →
          Animal.max_offspring a ≤ Z.of_nat kr) →
       (∀ f a, f ∈ foxes (self s) → objects s !! f = Some a →
          Animal.max_offspring a ≤ Z.of_nat kf) →
       (length (rabbits (self s')) ≤ (1 + kr) * length (rabbits (self s)))%nat ∧
       (length (foxes (self s')) ≤ (1 + kf) * length (foxes (self s)))%nat) ∧
    (rabbits (self s) = [] →
     ∀ f' a', f' ∈ foxes (self s') → objects s' !! f' = Some a' →
       ∃ a, f' ∈ foxes (self s) ∧ objects s !! f' = Some a ∧
         Animal.hunger a' = Animal.hunger a + 1).
Proof.
  intros (Hshape & Hbin & Hnd & Hall).
  apply NoDup_app in Hnd as (Hndr & Hdisj & Hndf).
  assert (Hsound : sound (population s) s).
  { split; [done|]. intros r Hr.
    destruct (Hall r Hr) as (a & Ha & _ & _ & Hmo & _). by exists a. }
  (* move_animals *)
  destruct (move_animals_runs s Hsound) as (s1 & H1 & Hsound1 & Hself1 & Hpl1).
  pose proof (evolves_attributes_move_animals s tt s1 H1) as Hev1.
  (* feed_rabbits *)
  destruct (feed_rabbits_fed s1)
    as (s2 & H2 & Hr2 & Hf2 & Hshape2 & Hbin2 & Hw2 & Hoth2 & Hfed2).
  { by rewrite Hself1. }
  { by rewrite Hself1. }
  { intros r Hr. apply Hpl1. rewrite Hself1 in Hr. apply elem_of_app. by left. }
  rewrite Hself1 in Hr2, Hf2, Hbin2, Hoth2, Hfed2.
  assert (Hvalid2 : ∀ r, r ∈ population s → is_Some (objects s2 !! r)).
  { intros r Hr. destruct (Hpl1 r Hr) as (p & Hp & _).
    rewrite <- Hw2 in Hp. unfold where_is in Hp.
    destruct (objects s2 !! r); [eauto|done]. }
  (* feed_foxes *)
  destruct (feed_foxes_fed s2) as (s3 & H3 & Hself3 & Hw3 & Hfox3 & Hoth3 & Hnor3).
  { by rewrite Hf2. }
  { rewrite Hf2, Hr2. intros f Hf Hr. exact (Hdisj f Hr Hf). }
  { intros r Hr. apply Hvalid2. unfold population in *. by rewrite Hr2, Hf2 in Hr. }
  rewrite Hf2 in Hfox3, Hoth3, Hnor3. rewrite Hr2 in Hnor3.
  assert (Hrab3 : rabbits (self s3) = rabbits (self s)) by (by rewrite Hself3).
  assert (Hfoxes3 : foxes (self s3) = foxes (self s)) by (by rewrite Hself3).
  assert (Hlen3 : (length (objects s) ≤ length (objects s3))%nat).
  { rewrite (where_is_length _ _ Hw3), (where_is_length _ _ Hw2).
    exact (evolves_length _ _ _ Hev1). }
  (* what the first three phases leave of a listed animal *)
  assert (Hsum : ∀ r a, r ∈ population s → objects s !! r = Some a →
            ∃ a3, objects s3 !! r = Some a3 ∧ same_constants a a3 ∧
              in_field (position a3) ∧
              Animal.eaten a ≤ Animal.eaten a3 ∧
              (Animal.eaten a3 = Animal.eaten a ∨ Animal.hunger a3 = 0)).
  { intros r a Hr Ha.
    destruct (Hev1 r a Ha) as (a1 & Ha1 & Hc1 & Hh1 & He1 & Hal1).
    assert (Hin1 : in_field (position a1)).
    { destruct (Hpl1 r Hr) as (p & Hp & Hin).
      apply where_is_Some in Hp as (a1' & Ha1' & <-). congruence. }
    assert (Hfed : ∃ a3, objects s3 !! r = Some a3 ∧ fed a1 a3).
    { apply elem_of_app in Hr as [Hr|Hr].
      - assert (Hnf : r ∉ foxes (self s)) by (by apply Hdisj).
        destruct (Hfed2 r a1 Hr Ha1) as [Ha2|Ha2];
          destruct (Hoth3 r _ Hnf Ha2) as [Ha3|Ha3];
          eexists; (split; [exact Ha3|]).
        + apply fed_eaten_by. lia.
        + apply fed_set_alive, fed_eaten_by. lia.
        + apply fed_starved.
        + apply fed_set_alive, fed_starved.
      - assert (Hnr : r ∉ rabbits (self s)) by (intros Hr'; exact (Hdisj r Hr' Hr)).
        assert (Ha2 : objects s2 !! r = Some a1) by (by rewrite (Hoth2 r Hnr)).
        destruct (Hfox3 r a1 Hr Ha2) as [Ha3|(n & Hn & Ha3)];
          eexists; (split; [exact Ha3|]).
        + apply fed_starved.
        + by apply fed_eaten_by. }
    destruct Hfed as (a3 & Ha3 & Hc3 & Hpos3 & Hle3 & Hor3).
    exists a3. split; [done|]. split; [by etransitivity|].
    split; [by rewrite Hpos3|]. rewrite <- He1. done. }
  (* remove_dead *)
  pose proof (remove_dead_run s3) as H4.
  assert (Hpop3 : population s3 = population s).
  { unfold population. by rewrite Hrab3, Hfoxes3. }
  rewrite Hpop3, Hrab3, Hfoxes3 in H4.
  assert (Hvalid3 : ∀ r, r ∈ population s → is_Some (objects s3 !! r)).
  { intros r Hr. destruct (Hall r Hr) as (a & Ha & _).
    destruct (Hsum r a Hr Ha) as (a3 & Ha3 & _). eauto. }
  specialize (H4 Hvalid3).
  set (living := λ r, Animal.alive <$> objects s3 !! r = Some true) in H4.
  set (s4 := with_self _ s3) in H4.
  (* a listed animal of s4 is a living listed animal of s *)
  assert (Hsurv : ∀ r, r ∈ population s4 →
            ∃ a a3, r ∈ population s ∧ objects s !! r = Some a ∧ tidy_animal a ∧
              objects s4 !! r = Some a3 ∧ Animal.alive a3 = true ∧
              same_constants a a3 ∧ in_field (position a3) ∧
              Animal.eaten a ≤ Animal.eaten a3 ∧
              (Animal.eaten a3 = Animal.eaten a ∨ Animal.hunger a3 = 0)).
  { intros r Hr.
    assert (Hr' : living r ∧ r ∈ population s).
    { unfold population, s4 in Hr. cbn [self with_self rabbits foxes] in Hr.
      rewrite elem_of_app, !list_elem_of_filter in Hr.
      unfold population. rewrite elem_of_app. tauto. }
    destruct Hr' as [Hliv Hin]. destruct (Hall r Hin) as (a & Ha & Htidy).
    destruct (Hsum r a Hin Ha) as (a3 & Ha3 & Hrest).
    exists a, a3. split; [done|]. split; [done|]. split; [done|].
    split; [exact Ha3|]. split; [|exact Hrest].
    unfold living in Hliv. rewrite Ha3 in Hliv. by injection Hliv. }
  assert (Hsound4 : sound (population s4) s4).
  { split; [unfold s4; cbn [self with_self field]; by rewrite Hself3|].
    intros r Hr.
    destruct (Hsurv r Hr) as (a & a3 & _ & _ & Htidy & Ha3 & _ & Hc & _).
    exists a3. split; [done|].
    destruct Hc as (_ & -> & _). apply Htidy. }
  (* reproduce_animals *)
  destruct (reproduce_animals_exact s4 Hsound4)
    as (s5 & nr & nf & H5 & Hfield5 & Hrab5 & Hfox5 & Hlen5 & Hex5 & Hchr & Hchf).
  change (objects s4) with (objects s3) in Hrab5, Hfox5, Hlen5, Hex5, Hchr, Hchf.
  change (rabbits (self s4)) with (filter living (rabbits (self s))) in Hrab5, Hchr.
  change (foxes (self s4)) with (filter living (foxes (self s))) in Hfox5, Hchf.
  change (field (self s4)) with (field (self s3)) in Hfield5.
  (* grow_grass *)
  assert (Hshape5 : grid_shape (field (self s5))) by (by rewrite Hfield5, Hself3).
  destruct (grow_grass_field s5 Hshape5)
    as (s' & H6 & Hobj6 & Hrab6 & Hfox6 & Hshape6 & Hbin6).
  assert (Hgen : generation s = Ok (tt, s')).
  { unfold generation.
    rewrite bind_run, H1, bind_run, H2, bind_run, H3, bind_run, H4, bind_run, H5.
    exact H6. }
  clear H6. rewrite <- Hrab6 in Hrab5. rewrite <- Hfox6 in Hfox5.
  rewrite <- Hobj6 in Hex5, Hchr, Hchf.
  (* a listed animal of s' is a survivor or the copy of a surviving parent *)
  assert (Hlisted : ∀ r', r' ∈ population s' →
            ∃ r a a3, r ∈ population s ∧ objects s !! r = Some a ∧ tidy_animal a ∧
              Animal.alive a3 = true ∧ same_constants a a3 ∧ in_field (position a3) ∧
              Animal.eaten a ≤ Animal.eaten a3 ∧
              (Animal.eaten a3 = Animal.eaten a ∨ Animal.hunger a3 = 0) ∧
              (objects s' !! r' = Some a3 ∧ ¬ eligible a3 ∧ r' = r ∨
               objects s' !! r' = Some (Animal.set_eaten 0 a3) ∧ eligible a3 ∧
                 (r' = r ∨ objects s !! r' = None))).
  { intros r' Hr'.
    assert (Hcases : r' ∈ population s4 ∨
              r' ∈ seq (length (objects s3)) nr ∨
              r' ∈ seq (length (objects s3) + nr) nf).
    { unfold population in Hr'. rewrite Hrab5, Hfox5, !elem_of_app in Hr'.
      unfold population, s4. cbn [self with_self rabbits foxes].
      rewrite elem_of_app. tauto. }
    assert (Hparent : ∀ r a4, r ∈ population s4 → objects s3 !! r = Some a4 →
              eligible a4 → objects s' !! r' = Some (Animal.set_eaten 0 a4) →
              r' = r ∨ objects s !! r' = None →
              ∃ r a a3, r ∈ population s ∧ objects s !! r = Some a ∧ tidy_animal a ∧
                Animal.alive a3 = true ∧ same_constants a a3 ∧ in_field (position a3) ∧
                Animal.eaten a ≤ Animal.eaten a3 ∧
                (Animal.eaten a3 = Animal.eaten a ∨ Animal.hunger a3 = 0) ∧
                (objects s' !! r' = Some a3 ∧ ¬ eligible a3 ∧ r' = r ∨
                 objects s' !! r' = Some (Animal.set_eaten 0 a3) ∧ eligible a3 ∧
                   (r' = r ∨ objects s !! r' = None))).
    { intros r a4 Hr Ha4 Hel Hnew Hwho.
      destruct (Hsurv r Hr) as (a & a3 & Hin & Ha & Htidy & Ha3 & Hrest).
      change (objects s4) with (objects s3) in Ha3.
      rewrite Ha4 in Ha3. injection Ha3 as ->.
      exists r, a, a3. split; [done|]. split; [done|]. split; [done|].
      destruct Hrest as (? & ? & ? & ? & ?). repeat (split; [done|]).
      right. done. }
    destruct Hcases as [Hold|[Hnew|Hnew]].
    - destruct (Hsurv r' Hold) as (a & a3 & Hin & Ha & Htidy & Ha3 & Hrest).
      change (objects s4) with (objects s3) in Ha3.
      pose proof (Hex5 r' a3 Ha3) as Ha5.
      destruct (decide (r' ∈ population s4 ∧ eligible a3)) as [[_ Hel]|Hnel].
      + apply (Hparent r' a3 Hold Ha3 Hel Ha5). by left.
      + exists r', a, a3. split; [done|]. split; [done|]. split; [done|].
        destruct Hrest as (? & ? & ? & ? & ?). repeat (split; [done|]).
        left. split; [exact Ha5|]. split; [tauto|done].
    - destruct (Hchr r' Hnew) as (r & a4 & Hr & Ha4 & Hel & Hc).
      apply (Hparent r a4); try done.
      + unfold population, s4. cbn [self with_self rabbits foxes].
        apply elem_of_app. by left.
      + right. apply lookup_ge_None. apply elem_of_seq in Hnew. lia.
    - destruct (Hchf r' Hnew) as (r & a4 & Hr & Ha4 & Hel & Hc).
      apply (Hparent r a4); try done.
      + unfold population, s4. cbn [self with_self rabbits foxes].
        apply elem_of_app. by right.
      + right. apply lookup_ge_None. apply elem_of_seq in Hnew. lia. }
  assert (Hok' : hunger_ok_on (λ r, r ∈ population s') (objects s')).
  { apply (generation_hunger_ok s s' Hgen). intros r a Hr Ha.
    destruct (Hall r Hr) as (a0 & Ha0 & _ & _ & _ & Hh & _).
    rewrite Ha in Ha0. injection Ha0 as <-. split; [lia|]. intros _. lia. }
  assert (Hold_lt : ∀ r, r ∈ population s → (r < length (objects s3))%nat).
  { intros r Hr. apply lookup_lt_is_Some. by apply Hvalid3. }
  (* descent, list by list *)
  assert (Hdesc : ∀ (L L' : list ref) (n0 n : nat),
            (∀ r, r ∈ L → r ∈ population s) →
            L' = filter living L ++ seq n0 n →
            (∀ c, c ∈ seq n0 n →
               ∃ r a, r ∈ filter living L ∧ objects s3 !! r = Some a ∧ eligible a ∧
                 objects s' !! c = Some (Animal.set_eaten 0 a)) →
            ∀ r' a', r' ∈ L' → objects s' !! r' = Some a' →
              ∃ r a, r ∈ L ∧ objects s !! r = Some a ∧ same_constants a a').
  { intros L L' n0 n HL -> Hch r' a' Hr' Ha'.
    apply elem_of_app in Hr' as [Hr'|Hr'].
    - apply list_elem_of_filter in Hr' as [_ Hr'].
      destruct (Hall r' (HL r' Hr')) as (a & Ha & _).
      destruct (Hsum r' a (HL r' Hr') Ha) as (a3 & Ha3 & Hc & _).
      exists r', a. split; [exact Hr'|]. split; [exact Ha|].
      rewrite (Hex5 r' a3 Ha3) in Ha'. injection Ha' as <-.
      by destruct (decide _).
    - destruct (Hch r' Hr') as (r & a4 & Hr & Ha4 & _ & Hc).
      apply list_elem_of_filter in Hr as [_ Hr].
      destruct (Hall r (HL r Hr)) as (a & Ha & _).
      destruct (Hsum r a (HL r Hr) Ha) as (a3 & Ha3 & Hc3 & _).
      rewrite Ha4 in Ha3. injection Ha3 as ->.
      exists r, a. split; [exact Hr|]. split; [exact Ha|].
      rewrite Hc in Ha'. injection Ha' as <-. exact Hc3. }
  exists s'. split; [exact Hgen|].
  split; [|split; [|split; [|split; [|split; [|split; [|split]]]]]].
  - split; [exact Hshape6|]. split.
    { apply Hbin6. rewrite Hfield5, Hself3. by apply Hbin2. }
    split.
    { unfold population. rewrite Hrab5, Hfox5.
      assert (Hfr : ∀ r, r ∈ filter living (rabbits (self s)) →
                r ∈ rabbits (self s) ∧ (r < length (objects s3))%nat).
      { intros r [_ Hr]%list_elem_of_filter. split; [done|].
        apply Hold_lt, elem_of_app. by left. }
      assert (Hff : ∀ r, r ∈ filter living (foxes (self s)) →
                r ∈ foxes (self s) ∧ (r < length (objects s3))%nat).
      { intros r [_ Hr]%list_elem_of_filter. split; [done|].
        apply Hold_lt, elem_of_app. by right. }
      apply NoDup_app. split; [|split].
      - apply NoDup_app. split; [by apply NoDup_filter|]. split; [|apply NoDup_seq].
        intros r Hr Hs. apply Hfr in Hr as [_ Hlt]. apply elem_of_seq in Hs. lia.
      - intros r [Hr|Hr]%elem_of_app [Hf|Hf]%elem_of_app.
        + apply Hfr in Hr as [Hr _]. apply Hff in Hf as [Hf _]. exact (Hdisj r Hr Hf).
        + apply Hfr in Hr as [_ Hlt]. apply elem_of_seq in Hf. lia.
        + apply Hff in Hf as [_ Hlt]. apply elem_of_seq in Hr. lia.
        + apply elem_of_seq in Hr. apply elem_of_seq in Hf. lia.
      - apply NoDup_app. split; [by apply NoDup_filter|]. split; [|apply NoDup_seq].
        intros r Hr Hs. apply Hff in Hr as [_ Hlt]. apply elem_of_seq in Hs. lia. }
    intros r' Hr'.
    destruct (Hlisted r' Hr')
      as (r & a & a3 & Hin & Ha & Htidy & Hal & Hc & Hpos & Hle & Hor & Hcase).
    destruct Htidy as (_ & _ & Hmo & Hh & He).
    destruct Hc as (_ & Hmo3 & Hsl3 & Hrl3).
    destruct Hcase as [(Ha' & Hnel & _)|(Ha' & Hel & _)].
    + exists a3. split; [exact Ha'|].
      destruct (Hok' r' a3 Hr' Ha') as [Hh0 Hhlt]. specialize (Hhlt Hal).
      unfold eligible in Hnel.
      split; [done|]. split; [done|]. split; [lia|]. split; lia.
    + exists (Animal.set_eaten 0 a3). split; [exact Ha'|].
      destruct (Hok' r' _ Hr' Ha') as [Hh0 Hhlt]. specialize (Hhlt Hal).
      split; [done|]. split; [done|].
      cbn [Animal.set_eaten Animal.max_offspring Animal.hunger Animal.eaten
           Animal.starvation_level Animal.reproduction_level] in *.
      split; [lia|]. split; lia.
  - intros r' Hr'. rewrite Hrab5, elem_of_app in Hr'. destruct Hr' as [Hr'|Hr'].
    + left. by apply list_elem_of_filter in Hr' as [_ ?].
    + right. apply lookup_ge_None. apply elem_of_seq in Hr'. lia.
  - intros r' Hr'. rewrite Hfox5, elem_of_app in Hr'. destruct Hr' as [Hr'|Hr'].
    + left. by apply list_elem_of_filter in Hr' as [_ ?].
    + right. apply lookup_ge_None. apply elem_of_seq in Hr'. lia.
  - intros r' a' Hr' Hnone Ha'.
    destruct (Hlisted r' Hr')
      as (r & a & a3 & Hin & Ha & Htidy & Hal & Hc & Hpos & Hle & Hor & Hcase).
    destruct Htidy as (_ & _ & Hmo & Hh & He).
    destruct Hc as (_ & Hmo3 & Hsl3 & Hrl3).
    destruct Hcase as [(Ha3 & _ & ->)|(Ha3 & Hel & _)]; [congruence|].
    rewrite Ha3 in Ha'. injection Ha' as <-. unfold eligible in Hel. simpl.
    split; [|done]. destruct Hor as [Heq|Hz]; [lia|done].
  - apply (Hdesc (rabbits (self s)) _ (length (objects s3)) nr);
      [|exact Hrab5|exact Hchr].
    intros r Hr. apply elem_of_app. by left.
  - apply (Hdesc (foxes (self s)) _ (length (objects s3) + nr)%nat nf);
      [|exact Hfox5|exact Hchf].
    intros r Hr. apply elem_of_app. by right.
  - intros kr kf Hkr Hkf.
    assert (Hb : ∀ (k : nat) (L : list ref),
              (∀ r, r ∈ L → r ∈ population s) →
              (∀ r a, r ∈ L → objects s !! r = Some a →
                 Animal.max_offspring a ≤ Z.of_nat k) →
              ∀ r, r ∈ filter living L → ∃ a, objects s4 !! r = Some a ∧
                0 ≤ Animal.max_offspring a ≤ Z.of_nat k).
    { intros k L HL Hk r [_ Hr]%list_elem_of_filter.
      destruct (Hall r (HL r Hr)) as (a & Ha & _ & _ & Hmo & _).
      destruct (Hsum r a (HL r Hr) Ha) as (a3 & Ha3 & (_ & Hmo3 & _) & _).
      exists a3. split; [exact Ha3|]. rewrite Hmo3. split; [exact Hmo|].
      exact (Hk r a Hr Ha). }
    destruct (reproduce_animals_count kr kf s4 s5 H5) as [Hcr Hcf].
    { apply (Hb kr (rabbits (self s))); [|exact Hkr].
      intros r Hr. apply elem_of_app. by left. }
    { apply (Hb kf (foxes (self s))); [|exact Hkf].
      intros r Hr. apply elem_of_app. by right. }
    change (rabbits (self s4)) with (filter living (rabbits (self s))) in Hcr.
    change (foxes (self s4)) with (filter living (foxes (self s))) in Hcf.
    pose proof (length_filter living (rabbits (self s))) as Hlr.
    pose proof (length_filter living (foxes (self s))) as Hlf.
    rewrite Hrab6, Hfox6. split; nia.
  - intros Hnil f' a' Hf' Ha'.
    assert (Hst : ∀ f a, f ∈ foxes (self s) → objects s !! f = Some a →
              ∃ a1, objects s3 !! f = Some (starved a1) ∧
                Animal.hunger a1 = Animal.hunger a ∧ Animal.eaten a1 = Animal.eaten a ∧
                Animal.reproduction_level a1 = Animal.reproduction_level a).
    { intros f a Hf Ha. destruct (Hev1 f a Ha) as (a1 & Ha1 & Hc1 & Hh1 & He1 & _).
      assert (Hnr : f ∉ rabbits (self s)) by (rewrite Hnil; apply not_elem_of_nil).
      assert (Ha2 : objects s2 !! f = Some a1) by (by rewrite (Hoth2 f Hnr)).
      exists a1. split; [exact (Hnor3 Hnil f a1 Hf Ha2)|].
      split; [exact Hh1|]. split; [exact He1|]. apply Hc1. }
    rewrite Hfox5, elem_of_app in Hf'. destruct Hf' as [Hf'|Hf'].
    + apply list_elem_of_filter in Hf' as [_ Hf'].
      destruct (Hall f') as (a & Ha & _); [apply elem_of_app; by right|].
      destruct (Hst f' a Hf' Ha) as (a1 & Ha3 & Hh1 & _).
      exists a. split; [exact Hf'|]. split; [exact Ha|].
      rewrite (Hex5 f' _ Ha3) in Ha'. injection Ha' as <-.
      rewrite <- Hh1, <- starved_hunger. by destruct (decide _).
    + exfalso. destruct (Hchf f' Hf') as (f & a4 & Hf & Ha4 & Hel & _).
      apply list_elem_of_filter in Hf as [_ Hf].
      destruct (Hall f) as (a & Ha & _ & _ & _ & _ & He); [apply elem_of_app; by right|].
      destruct (Hst f a Hf Ha) as (a1 & Ha3 & _ & He1 & Hl1).
      rewrite Ha4 in Ha3. injection Ha3 as ->. unfold eligible in Hel.
      destruct (starved_rest a1) as (_ & _ & _ & Hrl & Hea & _).
      rewrite Hrl, Hea in Hel. lia.
Qed.

Lemma ones_binary : binary (ones (Z.to_nat ARRSIZE) (Z.to_nat ARRSIZE)).
Proof.
  intros [i j] v [Hi Hj] Hv. cbn [fst snd] in Hi, Hj, Hv.
  rewrite getitem_cell in Hv; [|apply ones_shape|done|done].
  rewrite ones_cell in Hv by lia. injection Hv as <-. by right.
Qed.

(** X8. The state between two generations is kept by generation(): from a
    field of the right shape holding 0s and 1s, whose lists name no animal
    twice and only animals that are alive, inside the field, with
    max_offspring >= 0, 0 <= hunger < starvation_level and
    0 <= eaten < reproduction_level, generation() returns, and all of this
    holds again afterwards, newborn included.  The rabbits listed
    afterwards are rabbits listed before or objects that did not exist
    before, and likewise the foxes: no animal changes list. *)
Theorem generation_keeps_population_tidy (s : State) :
  tidy s →
  ∃ s', generation s = Ok (tt, s') ∧ tidy s' ∧
    (∀ r, r ∈ rabbits (self s') → r ∈ rabbits (self s) ∨ objects s !! r = None) ∧
    (∀ r, r ∈ foxes (self s') → r ∈ foxes (self s) ∨ objects s !! r = None).
Proof.
  intros Htidy.
  destruct (generation_tidy_exact s Htidy) as (s' & Hgen & Htidy' & Hr & Hf & _).
  exists s'. split; [exact Hgen|]. split; [exact Htidy'|]. split; [exact Hr|exact Hf].
Qed.

(** A rabbit one meal from reproducing and a fox, on a full field. *)
Lemma generation_keeps_population_tidy_witness :
  let s := mkState [Animal.mk "rabbit" 1 3 2 0 1 true 5 6;
                    Animal.mk "fox" 3 12 1 0 0 true 10 10]
                   (mkField (ones 65 65) [0%nat] [1%nat])
                   (mkRng (λ _, 1) 0) (mkRng (λ n, Z.of_nat n * 2 ^ 45) 0) in
  tidy s ∧ ∃ s', generation s = Ok (tt, s') ∧ tidy s'.
Proof.
  intros s.
  assert (Htidy : tidy s).
  { split; [|split; [|split]].
    - split; [reflexivity|]. apply (bool_decide_unpack _). vm_compute. exact I.
    - exact ones_binary.
    - apply (bool_decide_unpack _). vm_compute. exact I.
    - intros r Hr. unfold population in Hr. cbn [self rabbits foxes s app] in Hr.
      repeat (apply elem_of_cons in Hr as [->|Hr]);
        try (eexists; split; [reflexivity|];
             unfold tidy_animal, in_field, ARRSIZE; simpl; repeat split; lia).
      exfalso. exact (not_elem_of_nil _ Hr). }
  split; [exact Htidy|].
  destruct (generation_keeps_population_tidy s Htidy) as (s' & Hgen & Htidy' & _).
  exists s'. split; [exact Hgen|exact Htidy'].
Defined.

(** X9. In a generation() that starts from such a state, every animal
    listed afterwards that did not exist before - every newborn - has
    hunger 0, eaten 0 and is alive: a parent can only have reached its
    reproduction level by eating in this very generation, which reset its
    hunger, and it was copied after its own eaten was reset. *)
Theorem generation_newborns_start_fresh (s s' : State) (r : ref) (a' : Animal.t) :
  tidy s →
  generation s = Ok (tt, s') →
  r ∈ population s' →
  objects s !! r = None →
  objects s' !! r = Some a' →
  Animal.hunger a' = 0 ∧ Animal.eaten a' = 0 ∧ Animal.alive a' = true.
Proof.
  intros Htidy Hgen Hr Hnone Ha'.
  destruct (generation_tidy_exact s Htidy) as (s'' & Hgen' & _ & _ & _ & Hnew & _).
  rewrite Hgen in Hgen'. injection Hgen' as <-.
  exact (Hnew r a' Hr Hnone Ha').
Qed.

(** The rabbit eats, reaches its reproduction level and has one
    offspring, object 2. *)
Lemma generation_newborns_start_fresh_witness :
  let s := mkState [Animal.mk "rabbit" 1 3 2 0 1 true 5 6;
                    Animal.mk "fox" 3 12 1 0 0 true 10 10]
                   (mkField (ones 65 65) [0%nat] [1%nat])
                   (mkRng (λ _, 1) 0) (mkRng (λ n, Z.of_nat n * 2 ^ 45) 0) in
  ∃ s' a', generation s = Ok (tt, s') ∧
    rabbits (self s') = [0; 2]%nat ∧
    objects s' !! 2%nat = Some a' ∧
    Animal.hunger a' = 0 ∧ Animal.eaten a' = 0 ∧ Animal.alive a' = true.
Proof.
  intros s.
  assert (Htidy : tidy s).
  { split; [|split; [|split]].
    - split; [reflexivity|]. apply (bool_decide_unpack _). vm_compute. exact I.
    - exact ones_binary.
    - apply (bool_decide_unpack _). vm_compute. exact I.
    - intros r Hr. unfold population in Hr. cbn [self rabbits foxes s app] in Hr.
      repeat (apply elem_of_cons in Hr as [->|Hr]);
        try (eexists; split; [reflexivity|];
             unfold tidy_animal, in_field, ARRSIZE; simpl; repeat split; lia).
      exfalso. exact (not_elem_of_nil _ Hr). }
  assert (Hret : match generation s with
                 | Ok (_, s') =>
                     bool_decide (rabbits (self s') = [0; 2]%nat) &&
                     bool_decide (is_Some (objects s' !! 2%nat))
                 | Raise _ => false
                 end = true)
    by (vm_compute; reflexivity).
  destruct (generation s) as [[[] s']|e] eqn:Hgen; [|discriminate].
  apply andb_prop in Hret as [Hrab Hobj].
  apply bool_decide_eq_true_1 in Hrab. apply bool_decide_eq_true_1 in Hobj.
  destruct Hobj as [a' Ha'].
  exists s', a'. split; [reflexivity|]. split; [exact Hrab|]. split; [exact Ha'|].
  apply (generation_newborns_start_fresh s s' 2%nat a' Htidy Hgen).
  - unfold population. rewrite Hrab. apply elem_of_app. left. right. left.
  - reflexivity.
  - exact Ha'.
Defined.

(** * main(): the set-up *)

Lemma tidy_valid (s : State) (r : ref) :
  tidy s → r ∈ population s → (r < length (objects s))%nat.
Proof.
  intros (_ & _ & _ & Hall) Hr. destruct (Hall r Hr) as (a & Ha & _).
  by eapply lookup_lt_Some.
Qed.

Lemma spawn_set_up (species : string) (mo sl rl : Z) (s : State) :
  (species = "rabbit"%string ∧ mo = 1 ∧ sl = 3 ∧ rl = 2) ∨
  (species = "fox"%string ∧ mo = 3 ∧ sl = 12 ∧ rl = 1) →
  set_up s →
  ∃ s', (r ← Animal_init species mo sl rl; add_animal r) s = Ok (tt, s') ∧ set_up s'.
Proof.
  intros Hkind (Htidy & Hfield & Hrab & Hfox).
  pose proof (tidy_valid s) as Hlt. specialize (λ r, Hlt r Htidy).
  destruct Htidy as (Hshape & Hbin & Hnd & Hall).
  rewrite bind_run, Animal_init_run.
  set (px := tape (rnd s) (cursor (rnd s)) mod ARRSIZE).
  set (py := tape (rnd s) (S (cursor (rnd s))) mod ARRSIZE).
  set (a := Animal.mk species mo sl rl 0 0 true px py).
  set (s1 := mkState _ _ _ _).
  assert (Ha : objects s1 !! length (objects s) = Some a).
  { unfold s1. cbn [objects]. by rewrite list_lookup_middle. }
  assert (Hta : tidy_animal a).
  { split; [reflexivity|]. split.
    { split; apply Z.mod_pos_bound; unfold ARRSIZE; lia. }
    unfold a. cbn [Animal.max_offspring Animal.hunger Animal.starvation_level
                   Animal.eaten Animal.reproduction_level].
    destruct Hkind as [(_ & -> & -> & ->)|(_ & -> & -> & ->)]; lia. }
  assert (Hold : ∀ r, r ∈ population s → objects s1 !! r = objects s !! r).
  { intros r Hr. unfold s1. cbn [objects]. apply lookup_app_l. by apply Hlt. }
  assert (Hfresh : length (objects s) ∉ population s).
  { intros Hin. specialize (Hlt _ Hin). lia. }
  assert (Hnd' : NoDup (length (objects s) :: population s)).
  { apply NoDup_cons. split; [exact Hfresh|exact Hnd]. }
  destruct Hkind as [(-> & -> & -> & ->)|(-> & -> & -> & ->)].
  - rewrite (add_animal_rabbit s1 _ a Ha eq_refl).
    eexists. split; [reflexivity|].
    unfold set_up, tidy, population.
    cbn [self with_self with_rabbits field rabbits foxes objects].
    change (self s1) with (self s). change (objects (with_self _ s1)) with (objects s1).
    split; [split; [exact Hshape|split; [exact Hbin|split]]|split; [exact Hfield|split]].
    + rewrite <- app_assoc. cbn [app].
      eapply NoDup_Permutation_proper; [|exact Hnd']. symmetry. apply Permutation_middle.
    + intros r [[Hr| ->%list_elem_of_singleton]%elem_of_app|Hr]%elem_of_app.
      * rewrite Hold by (apply elem_of_app; by left). apply Hall, elem_of_app. by left.
      * exists a. split; [exact Ha|exact Hta].
      * rewrite Hold by (apply elem_of_app; by right). apply Hall, elem_of_app. by right.
    + intros r [Hr| ->%list_elem_of_singleton]%elem_of_app.
      * rewrite Hold by (apply elem_of_app; by left). by apply Hrab.
      * exists px, py. exact Ha.
    + intros f Hf. rewrite Hold by (apply elem_of_app; by right). by apply Hfox.
  - rewrite (add_animal_fox s1 _ a Ha eq_refl).
    eexists. split; [reflexivity|].
    unfold set_up, tidy, population.
    cbn [self with_self with_foxes field rabbits foxes objects].
    change (self s1) with (self s). change (objects (with_self _ s1)) with (objects s1).
    split; [split; [exact Hshape|split; [exact Hbin|split]]|split; [exact Hfield|split]].
    + rewrite app_assoc.
      eapply NoDup_Permutation_proper; [|exact Hnd']. symmetry. apply Permutation_cons_append.
    + intros r [Hr|[Hr| ->%list_elem_of_singleton]%elem_of_app]%elem_of_app.
      * rewrite Hold by (apply elem_of_app; by left). apply Hall, elem_of_app. by left.
      * rewrite Hold by (apply elem_of_app; by right). apply Hall, elem_of_app. by right.
      * exists a. split; [exact Ha|exact Hta].
    + intros r Hr. rewrite Hold by (apply elem_of_app; by left). by apply Hrab.
    + intros f [Hf| ->%list_elem_of_singleton]%elem_of_app.
      * rewrite Hold by (apply elem_of_app; by right). by apply Hfox.
      * exists px, py. exact Ha.
Qed.

Lemma main_setup_set_up (s : State) :
  ∃ s0, main_setup s = Ok (tt, s0) ∧ set_up s0 ∧
    length (rabbits (self s0)) = INIT_RABBITS ∧
    length (foxes (self s0)) = INIT_FOXES.
Proof.
  destruct (simulation_runs 0 s) as [(s0 & H0 & Hnr & Hnf) _].
  exists s0. split; [exact H0|]. split; [|split; [exact Hnr|exact Hnf]].
  clear Hnr Hnf. unfold main_setup in H0.
  set (s1 := with_self (mkField (ones (Z.to_nat ARRSIZE) (Z.to_nat ARRSIZE)) [] []) s).
  assert (Hs1 : set_up s1).
  { split; [split; [apply ones_shape|split; [apply ones_binary|split]]|].
    - apply NoDup_nil_2.
    - intros r Hr. exfalso. exact (not_elem_of_nil _ Hr).
    - split; [reflexivity|]. split; intros r Hr; exfalso; exact (not_elem_of_nil _ Hr). }
  destruct (for_each_runs set_up (seq 0 INIT_RABBITS)
              (λ _, r ← Animal_init "rabbit" 1 3 2; add_animal r)) with (s := s1)
    as (s2 & H2 & Hs2); [|exact Hs1|].
  { intros _ s' _ Hs'. apply spawn_set_up; [left; repeat split|exact Hs']. }
  destruct (for_each_runs set_up (seq 0 INIT_FOXES)
              (λ _, r ← Animal_init "fox" 3 12 1; add_animal r)) with (s := s2)
    as (s3 & H3 & Hs3); [|exact Hs2|].
  { intros _ s' _ Hs'. apply spawn_set_up; [right; repeat split|exact Hs']. }
  assert (H0' : (Field_init;;
                 for_each (seq 0 INIT_RABBITS)
                   (λ _, r ← Animal_init "rabbit" 1 3 2; add_animal r);;
                 for_each (seq 0 INIT_FOXES)
                   (λ _, r ← Animal_init "fox" 3 12 1; add_animal r)) s = Ok (tt, s3)).
  { rewrite bind_run. change (Field_init s) with (Ok (tt, s1) : Result (unit * State)).
    cbn beta iota. rewrite bind_run, H2. exact H3. }
  rewrite H0' in H0. injection H0 as <-. exact Hs3.
Qed.

(** X10. Whatever state it starts in and whatever the draws, the set-up of
    main() does not raise.  It leaves a field of shape (ARRSIZE, ARRSIZE)
    that is all grass, INIT_RABBITS rabbits and INIT_FOXES foxes, no animal
    listed twice; every rabbit is Animal("rabbit", 1, 3, 2) and every fox
    Animal("fox", 3, 12, 1) as constructed - hunger 0, eaten 0, alive, at
    some position - and stands inside the field. *)
Theorem main_setup_populates_field (s : State) :
  ∃ s0, main_setup s = Ok (tt, s0) ∧
    field (self s0) = ones (Z.to_nat ARRSIZE) (Z.to_nat ARRSIZE) ∧
    length (rabbits (self s0)) = INIT_RABBITS ∧
    length (foxes (self s0)) = INIT_FOXES ∧
    NoDup (rabbits (self s0) ++ foxes (self s0)) ∧
    (∀ r, r ∈ rabbits (self s0) →
       ∃ px py, objects s0 !! r = Some (Animal.mk "rabbit" 1 3 2 0 0 true px py) ∧
         0 ≤ px < ARRSIZE ∧ 0 ≤ py < ARRSIZE) ∧
    (∀ f, f ∈ foxes (self s0) →
       ∃ px py, objects s0 !! f = Some (Animal.mk "fox" 3 12 1 0 0 true px py) ∧
         0 ≤ px < ARRSIZE ∧ 0 ≤ py < ARRSIZE).
Proof.
  destruct (main_setup_set_up s)
    as (s0 & H0 & ((_ & _ & Hnd & Hall) & Hfield & Hrab & Hfox) & Hnr & Hnf).
  exists s0. split; [exact H0|]. split; [exact Hfield|].
  split; [exact Hnr|]. split; [exact Hnf|]. split; [exact Hnd|]. split.
  - intros r Hr. destruct (Hrab r Hr) as (px & py & Ha). exists px, py.
    split; [exact Ha|].
    destruct (Hall r) as (a & Ha' & _ & Hin & _); [apply elem_of_app; by left|].
    rewrite Ha in Ha'. injection Ha' as <-. exact Hin.
  - intros f Hf. destruct (Hfox f Hf) as (px & py & Ha). exists px, py.
    split; [exact Ha|].
    destruct (Hall f) as (a & Ha' & _ & Hin & _); [apply elem_of_app; by right|].
    rewrite Ha in Ha'. injection Ha' as <-. exact Hin.
Qed.

(** * animate() and the frames of main() *)

Lemma tidy_placed (s : State) (r : ref) :
  tidy s → r ∈ population s → placed (objects s) r.
Proof.
  intros (_ & _ & _ & Hall) Hr. destruct (Hall r Hr) as (a & Ha & _ & Hin & _).
  exists (position a). split; [|exact Hin]. unfold where_is. by rewrite Ha.
Qed.

Lemma animate_run (i : Z) (rabbit_counts fox_counts : list Z) (s : State) :
  tidy s →
  ∃ s' d,
    generation s = Ok (tt, s') ∧ tidy s' ∧
    get_display_array s' = Ok (d, s') ∧
    animate i rabbit_counts fox_counts s =
      Ok ((mkFrame d (frame_title i (Z.of_nat (length (rabbits (self s'))))
                                    (Z.of_nat (length (foxes (self s'))))),
           rabbit_counts ++ [Z.of_nat (length (rabbits (self s')))],
           fox_counts ++ [Z.of_nat (length (foxes (self s')))]), s') ∧
    (∀ p v, in_field p → getitem d p.1 p.2 = Some v →
       v = COLOR_EMPTY ∨ v = COLOR_GRASS ∨ v = COLOR_RABBIT ∨ v = COLOR_FOX).
Proof.
  intros Htidy.
  destruct (generation_tidy_exact s Htidy) as (s' & Hgen & Htidy' & _).
  destruct (get_display_array_run s') as (d & Hd & _ & _ & Hcol).
  { apply Htidy'. }
  { intros r Hr. by apply tidy_placed. }
  exists s', d. split; [exact Hgen|]. split; [exact Htidy'|]. split; [exact Hd|].
  split.
  - unfold animate. rewrite bind_run, Hgen, bind_run, Hd. reflexivity.
  - apply Hcol. apply Htidy'.
Qed.

(** X11. From a state as generation() keeps it, animate(i, ...) does not
    raise.  It leaves the field exactly as one generation() does - drawing
    changes nothing - appends the numbers of rabbits and of foxes listed
    after that generation to rabbit_counts and fox_counts, shows an array
    holding only the four colour codes, and titles it with the frame
    number and the two counts. *)
Theorem animate_steps_and_logs (i : Z) (rabbit_counts fox_counts : list Z) (s : State) :
  tidy s →
  ∃ s' d,
    generation s = Ok (tt, s') ∧
    get_display_array s' = Ok (d, s') ∧
    animate i rabbit_counts fox_counts s =
      Ok ((mkFrame d ("Gen: " +:+ pretty i +:+
                      "  Rabbits: " +:+ pretty (Z.of_nat (length (rabbits (self s')))) +:+
                      "  Foxes: " +:+ pretty (Z.of_nat (length (foxes (self s'))))),
           rabbit_counts ++ [Z.of_nat (length (rabbits (self s')))],
           fox_counts ++ [Z.of_nat (length (foxes (self s')))]), s') ∧
    (∀ p v, in_field p → getitem d p.1 p.2 = Some v →
       v = COLOR_EMPTY ∨ v = COLOR_GRASS ∨ v = COLOR_RABBIT ∨ v = COLOR_FOX).
Proof.
  intros Htidy.
  destruct (animate_run i rabbit_counts fox_counts s Htidy)
    as (s' & d & Hgen & _ & Hd & Hrun & Hcol).
  exists s', d. split; [exact Hgen|]. split; [exact Hd|]. split; [exact Hrun|exact Hcol].
Qed.

(** Frame 7 on a rabbit and a fox, with one count logged already. *)
Lemma animate_steps_and_logs_witness :
  let s := mkState [Animal.mk "rabbit" 1 3 2 0 1 true 5 6;
                    Animal.mk "fox" 3 12 1 0 0 true 10 10]
                   (mkField (ones 65 65) [0%nat] [1%nat])
                   (mkRng (λ _, 1) 0) (mkRng (λ n, Z.of_nat n * 2 ^ 45) 0) in
  ∃ s' f, animate 7 [1] [1] s =
            Ok ((f, [1; Z.of_nat (length (rabbits (self s')))],
                    [1; Z.of_nat (length (foxes (self s')))]), s') ∧
    generation s = Ok (tt, s').
Proof.
  intros s.
  assert (Htidy : tidy s).
  { split; [|split; [|split]].
    - split; [reflexivity|]. apply (bool_decide_unpack _). vm_compute. exact I.
    - exact ones_binary.
    - apply (bool_decide_unpack _). vm_compute. exact I.
    - intros r Hr. unfold population in Hr. cbn [self rabbits foxes s app] in Hr.
      repeat (apply elem_of_cons in Hr as [->|Hr]);
        try (eexists; split; [reflexivity|];
             unfold tidy_animal, in_field, ARRSIZE; simpl; repeat split; lia).
      exfalso. exact (not_elem_of_nil _ Hr). }
  destruct (animate_steps_and_logs 7 [1] [1] s Htidy) as (s' & d & Hgen & _ & Hrun & _).
  exists s'. eexists. split; [exact Hrun|exact Hgen].
Defined.

Lemma play_run (frames : list Z) (played : list Frame) (rabbit_counts fox_counts : list Z)
    (s : State) :
  tidy s →
  ∃ (pl : list Frame) (nr nf : list Z) (s' : State),
    play frames played rabbit_counts fox_counts s =
      Ok ((played ++ pl, rabbit_counts ++ nr, fox_counts ++ nf), s') ∧
    tidy s' ∧
    times (length frames) generation s = Ok (tt, s') ∧
    length pl = length frames ∧ length nr = length frames ∧ length nf = length frames ∧
    ∀ k i, frames !! k = Some i →
      ∃ sk, times (S k) generation s = Ok (tt, sk) ∧
        nr !! k = Some (Z.of_nat (length (rabbits (self sk)))) ∧
        nf !! k = Some (Z.of_nat (length (foxes (self sk)))) ∧
        title <$> pl !! k =
          Some (frame_title i (Z.of_nat (length (rabbits (self sk))))
                              (Z.of_nat (length (foxes (self sk))))).
Proof.
  revert played rabbit_counts fox_counts s.
  induction frames as [|i frames IH]; intros played rc fc s Htidy.
  - exists [], [], [], s. cbn [play times length]. rewrite !app_nil_r.
    split; [reflexivity|]. split; [exact Htidy|]. split; [reflexivity|].
    split; [reflexivity|]. split; [reflexivity|]. split; [reflexivity|].
    intros k j Hk. by rewrite lookup_nil in Hk.
  - destruct (animate_run i rc fc s Htidy) as (s1 & d & Hgen & Htidy1 & _ & Hrun & _).
    set (n1 := Z.of_nat (length (rabbits (self s1)))) in *.
    set (m1 := Z.of_nat (length (foxes (self s1)))) in *.
    destruct (IH (played ++ [mkFrame d (frame_title i n1 m1)]) (rc ++ [n1]) (fc ++ [m1])
                s1 Htidy1)
      as (pl & nr & nf & s' & Hplay & Htidy' & Htimes & Hlp & Hlr & Hlf & Hat).
    exists (mkFrame d (frame_title i n1 m1) :: pl), (n1 :: nr), (m1 :: nf), s'.
    split.
    { cbn [play]. rewrite bind_run, Hrun. cbn beta iota. rewrite Hplay.
      by rewrite <- !app_assoc. }
    split; [exact Htidy'|]. split.
    { cbn [length times]. by rewrite bind_run, Hgen. }
    cbn [length]. split; [by rewrite Hlp|]. split; [by rewrite Hlr|].
    split; [by rewrite Hlf|].
    intros [|k] j Hk.
    + injection Hk as <-. exists s1. split.
      { cbn [times]. by rewrite bind_run, Hgen. }
      split; [reflexivity|]. split; reflexivity.
    + destruct (Hat k j Hk) as (sk & Hsk & Hrest). exists sk. split; [|exact Hrest].
      change (times (S (S k)) generation) with (generation;; times (S k) generation).
      by rewrite bind_run, Hgen.
Qed.

(** X12. main() run over any sequence of frame numbers does not raise.
    The array first shown is the display of the state the set-up leaves;
    every frame played is one generation; rabbit_counts and fox_counts end
    with one entry per frame, entry k being the numbers of rabbits and
    foxes listed after k + 1 generations, which frame k also has in its
    title; and the state at the end is the one the set-up followed by as
    many generations as frames leaves. *)
Theorem main_logs_every_generation (frames : list Z) (s : State) :
  ∃ (first : list (list Z)) (played : list Frame) (rabbit_counts fox_counts : list Z)
    (s0 s' : State),
    main frames s = Ok ((first, played, rabbit_counts, fox_counts), s') ∧
    main_setup s = Ok (tt, s0) ∧
    get_display_array s0 = Ok (first, s0) ∧
    (main_setup;; times (length frames) generation) s = Ok (tt, s') ∧
    length played = length frames ∧
    length rabbit_counts = length frames ∧
    length fox_counts = length frames ∧
    ∀ k i, frames !! k = Some i →
      ∃ sk, (main_setup;; times (S k) generation) s = Ok (tt, sk) ∧
        rabbit_counts !! k = Some (Z.of_nat (length (rabbits (self sk)))) ∧
        fox_counts !! k = Some (Z.of_nat (length (foxes (self sk)))) ∧
        title <$> played !! k =
          Some ("Gen: " +:+ pretty i +:+
                "  Rabbits: " +:+ pretty (Z.of_nat (length (rabbits (self sk)))) +:+
                "  Foxes: " +:+ pretty (Z.of_nat (length (foxes (self sk))))).
Proof.
  destruct (main_setup_set_up s) as (s0 & H0 & (Htidy0 & _) & _).
  destruct (get_display_array_run s0) as (first & Hfirst & _).
  { apply Htidy0. }
  { intros r Hr. by apply tidy_placed. }
  destruct (play_run frames [] [] [] s0 Htidy0)
    as (pl & nr & nf & s' & Hplay & _ & Htimes & Hlp & Hlr & Hlf & Hat).
  exists first, pl, nr, nf, s0, s'.
  split.
  { unfold main. rewrite bind_run, H0, bind_run, Hfirst, bind_run, Hplay. reflexivity. }
  split; [exact H0|]. split; [exact Hfirst|]. split.
  { rewrite bind_run, H0. exact Htimes. }
  split; [exact Hlp|]. split; [exact Hlr|]. split; [exact Hlf|].
  intros k i Hk. destruct (Hat k i Hk) as (sk & Hsk & Hrest).
  exists sk. split; [|exact Hrest]. rewrite bind_run, H0. exact Hsk.
Qed.

(** * Nothing revives an animal *)

#[export] Instance no_revival_refl : Reflexive no_revival.
Proof. intros a H. exact H. Qed.

#[export] Instance no_revival_trans : Transitive no_revival.
Proof. intros a b c H1 H2 H. exact (H2 (H1 H)). Qed.

Lemma evolves_dead_move (r : ref) : evolves no_revival (move r).
Proof. unfold move. evolves_steps. Qed.

Lemma evolves_dead_eat (r : ref) (n : Z) : evolves no_revival (eat r n).
Proof. unfold eat. evolves_steps. Qed.

Lemma evolves_dead_starve (r : ref) : evolves no_revival (starve r).
Proof. unfold starve. evolves_steps. Qed.

Lemma evolves_dead_reproduce (r : ref) : evolves no_revival (reproduce r).
Proof. unfold reproduce, randint, deepcopy. evolves_steps. Qed.

#[local] Hint Resolve evolves_dead_move evolves_dead_eat
  evolves_dead_starve evolves_dead_reproduce : evolves.

Lemma evolves_dead_generation : evolves no_revival generation.
Proof.
  unfold generation, move_animals, feed_rabbits, feed_rabbits_body, feed_foxes,
    group_rabbit, feed_foxes_body, reproduce_animals, collect_born, can_reproduce.
  evolves_steps.
Qed.

(** X13. No method sets alive back to True: an object that is dead when
    eat(), starve(), move(), reproduce() or a whole generation() is called
    and returns is still there and still dead afterwards - a dead animal
    that eats has its hunger reset but stays dead, and nothing it is
    removed from gets it back. *)
Theorem dead_animals_stay_dead (s s' : State) (r : ref) (a : Animal.t) :
  objects s !! r = Some a →
  Animal.alive a = false →
  (generation s = Ok (tt, s') ∨
   (∃ r0 n, eat r0 n s = Ok (tt, s')) ∨
   (∃ r0, starve r0 s = Ok (tt, s')) ∨
   (∃ r0, move r0 s = Ok (tt, s')) ∨
   (∃ r0 born, reproduce r0 s = Ok (born, s'))) →
  ∃ a', objects s' !! r = Some a' ∧ Animal.alive a' = false.
Proof.
  intros Ha Hdead Hrun.
  assert (Hev : ∃ a', objects s' !! r = Some a' ∧ no_revival a a').
  { destruct Hrun as [Hrun|[(r0 & n & Hrun)|[(r0 & Hrun)|[(r0 & Hrun)|(r0 & born & Hrun)]]]].
    - exact (evolves_dead_generation s tt s' Hrun r a Ha).
    - exact (evolves_dead_eat r0 n s tt s' Hrun r a Ha).
    - exact (evolves_dead_starve r0 s tt s' Hrun r a Ha).
    - exact (evolves_dead_move r0 s tt s' Hrun r a Ha).
    - exact (evolves_dead_reproduce r0 s born s' Hrun r a Ha). }
  destruct Hev as (a' & Ha' & Hno). exists a'. split; [exact Ha'|exact (Hno Hdead)].
Qed.

(** A dead fox eats two rabbits' worth. *)
Lemma dead_animals_stay_dead_witness :
  let a := Animal.mk "fox" 3 12 1 12 0 false 4 4 in
  let s := mkState [a] (mkField (ones 65 65) [] [0%nat])
                   (mkRng (λ _, 0) 0) (mkRng (λ _, 0) 0) in
  ∃ s' a', eat 0%nat 2 s = Ok (tt, s') ∧
    objects s' !! 0%nat = Some a' ∧ Animal.alive a' = false.
Proof.
  intros a s.
  assert (Hrun : eat 0%nat 2 s =
                 Ok (tt, with_objects (alter (eaten_by 2) 0%nat (objects s)) s))
    by exact (eat_run 0%nat 2 s a eq_refl).
  destruct (dead_animals_stay_dead s _ 0%nat a eq_refl eq_refl
              (or_intror (or_introl (ex_intro _ 0%nat (ex_intro _ 2 Hrun)))))
    as (a' & Ha' & Hdead).
  eexists _, a'. split; [exact Hrun|]. split; [exact Ha'|exact Hdead].
Defined.

(** * Descent and growth over generations *)

(** X14. In a generation() from a state as the simulation keeps it, every
    rabbit listed afterwards is, or is the copy of, a rabbit listed before
    and has that rabbit's species, max_offspring, starvation_level and
    reproduction_level; likewise every fox.  So the two lists never mix,
    and a list that is empty stays empty: an extinct species does not come
    back. *)
Theorem generation_keeps_descent (s s' : State) :
  tidy s →
  generation s = Ok (tt, s') →
  (∀ r' a', r' ∈ rabbits (self s') → objects s' !! r' = Some a' →
     ∃ r a, r ∈ rabbits (self s) ∧ objects s !! r = Some a ∧
       Animal.species a' = Animal.species a ∧
       Animal.max_offspring a' = Animal.max_offspring a ∧
       Animal.starvation_level a' = Animal.starvation_level a ∧
       Animal.reproduction_level a' = Animal.reproduction_level a) ∧
  (∀ f' a', f' ∈ foxes (self s') → objects s' !! f' = Some a' →
     ∃ f a, f ∈ foxes (self s) ∧ objects s !! f = Some a ∧
       Animal.species a' = Animal.species a ∧
       Animal.max_offspring a' = Animal.max_offspring a ∧
       Animal.starvation_level a' = Animal.starvation_level a ∧
       Animal.reproduction_level a' = Animal.reproduction_level a) ∧
  (rabbits (self s) = [] → rabbits (self s') = []) ∧
  (foxes (self s) = [] → foxes (self s') = []).
Proof.
  intros Htidy Hgen.
  destruct (generation_tidy_exact s Htidy)
    as (s'' & Hgen' & Htidy' & _ & _ & _ & Hdr & Hdf & _).
  rewrite Hgen in Hgen'. injection Hgen' as <-.
  split; [exact Hdr|]. split; [exact Hdf|].
  destruct Htidy' as (_ & _ & _ & Hall'). split.
  - intros Hnil. apply elem_of_nil_inv. intros r' Hr'.
    destruct (Hall' r') as (a' & Ha' & _); [apply elem_of_app; by left|].
    destruct (Hdr r' a' Hr' Ha') as (r & a & Hr & _).
    rewrite Hnil in Hr. exact (not_elem_of_nil _ Hr).
  - intros Hnil. apply elem_of_nil_inv. intros f' Hf'.
    destruct (Hall' f') as (a' & Ha' & _); [apply elem_of_app; by right|].
    destruct (Hdf f' a' Hf' Ha') as (f & a & Hf & _).
    rewrite Hnil in Hf. exact (not_elem_of_nil _ Hf).
Qed.

(** X15. In such a generation() a list grows by at most the litters of
    the animals it held: if no listed rabbit has max_offspring above kr,
    there are at most (1 + kr) times as many rabbits afterwards, and
    likewise the foxes with their bound kf. *)
Theorem generation_growth_bound (s s' : State) (kr kf : nat) :
  tidy s →
  generation s = Ok (tt, s') →
  (∀ r a, r ∈ rabbits (self s) → objects s !! r = Some a →
     Animal.max_offspring a ≤ Z.of_nat kr) →
  (∀ f a, f ∈ foxes (self s) → objects s !! f = Some a →
     Animal.max_offspring a ≤ Z.of_nat kf) →
  (length (rabbits (self s')) ≤ (1 + kr) * length (rabbits (self s)))%nat ∧
  (length (foxes (self s')) ≤ (1 + kf) * length (foxes (self s)))%nat.
Proof.
  intros Htidy Hgen Hkr Hkf.
  destruct (generation_tidy_exact s Htidy)
    as (s'' & Hgen' & _ & _ & _ & _ & _ & _ & Hcount & _).
  rewrite Hgen in Hgen'. injection Hgen' as <-.
  exact (Hcount kr kf Hkr Hkf).
Qed.

Lemma tidy_pair :
  tidy (mkState [Animal.mk "rabbit" 1 3 2 0 1 true 5 6;
                 Animal.mk "fox" 3 12 1 0 0 true 10 10]
                (mkField (ones 65 65) [0%nat] [1%nat])
                (mkRng (λ _, 1) 0) (mkRng (λ n, Z.of_nat n * 2 ^ 45) 0)).
Proof.
  split; [|split; [|split]].
  - split; [reflexivity|]. apply (bool_decide_unpack _). vm_compute. exact I.
  - exact ones_binary.
  - apply (bool_decide_unpack _). vm_compute. exact I.
  - intros r Hr. unfold population in Hr. cbn [self rabbits foxes app] in Hr.
    repeat (apply elem_of_cons in Hr as [->|Hr]);
      try (eexists; split; [reflexivity|];
           unfold tidy_animal, in_field, ARRSIZE; simpl; repeat split; lia).
    exfalso. exact (not_elem_of_nil _ Hr).
Defined.

(** A rabbit and a fox: afterwards no fox is listed that is not a fox. *)
Lemma generation_keeps_descent_witness :
  let s := mkState [Animal.mk "rabbit" 1 3 2 0 1 true 5 6;
                    Animal.mk "fox" 3 12 1 0 0 true 10 10]
                   (mkField (ones 65 65) [0%nat] [1%nat])
                   (mkRng (λ _, 1) 0) (mkRng (λ n, Z.of_nat n * 2 ^ 45) 0) in
  ∃ s', generation s = Ok (tt, s') ∧
    ∀ f' a', f' ∈ foxes (self s') → objects s' !! f' = Some a' →
      ∃ f a, f ∈ foxes (self s) ∧ objects s !! f = Some a ∧
        Animal.species a' = Animal.species a ∧
        Animal.max_offspring a' = Animal.max_offspring a ∧
        Animal.starvation_level a' = Animal.starvation_level a ∧
        Animal.reproduction_level a' = Animal.reproduction_level a.
Proof.
  intros s.
  assert (Hret : match generation s with Ok _ => true | Raise _ => false end = true)
    by (vm_compute; reflexivity).
  destruct (generation s) as [[[] s']|e] eqn:Hgen; [|discriminate].
  exists s'. split; [reflexivity|].
  exact (proj1 (proj2 (generation_keeps_descent s s' tidy_pair Hgen))).
Defined.

(** The same pair: at most two rabbits and four foxes afterwards. *)
Lemma generation_growth_bound_witness :
  let s := mkState [Animal.mk "rabbit" 1 3 2 0 1 true 5 6;
                    Animal.mk "fox" 3 12 1 0 0 true 10 10]
                   (mkField (ones 65 65) [0%nat] [1%nat])
                   (mkRng (λ _, 1) 0) (mkRng (λ n, Z.of_nat n * 2 ^ 45) 0) in
  ∃ s', generation s = Ok (tt, s') ∧
    (length (rabbits (self s')) ≤ 2)%nat ∧ (length (foxes (self s')) ≤ 4)%nat.
Proof.
  intros s.
  assert (Hret : match generation s with Ok _ => true | Raise _ => false end = true)
    by (vm_compute; reflexivity).
  destruct (generation s) as [[[] s']|e] eqn:Hgen; [|discriminate].
  exists s'. split; [reflexivity|].
  refine (generation_growth_bound s s' 1 3 tidy_pair Hgen _ _).
  - intros r a Hr Ha. cbn [self rabbits s] in Hr.
    apply list_elem_of_singleton in Hr as ->. injection Ha as <-. simpl. lia.
  - intros f a Hf Ha. cbn [self foxes s] in Hf.
    apply list_elem_of_singleton in Hf as ->. injection Ha as <-. simpl. lia.
Defined.

(** * The whole run of main() *)

Lemma generation_main_kinds (s : State) :
  tidy s → main_kinds s →
  ∃ s', generation s = Ok (tt, s') ∧ tidy s' ∧ main_kinds s' ∧
    (length (rabbits (self s')) ≤ 2 * length (rabbits (self s)))%nat ∧
    (length (foxes (self s')) ≤ 4 * length (foxes (self s)))%nat.
Proof.
  intros Htidy [Hkr Hkf].
  destruct (generation_tidy_exact s Htidy)
    as (s' & Hgen & Htidy' & _ & _ & _ & Hdr & Hdf & Hcount & _).
  exists s'. split; [exact Hgen|]. split; [exact Htidy'|]. split.
  - destruct Htidy' as (_ & _ & _ & Hall'). split.
    + intros r' Hr'. destruct (Hall' r') as (a' & Ha' & _); [apply elem_of_app; by left|].
      destruct (Hdr r' a' Hr' Ha') as (r & a & Hr & Ha & H1 & H2 & H3 & H4).
      destruct (Hkr r Hr) as (a0 & Ha0 & K1 & K2 & K3 & K4).
      rewrite Ha in Ha0. injection Ha0 as <-.
      exists a'. split; [exact Ha'|]. repeat split; congruence.
    + intros f' Hf'. destruct (Hall' f') as (a' & Ha' & _); [apply elem_of_app; by right|].
      destruct (Hdf f' a' Hf' Ha') as (f & a & Hf & Ha & H1 & H2 & H3 & H4).
      destruct (Hkf f Hf) as (a0 & Ha0 & K1 & K2 & K3 & K4).
      rewrite Ha in Ha0. injection Ha0 as <-.
      exists a'. split; [exact Ha'|]. repeat split; congruence.
  - apply (Hcount 1%nat 3%nat).
    + intros r a Hr Ha. destruct (Hkr r Hr) as (a0 & Ha0 & _ & K2 & _).
      rewrite Ha in Ha0. injection Ha0 as <-. lia.
    + intros f a Hf Ha. destruct (Hkf f Hf) as (a0 & Ha0 & _ & K2 & _).
      rewrite Ha in Ha0. injection Ha0 as <-. lia.
Qed.

Lemma times_generation_main (n : nat) (s : State) :
  tidy s → main_kinds s →
  ∃ s', times n generation s = Ok (tt, s') ∧ tidy s' ∧ main_kinds s' ∧
    (length (rabbits (self s')) ≤ length (rabbits (self s)) * 2 ^ n)%nat ∧
    (length (foxes (self s')) ≤ length (foxes (self s)) * 4 ^ n)%nat.
Proof.
  revert s. induction n as [|n IH]; intros s Htidy Hkinds.
  - exists s. split; [reflexivity|]. split; [exact Htidy|]. split; [exact Hkinds|].
    cbn [Nat.pow]. lia.
  - destruct (generation_main_kinds s Htidy Hkinds)
      as (s1 & Hgen & Htidy1 & Hkinds1 & Hr1 & Hf1).
    destruct (IH s1 Htidy1 Hkinds1) as (s' & Htimes & Htidy' & Hkinds' & Hr' & Hf').
    exists s'. split; [cbn [times]; by rewrite bind_run, Hgen|].
    split; [exact Htidy'|]. split; [exact Hkinds'|].
    rewrite !Nat.pow_succ_r'. split; nia.
Qed.

(** X16. The run of main(): set-up, then any number n of generations.
    Whatever the draws, nothing raises, and after the n-th generation the
    field has its shape and holds 0s and 1s; no animal is listed twice or
    in both lists; every listed animal is alive, inside the field, with
    0 <= hunger < starvation_level and 0 <= eaten < reproduction_level;
    every listed rabbit is still a "rabbit" with max_offspring 1,
    starvation_level 3 and reproduction_level 2 and every listed fox a
    "fox" with 3, 12 and 1; and there are at most INIT_RABBITS * 2^n
    rabbits and INIT_FOXES * 4^n foxes. *)
Theorem main_run_stays_tidy (n : nat) (s : State) :
  ∃ s', (main_setup;; times n generation) s = Ok (tt, s') ∧
    grid_shape (field (self s')) ∧
    (∀ p v, in_field p → getitem (field (self s')) p.1 p.2 = Some v → v = 0 ∨ v = 1) ∧
    NoDup (rabbits (self s') ++ foxes (self s')) ∧
    (∀ r, r ∈ rabbits (self s') → ∃ a, objects s' !! r = Some a ∧
       Animal.species a = "rabbit"%string ∧ Animal.max_offspring a = 1 ∧
       Animal.starvation_level a = 3 ∧ Animal.reproduction_level a = 2 ∧
       Animal.alive a = true ∧ in_field (position a) ∧
       0 ≤ Animal.hunger a < 3 ∧ 0 ≤ Animal.eaten a < 2) ∧
    (∀ f, f ∈ foxes (self s') → ∃ a, objects s' !! f = Some a ∧
       Animal.species a = "fox"%string ∧ Animal.max_offspring a = 3 ∧
       Animal.starvation_level a = 12 ∧ Animal.reproduction_level a = 1 ∧
       Animal.alive a = true ∧ in_field (position a) ∧
       0 ≤ Animal.hunger a < 12 ∧ 0 ≤ Animal.eaten a < 1) ∧
    (length (rabbits (self s')) ≤ INIT_RABBITS * 2 ^ n)%nat ∧
    (length (foxes (self s')) ≤ INIT_FOXES * 4 ^ n)%nat.
Proof.
  destruct (main_setup_set_up s) as (s0 & H0 & (Htidy0 & _ & Hrab0 & Hfox0) & Hnr & Hnf).
  assert (Hkinds0 : main_kinds s0).
  { split.
    - intros r Hr. destruct (Hrab0 r Hr) as (px & py & Ha).
      eexists. split; [exact Ha|]. repeat split.
    - intros f Hf. destruct (Hfox0 f Hf) as (px & py & Ha).
      eexists. split; [exact Ha|]. repeat split. }
  destruct (times_generation_main n s0 Htidy0 Hkinds0)
    as (s' & Htimes & (Hshape & Hbin & Hnd & Hall) & [Hkr Hkf] & Hlr & Hlf).
  exists s'. split; [rewrite bind_run, H0; exact Htimes|].
  split; [exact Hshape|]. split; [exact Hbin|]. split; [exact Hnd|].
  split; [|split; [|split]].
  - intros r Hr. destruct (Hkr r Hr) as (a & Ha & K1 & K2 & K3 & K4).
    destruct (Hall r) as (a0 & Ha0 & Hal & Hin & _ & Hh & He);
      [apply elem_of_app; by left|].
    rewrite Ha in Ha0. injection Ha0 as <-. rewrite K3 in Hh. rewrite K4 in He.
    exists a. split; [exact Ha|]. repeat (split; [assumption|]). exact He.
  - intros f Hf. destruct (Hkf f Hf) as (a & Ha & K1 & K2 & K3 & K4).
    destruct (Hall f) as (a0 & Ha0 & Hal & Hin & _ & Hh & He);
      [apply elem_of_app; by right|].
    rewrite Ha in Ha0. injection Ha0 as <-. rewrite K3 in Hh. rewrite K4 in He.
    exists a. split; [exact Ha|]. repeat (split; [assumption|]). exact He.
  - by rewrite <- Hnr.
  - by rewrite <- Hnf.
Qed.

(** * Foxes without rabbits *)

Lemma times_generation_without_rabbits (n : nat) (s : State) :
  tidy s →
  rabbits (self s) = [] →
  (∀ f a, f ∈ foxes (self s) → objects s !! f = Some a →
     Animal.starvation_level a ≤ Animal.hunger a + Z.of_nat n) →
  ∃ s', times n generation s = Ok (tt, s') ∧ tidy s' ∧
    rabbits (self s') = [] ∧ foxes (self s') = [].
Proof.
  revert s. induction n as [|n IH]; intros s Htidy Hnil Hlate.
  - exists s. split; [reflexivity|]. split; [exact Htidy|]. split; [exact Hnil|].
    apply elem_of_nil_inv. intros f Hf.
    destruct Htidy as (_ & _ & _ & Hall).
    destruct (Hall f) as (a & Ha & _ & _ & _ & Hh & _); [apply elem_of_app; by right|].
    specialize (Hlate f a Hf Ha). lia.
  - destruct (generation_tidy_exact s Htidy)
      as (s1 & Hgen & Htidy1 & _ & _ & _ & Hdr & _ & _ & Hstarve).
    assert (Hnil1 : rabbits (self s1) = []).
    { apply elem_of_nil_inv. intros r' Hr'.
      destruct Htidy1 as (_ & _ & _ & Hall1).
      destruct (Hall1 r') as (a' & Ha' & _); [apply elem_of_app; by left|].
      destruct (Hdr r' a' Hr' Ha') as (r & a & Hr & _).
      rewrite Hnil in Hr. exact (not_elem_of_nil _ Hr). }
    destruct (IH s1 Htidy1 Hnil1) as (s' & Htimes & Htidy' & Hr' & Hf').
    { intros f a' Hf Ha'.
      destruct (Hstarve Hnil f a' Hf Ha') as (a & Hf0 & Ha & Hh).
      specialize (Hlate f a Hf0 Ha).
      destruct (evolves_constants_generation s tt s1 Hgen f a Ha)
        as (a'' & Ha'' & _ & _ & Hsl & _).
      rewrite Ha' in Ha''. injection Ha'' as <-. lia. }
    exists s'. split; [cbn [times]; by rewrite bind_run, Hgen|].
    split; [exact Htidy'|]. split; [exact Hr'|exact Hf'].
Qed.

(** X17. Foxes do not outlive the rabbits for long: from a state as the
    simulation keeps it in which no rabbit is listed, n generations in a
    row return, and if n is enough for every listed fox to reach its
    starvation level (starvation_level <= hunger + n; 12 generations for
    the foxes of main()), no fox and no rabbit is listed afterwards -
    without prey no fox eats, so none reproduces and each one's hunger
    grows by one per generation. *)
Theorem foxes_die_out_without_rabbits (n : nat) (s : State) :
  tidy s →
  rabbits (self s) = [] →
  (∀ f a, f ∈ foxes (self s) → objects s !! f = Some a →
     Animal.starvation_level a ≤ Animal.hunger a + Z.of_nat n) →
  ∃ s', times n generation s = Ok (tt, s') ∧
    rabbits (self s') = [] ∧ foxes (self s') = [].
Proof.
  intros Htidy Hnil Hlate.
  destruct (times_generation_without_rabbits n s Htidy Hnil Hlate)
    as (s' & Htimes & _ & Hr & Hf).
  exists s'. split; [exact Htimes|]. split; [exact Hr|exact Hf].
Qed.

(** Two foxes of main() alone on the field, ten and eleven generations
    hungry: two generations later none is left. *)
Lemma foxes_die_out_without_rabbits_witness :
  let s := mkState [Animal.mk "fox" 3 12 1 10 0 true 10 10;
                    Animal.mk "fox" 3 12 1 11 0 true 20 3]
                   (mkField (ones 65 65) [] [0; 1]%nat)
                   (mkRng (λ n, Z.of_nat n) 0) (mkRng (λ n, Z.of_nat n * 2 ^ 45) 0) in
  ∃ s', times 2 generation s = Ok (tt, s') ∧
    rabbits (self s') = [] ∧ foxes (self s') = [].
Proof.
  intros s.
  apply (foxes_die_out_without_rabbits 2 s).
  - split; [|split; [|split]].
    + split; [reflexivity|]. apply (bool_decide_unpack _). vm_compute. exact I.
    + exact ones_binary.
    + apply (bool_decide_unpack _). vm_compute. exact I.
    + intros r Hr. unfold population in Hr. cbn [self rabbits foxes s app] in Hr.
      repeat (apply elem_of_cons in Hr as [->|Hr]);
        try (eexists; split; [reflexivity|];
             unfold tidy_animal, in_field, ARRSIZE; simpl; repeat split; lia).
      exfalso. exact (not_elem_of_nil _ Hr).
  - reflexivity.
  - intros f a Hf Ha. cbn [self foxes s] in Hf.
    repeat (apply elem_of_cons in Hf as [->|Hf]); try (injection Ha as <-; simpl; lia).
    exfalso. exact (not_elem_of_nil _ Hf).
Defined.
